(** * pbrt: sample generation and buffer deduplication

    A shallow embedding of the PCG32 random number generator ([RNG]), the
    generator-matrix primitives, the pixel-sampler state machine, the
    [MaxMinDistSampler] constructor and the [BufferCache], together with the
    properties the specification states about them.

    Machine integers are modelled as [Z] with the wrap-around written out
    ([u64], [u32]); loops carry an explicit fuel and report running out of
    it, so that termination is a theorem and not an assumption. *)

From stdpp Require Import base numbers option list gmap.
From Stdlib Require Import ZArith Lia List Bool Morphisms Setoid.
From Stdlib.Strings Require Import Byte.
Import ListNotations.

Local Open Scope Z_scope.

(** ** Machine words *)

Definition u64 (x : Z) : Z := x mod 2 ^ 64.
Definition u32 (x : Z) : Z := x mod 2 ^ 32.

(** [(int64_t) x] for an unsigned 64-bit [x]. *)
Definition to_int64 (x : Z) : Z := if x <? 2 ^ 63 then x else x - 2 ^ 64.

(** Outcome of code that can hit a fatal [CHECK]; [OutOfFuel] is the
    model's reading of a loop that has not finished within the fuel. *)
Inductive result (A : Type) : Type :=
  | Ok (a : A)
  | CheckFailed
  | OutOfFuel.
Arguments Ok {A} a.
Arguments CheckFailed {A}.
Arguments OutOfFuel {A}.

(** ** util/rng.h *)

Module RNG.

Definition PCG32_DEFAULT_STATE : Z := 0x853c49e6748fea9b.
Definition PCG32_DEFAULT_STREAM : Z := 0xda3e39cb94b95bdb.
Definition PCG32_MULT : Z := 0x5851f42d4c957f2d.

Record RNG : Type := mkRNG { state : Z; inc : Z }.

(** [RNG::RNG()] *)
Definition RNG_default : RNG := mkRNG PCG32_DEFAULT_STATE PCG32_DEFAULT_STREAM.

(** The value [Uniform<uint32_t>()] returns, as a function of [oldstate]. *)
Definition output (oldstate : Z) : Z :=
  let xorshifted := u32 (Z.shiftr (Z.lxor (Z.shiftr oldstate 18) oldstate) 27) in
  let rot := u32 (Z.shiftr oldstate 59) in
  Z.lor (Z.shiftr xorshifted rot)
        (u32 (Z.shiftl xorshifted (Z.land (u32 (Z.lnot rot + 1)) 31))).

(** The state update of [Uniform<uint32_t>()]. *)
Definition step (inc oldstate : Z) : Z := u64 (oldstate * PCG32_MULT + inc).

(** [RNG::Uniform<uint32_t>()] *)
Definition Uniform_u32 (r : RNG) : Z * RNG :=
  let oldstate := state r in
  (output oldstate, mkRNG (step (inc r) oldstate) (inc r)).

(** [RNG::Uniform<uint64_t>()] *)
Definition Uniform_u64 (r : RNG) : Z * RNG :=
  let '(v0, r1) := Uniform_u32 r in
  let '(v1, r2) := Uniform_u32 r1 in
  (Z.lor (u64 (Z.shiftl v0 32)) v1, r2).

(** [RNG::SetSequence(sequenceIndex, seed)] *)
Definition SetSequence (sequenceIndex seed : Z) : RNG :=
  let r0 := mkRNG 0 (Z.lor (u64 (Z.shiftl sequenceIndex 1)) 1) in
  let r1 := snd (Uniform_u32 r0) in
  let r2 := mkRNG (u64 (state r1 + seed)) (inc r1) in
  snd (Uniform_u32 r2).

(** [RNG::RNG(sequenceIndex, seed)] *)
Definition RNG_ctor (sequenceIndex seed : Z) : RNG := SetSequence sequenceIndex seed.

(** The loop of [RNG::Advance]: one iteration per remaining bit of [delta]. *)
Fixpoint Advance_loop (fuel : nat) (curMult curPlus accMult accPlus delta : Z)
  : option (Z * Z) :=
  if delta >? 0 then
    match fuel with
    | O => None
    | S fuel' =>
        let '(accMult', accPlus') :=
          if negb (Z.land delta 1 =? 0)
          then (u64 (accMult * curMult), u64 (accPlus * curMult + curPlus))
          else (accMult, accPlus) in
        Advance_loop fuel' (u64 (curMult * curMult)) (u64 ((curMult + 1) * curPlus))
                     accMult' accPlus' (delta / 2)
    end
  else Some (accMult, accPlus).

(** [RNG::Advance(idelta)]; [None] only if 64 iterations were not enough. *)
Definition Advance (r : RNG) (idelta : Z) : option RNG :=
  match Advance_loop 64 PCG32_MULT (inc r) 1 0 (u64 idelta) with
  | Some (accMult, accPlus) => Some (mkRNG (u64 (accMult * state r + accPlus)) (inc r))
  | None => None
  end.

(** The loop of [RNG::operator-]. *)
Fixpoint diff_loop (fuel : nat) (st curMult curPlus curState theBit distance : Z)
  : result Z :=
  if st =? curState then Ok distance
  else
    match fuel with
    | O => OutOfFuel
    | S fuel' =>
        let '(curState', distance') :=
          if negb (Z.land st theBit =? Z.land curState theBit)
          then (u64 (curState * curMult + curPlus), Z.lor distance theBit)
          else (curState, distance) in
        if negb (Z.land st theBit =? Z.land curState' theBit) then CheckFailed
        else diff_loop fuel' st (u64 (curMult * curMult)) (u64 ((curMult + 1) * curPlus))
                       curState' (u64 (Z.shiftl theBit 1)) distance'
    end.

(** [RNG::operator-]: [diff a other] is [a - other]. *)
Definition diff (a other : RNG) : result Z :=
  if negb (inc a =? inc other) then CheckFailed
  else
    match diff_loop 64 (state a) PCG32_MULT (inc a) (state other) 1 0 with
    | Ok distance => Ok (to_int64 distance)
    | CheckFailed => CheckFailed
    | OutOfFuel => OutOfFuel
    end.

(** [RNG::Uniform(T b)] for an unsigned [T] of [W] bits whose raw variate is
    drawn by [draw] ([Uniform<T>()]). *)
Fixpoint Uniform_bounded_loop (draw : RNG -> Z * RNG) (fuel : nat) (r : RNG)
    (threshold b : Z) : option (Z * RNG) :=
  match fuel with
  | O => None
  | S fuel' =>
      let '(v, r') := draw r in
      if v >=? threshold then Some (v mod b, r')
      else Uniform_bounded_loop draw fuel' r' threshold b
  end.

(** [T threshold = (~b + 1u) % b] in [W]-bit unsigned arithmetic. *)
Definition threshold (W b : Z) : Z := ((Z.lnot b + 1) mod 2 ^ W) mod b.

Definition Uniform_bounded (W : Z) (draw : RNG -> Z * RNG) (fuel : nat) (r : RNG) (b : Z)
  : option (Z * RNG) :=
  Uniform_bounded_loop draw fuel r (threshold W b) b.

Definition Uniform_b_u32 := Uniform_bounded 32 Uniform_u32.
Definition Uniform_b_u64 := Uniform_bounded 64 Uniform_u64.

(** [n] draws of [Uniform<uint32_t>()] move the state by [steps n]. *)
Definition steps (n : nat) (inc st : Z) : Z := Nat.iter n (step inc) st.

(** The states an [RNG] object can hold: both fields are 64-bit words. *)
Definition wf (r : RNG) : Prop :=
  0 <= state r < 2 ^ 64 /\ 0 <= inc r < 2 ^ 64.

(** [n] successive [Uniform<uint32_t>()] values and the generator left behind. *)
Fixpoint draws (n : nat) (r : RNG) : list Z * RNG :=
  match n with
  | O => ([], r)
  | S n' =>
      let '(v, r1) := Uniform_u32 r in
      let '(vs, r2) := draws n' r1 in
      (v :: vs, r2)
  end.

(** The generator objects a program can build: a constructor or
    [SetSequence] first, then any of the mutating methods.  [RNG(index)]
    and [SetSequence(index)] are [SetSequence index (MixBits index)];
    the typed variants of [Uniform] all draw through [Uniform<uint32_t>];
    [operator-] is [const]. *)
Inductive reachable : RNG -> Prop :=
  | reach_default : reachable RNG_default
  | reach_SetSequence sequenceIndex seed : reachable (SetSequence sequenceIndex seed)
  | reach_Uniform_u32 r : reachable r -> reachable (snd (Uniform_u32 r))
  | reach_Uniform_u64 r : reachable r -> reachable (snd (Uniform_u64 r))
  | reach_Advance r idelta r' :
      reachable r -> Advance r idelta = Some r' -> reachable r'
  | reach_Uniform_b_u32 r fuel b v r' :
      reachable r -> Uniform_b_u32 fuel r b = Some (v, r') -> reachable r'
  | reach_Uniform_b_u64 r fuel b v r' :
      reachable r -> Uniform_b_u64 fuel r b = Some (v, r') -> reachable r'.

(** The generator after [n] raw draws. *)
Definition nth_gen (draw : RNG -> Z * RNG) (n : nat) (r : RNG) : RNG :=
  Nat.iter n (fun r => snd (draw r)) r.

(** How many [x] in [lo, lo + n) satisfy [P]. *)
Fixpoint count_from (P : Z -> bool) (lo : Z) (n : nat) : nat :=
  match n with
  | O => 0
  | S n' => (if P lo then 1 else 0) + count_from P (lo + 1) n'
  end.

(** How many raw [W]-bit variates [Uniform(b)] accepts and maps to [v]. *)
Definition accepted_preimages (W b v : Z) : nat :=
  count_from (fun raw => (raw >=? threshold W b) && (raw mod b =? v)) 0 (Z.to_nat (2 ^ W)).

(** What the specification asks of [Uniform(b)] on a [W]-bit type. *)
Definition unbiased (W : Z) (draw : RNG -> Z * RNG) (r : RNG) (b : Z) : Prop :=
  threshold W b = (2 ^ W - b) mod b
  /\ (exists fuel v r', Uniform_bounded W draw fuel r b = Some (v, r'))
  /\ (forall fuel v r',
        Uniform_bounded W draw fuel r b = Some (v, r') ->
        0 <= v < b
        /\ exists n raw,
            (n < fuel)%nat
            /\ (forall j, (j < n)%nat -> fst (draw (nth_gen draw j r)) < threshold W b)
            /\ draw (nth_gen draw n r) = (raw, r')
            /\ threshold W b <= raw
            /\ v = raw mod b)
  /\ (forall v, 0 <= v < b -> accepted_preimages W b v = Z.to_nat (2 ^ W / b)).

(** *** The signed variants *)

(** [(int32_t) x] for an unsigned 32-bit [x]. *)
Definition to_int32 (x : Z) : Z := if x <? 2 ^ 31 then x else x - 2 ^ 32.

Definition INT32_MIN : Z := - 2 ^ 31.
Definition INT32_MAX : Z := 2 ^ 31 - 1.
Definition INT64_MIN : Z := - 2 ^ 63.
Definition INT64_MAX : Z := 2 ^ 63 - 1.

(** What [Uniform<int32_t>()] does with its raw variate [v]; [debug] says
    whether [DCHECK]s are compiled in.  [v - INT32_MIN] is an unsigned
    subtraction, the final sum a signed one. *)
Definition int32_of_raw (debug : bool) (v : Z) : result Z :=
  if v <=? u32 INT32_MAX then Ok (to_int32 v)
  else if debug && negb (v >=? u32 INT32_MIN) then CheckFailed
  else Ok (to_int32 (u32 (v - u32 INT32_MIN)) + INT32_MIN).

(** [RNG::Uniform<int32_t>()] *)
Definition Uniform_i32 (debug : bool) (r : RNG) : result (Z * RNG) :=
  let '(v, r') := Uniform_u32 r in
  match int32_of_raw debug v with
  | Ok x => Ok (x, r')
  | CheckFailed => CheckFailed
  | OutOfFuel => OutOfFuel
  end.

Definition int64_of_raw (debug : bool) (v : Z) : result Z :=
  if v <=? u64 INT64_MAX then Ok (to_int64 v)
  else if debug && negb (v >=? u64 INT64_MIN) then CheckFailed
  else Ok (to_int64 (u64 (v - u64 INT64_MIN)) + INT64_MIN).

(** [RNG::Uniform<int64_t>()] *)
Definition Uniform_i64 (debug : bool) (r : RNG) : result (Z * RNG) :=
  let '(v, r') := Uniform_u64 r in
  match int64_of_raw debug v with
  | Ok x => Ok (x, r')
  | CheckFailed => CheckFailed
  | OutOfFuel => OutOfFuel
  end.

(** [T threshold = (~b + 1u) % b] for [T = int32_t]: the sum and the
    remainder are computed in [unsigned int], the result is converted
    back. *)
Definition threshold_i32 (b : Z) : Z := to_int32 (u32 (Z.lnot b + 1) mod u32 b).

(** The same line for [T = int64_t]: [1u] is converted to [int64_t], so
    sum and remainder are signed, and the remainder truncates. *)
Definition threshold_i64 (b : Z) : Z := Z.rem (Z.lnot b + 1) b.

(** The loop of [RNG::Uniform(T b)] for a signed [T]; [r % b] truncates. *)
Fixpoint Uniform_signed_loop (draw : RNG -> result (Z * RNG)) (fuel : nat) (r : RNG)
    (threshold b : Z) : result (Z * RNG) :=
  match fuel with
  | O => OutOfFuel
  | S fuel' =>
      match draw r with
      | Ok (v, r') =>
          if v >=? threshold then Ok (Z.rem v b, r')
          else Uniform_signed_loop draw fuel' r' threshold b
      | CheckFailed => CheckFailed
      | OutOfFuel => OutOfFuel
      end
  end.

(** [RNG::Uniform(int32_t b)] and [RNG::Uniform(int64_t b)] *)
Definition Uniform_b_i32 (debug : bool) (fuel : nat) (r : RNG) (b : Z) : result (Z * RNG) :=
  Uniform_signed_loop (Uniform_i32 debug) fuel r (threshold_i32 b) b.
Definition Uniform_b_i64 (debug : bool) (fuel : nat) (r : RNG) (b : Z) : result (Z * RNG) :=
  Uniform_signed_loop (Uniform_i64 debug) fuel r (threshold_i64 b) b.

(** What the loop of a signed [Uniform(b)] makes of one raw word: the
    value it returns there, or [None] when it does not return at that word.
    [conv] is what [Uniform<T>()] does with its raw variate, [t] the
    threshold. *)
Definition loop_value (conv : Z -> result Z) (t b raw : Z) : option Z :=
  match conv raw with
  | Ok x => if x >=? t then Some (Z.rem x b) else None
  | CheckFailed | OutOfFuel => None
  end.

Definition loop_value_i32 (debug : bool) (b raw : Z) : option Z :=
  loop_value (int32_of_raw debug) (threshold_i32 b) b raw.
Definition loop_value_i64 (debug : bool) (b raw : Z) : option Z :=
  loop_value (int64_of_raw debug) (threshold_i64 b) b raw.

(** How many of the [2^W] raw words the loop turns into [v]. *)
Definition accepted_signed (conv : Z -> result Z) (W t b v : Z) : nat :=
  count_from (fun raw => bool_decide (loop_value conv t b raw = Some v))
             0 (Z.to_nat (2 ^ W)).

Definition accepted_preimages_i32 (debug : bool) (b v : Z) : nat :=
  accepted_signed (int32_of_raw debug) 32 (threshold_i32 b) b v.
Definition accepted_preimages_i64 (debug : bool) (b v : Z) : nat :=
  accepted_signed (int64_of_raw debug) 64 (threshold_i64 b) b v.

(** *** Notions used in the proofs *)

(** Congruence modulo 2^64, as a relation one can rewrite with. *)
Inductive eqm64 (a b : Z) : Prop := eqm64_intro (H : u64 a = u64 b).

(** [x |-> m * x + p] in 64-bit arithmetic. *)
Definition app (m p x : Z) : Z := u64 (m * x + p).

(** [agrees c m p n]: the affine map [(m, p)] is [n] steps of stream [c]. *)
Definition agrees (c m p : Z) (n : nat) : Prop :=
  forall x, 0 <= x < 2 ^ 64 -> app m p x = steps n c x.

(** The squaring ladder both loops climb: at iteration [i],
    [(curMult, curPlus)] is the map of [2^i] steps; for an odd increment it
    is congruent to [x |-> x + 2^i] modulo [2^(i+1)]. *)
Record level (c : Z) (i : nat) (cm cp : Z) : Prop := mkLevel {
  level_mult_mod4 : cm mod 4 = 1;
  level_agrees : agrees c cm cp (2 ^ i);
  level_mult_low : (i < 64)%nat -> cm mod 2 ^ (Z.of_nat i + 1) = 1;
  level_plus_low : (i < 64)%nat -> cp mod 2 ^ (Z.of_nat i + 1) = 2 ^ Z.of_nat i
}.

(** The first outputs of the reference PCG32 generator seeded with state
    42 and sequence 54. *)
Example draws_reference :
  fst (draws 6 (SetSequence 54 42))
  = [0xa15c02b7; 0x7b47f409; 0xba1d3330; 0x83d2f293; 0xbfa4784b; 0xcbed606e].
Proof. vm_compute. reflexivity. Qed.

Example advance_diff_roundtrip :
  option_map (fun a => diff a RNG_default) (Advance RNG_default 12345) = Some (Ok 12345).
Proof. vm_compute. reflexivity. Qed.

(** *** Arithmetic modulo 2^64 *)

#[local] Instance eqm64_equiv : Equivalence eqm64.
Proof.
  split.
  - intros a. constructor. reflexivity.
  - intros a b [H]. constructor. congruence.
  - intros a b c [H1] [H2]. constructor. congruence.
Qed.

#[local] Instance eqm64_add : Proper (eqm64 ==> eqm64 ==> eqm64) Z.add.
Proof.
  intros a a' [Ha] b b' [Hb]. constructor. unfold u64 in *.
  rewrite (Zplus_mod a b), (Zplus_mod a' b'). congruence.
Qed.

#[local] Instance eqm64_mul : Proper (eqm64 ==> eqm64 ==> eqm64) Z.mul.
Proof.
  intros a a' [Ha] b b' [Hb]. constructor. unfold u64 in *.
  rewrite (Zmult_mod a b), (Zmult_mod a' b'). congruence.
Qed.

Lemma u64_eqm64 a : eqm64 (u64 a) a.
Proof. constructor. unfold u64. apply Zmod_mod. Qed.

Lemma eqm64_u64 a b : eqm64 a b -> u64 a = u64 b.
Proof. intros [H]. exact H. Qed.

(** Equalities between wrapped polynomial expressions. *)
Ltac u64_ring :=
  apply eqm64_u64; rewrite ?u64_eqm64;
  match goal with |- eqm64 ?a ?b => replace a with b by ring; reflexivity end.

Lemma u64_range x : 0 <= u64 x < 2 ^ 64.
Proof. unfold u64. apply Z.mod_pos_bound. lia. Qed.

Lemma u64_small x : 0 <= x < 2 ^ 64 -> u64 x = x.
Proof. intros H. unfold u64. apply Z.mod_small. exact H. Qed.

Lemma mod_decompose a n q r : 0 <= r < n -> a = n * q + r -> a mod n = r.
Proof. intros Hr Ha. symmetry. apply (Zmod_unique a n q r); lia. Qed.

Lemma mod_recompose a n r : n <> 0 -> a mod n = r -> a = n * (a / n) + r.
Proof. intros Hn <-. apply Z.div_mod. exact Hn. Qed.

Lemma mod_pow2_u64 x (k : Z) : 0 <= k <= 64 -> u64 x mod 2 ^ k = x mod 2 ^ k.
Proof.
  intros Hk. unfold u64. apply Z.mod_mod_divide.
  exists (2 ^ (64 - k)). rewrite <- Z.pow_add_r by lia. f_equal. lia.
Qed.

(** *** The generator as an affine map *)

Lemma step_app c x : step c x = app PCG32_MULT c x.
Proof. unfold step, app. f_equal. ring. Qed.

Lemma app_compose m1 p1 m2 p2 x :
  app m2 p2 (app m1 p1 x) = app (u64 (m1 * m2)) (u64 (p1 * m2 + p2)) x.
Proof. unfold app. u64_ring. Qed.

Lemma app_square m p x :
  app (u64 (m * m)) (u64 ((m + 1) * p)) x = app m p (app m p x).
Proof. unfold app. u64_ring. Qed.

Lemma steps_range n c x : 0 <= x < 2 ^ 64 -> 0 <= steps n c x < 2 ^ 64.
Proof.
  intros Hx. unfold steps. destruct n as [|n]; [exact Hx|].
  rewrite Nat.iter_succ. apply u64_range.
Qed.

Lemma steps_add n m c x : steps (n + m) c x = steps n c (steps m c x).
Proof. unfold steps. apply Nat.iter_add. Qed.

Lemma agrees_one c : agrees c PCG32_MULT c 1.
Proof. intros x _. symmetry. apply step_app. Qed.

Lemma agrees_zero c : agrees c 1 0 0.
Proof.
  intros x Hx. unfold app, steps. change (Nat.iter 0 (step c) x) with x.
  replace (1 * x + 0) with x by ring. apply u64_small, Hx.
Qed.

Lemma agrees_compose c m1 p1 n1 m2 p2 n2 :
  agrees c m1 p1 n1 -> agrees c m2 p2 n2 ->
  agrees c (u64 (m1 * m2)) (u64 (p1 * m2 + p2)) (n2 + n1).
Proof.
  intros H1 H2 x Hx. rewrite <- app_compose, steps_add, <- (H1 x Hx).
  apply H2. apply u64_range.
Qed.

Lemma agrees_square c m p n :
  agrees c m p n -> agrees c (u64 (m * m)) (u64 ((m + 1) * p)) (n + n).
Proof.
  intros H x Hx. rewrite app_square, steps_add, <- (H x Hx).
  apply H. apply u64_range.
Qed.

(** *** The maps of the squaring ladder *)

Lemma level_0 c : Z.odd c = true -> level c 0 PCG32_MULT c.
Proof.
  intros Hodd. split.
  - reflexivity.
  - apply agrees_one.
  - intros _. reflexivity.
  - intros _. change (c mod 2 = 1). rewrite Zmod_odd, Hodd. reflexivity.
Qed.

Lemma level_S c i cm cp :
  level c i cm cp -> level c (S i) (u64 (cm * cm)) (u64 ((cm + 1) * cp)).
Proof.
  intros [H4 Hag Hm Hp].
  assert (E4 : cm = 4 * (cm / 4) + 1) by (apply mod_recompose; [lia | exact H4]).
  split.
  - rewrite (mod_pow2_u64 _ 2) by lia.
    apply (mod_decompose _ _ (4 * (cm / 4) * (cm / 4) + 2 * (cm / 4))); [lia|].
    rewrite E4 at 1 2. ring.
  - replace (2 ^ S i)%nat with (2 ^ i + 2 ^ i)%nat by (cbn [Nat.pow]; lia).
    apply agrees_square. exact Hag.
  - intros Hi. specialize (Hm ltac:(lia)).
    set (Q := 2 ^ Z.of_nat i) in *.
    assert (HQ : 0 < Q) by (apply Z.pow_pos_nonneg; lia).
    assert (E1 : 2 ^ (Z.of_nat i + 1) = 2 * Q)
      by (unfold Q; rewrite Z.pow_add_r by lia; change (2 ^ 1) with 2; ring).
    assert (E2 : 2 ^ (Z.of_nat (S i) + 1) = 4 * Q)
      by (unfold Q; rewrite Nat2Z.inj_succ, <- Z.add_1_r, !Z.pow_add_r by lia;
          change (2 ^ 1) with 2; ring).
    rewrite E1 in Hm. rewrite mod_pow2_u64 by lia. rewrite E2.
    set (t := cm / (2 * Q)).
    assert (Et : cm = 2 * Q * t + 1) by (apply mod_recompose; [lia | exact Hm]).
    apply (mod_decompose _ _ (Q * t * t + t)); [lia|].
    rewrite Et at 1 2. ring.
  - intros Hi. specialize (Hp ltac:(lia)).
    set (Q := 2 ^ Z.of_nat i) in *.
    assert (HQ : 0 < Q) by (apply Z.pow_pos_nonneg; lia).
    assert (E1 : 2 ^ (Z.of_nat i + 1) = 2 * Q)
      by (unfold Q; rewrite Z.pow_add_r by lia; change (2 ^ 1) with 2; ring).
    assert (E2 : 2 ^ (Z.of_nat (S i) + 1) = 4 * Q)
      by (unfold Q; rewrite Nat2Z.inj_succ, <- Z.add_1_r, !Z.pow_add_r by lia;
          change (2 ^ 1) with 2; ring).
    assert (E3 : 2 ^ Z.of_nat (S i) = 2 * Q)
      by (unfold Q; rewrite Nat2Z.inj_succ, <- Z.add_1_r, Z.pow_add_r by lia;
          change (2 ^ 1) with 2; ring).
    rewrite E1 in Hp. rewrite mod_pow2_u64 by lia. rewrite E2, E3.
    set (s := cp / (2 * Q)).
    assert (Es : cp = 2 * Q * s + Q) by (apply mod_recompose; [lia | exact Hp]).
    set (u := cm / 4) in *.
    apply (mod_decompose _ _ (2 * u * s + u + s)); [lia|].
    rewrite Es, E4. ring.
Qed.

(** One application of the level-[i] map adds [2^i] modulo [2^(i+1)]:
    bits below [i] stay and bit [i] flips. *)
Lemma level_flip c i cm cp x :
  level c i cm cp -> (i < 64)%nat ->
  app cm cp x mod 2 ^ (Z.of_nat i + 1) = (x + 2 ^ Z.of_nat i) mod 2 ^ (Z.of_nat i + 1).
Proof.
  intros [H4 Hag Hm Hp] Hi. specialize (Hm Hi). specialize (Hp Hi).
  unfold app. rewrite mod_pow2_u64 by lia.
  set (P := 2 ^ (Z.of_nat i + 1)) in *.
  assert (HP : 0 < P) by (apply Z.pow_pos_nonneg; lia).
  set (t := cm / P). set (s := cp / P).
  assert (Et : cm = P * t + 1) by (apply mod_recompose; [lia | exact Hm]).
  assert (Es : cp = P * s + 2 ^ Z.of_nat i) by (apply mod_recompose; [lia | exact Hp]).
  replace (cm * x + cp) with (x + 2 ^ Z.of_nat i + (t * x + s) * P)
    by (rewrite Et, Es; ring).
  apply Z_mod_plus_full.
Qed.

(** *** Single bits of a word *)

Lemma land_pow2 x i :
  0 <= i -> Z.land x (2 ^ i) = if Z.testbit x i then 2 ^ i else 0.
Proof.
  intros Hi. apply Z.bits_inj'. intros n Hn.
  rewrite Z.land_spec, Z.pow2_bits_eqb by exact Hi.
  destruct (Z.eqb_spec i n) as [->|Hne].
  - destruct (Z.testbit x n); cbn [andb].
    + symmetry. apply Z.pow2_bits_true. exact Hn.
    + symmetry. apply Z.bits_0.
  - rewrite andb_false_r. destruct (Z.testbit x i).
    + symmetry. apply Z.pow2_bits_false. exact Hne.
    + symmetry. apply Z.bits_0.
Qed.

Lemma land_pow2_eqb x y i :
  0 <= i ->
  (Z.land x (2 ^ i) =? Z.land y (2 ^ i)) = Bool.eqb (Z.testbit x i) (Z.testbit y i).
Proof.
  intros Hi. rewrite !land_pow2 by exact Hi.
  assert (0 < 2 ^ i) by (apply Z.pow_pos_nonneg; lia).
  destruct (Z.testbit x i), (Z.testbit y i); cbn [Bool.eqb]; lia.
Qed.

Lemma mod_pow2_succ x i :
  0 <= i -> x mod 2 ^ (i + 1) = x mod 2 ^ i + 2 ^ i * Z.b2z (Z.testbit x i).
Proof.
  intros Hi. assert (0 < 2 ^ i) by (apply Z.pow_pos_nonneg; lia).
  rewrite Z.pow_add_r by lia. change (2 ^ 1) with 2.
  rewrite Z.rem_mul_r by lia. rewrite Z.testbit_spec' by exact Hi. reflexivity.
Qed.

Lemma testbit_mod_succ x y i :
  0 <= i -> x mod 2 ^ (i + 1) = y mod 2 ^ (i + 1) -> Z.testbit x i = Z.testbit y i.
Proof.
  intros Hi H.
  rewrite <- (Z.mod_pow2_bits_low x (i + 1) i), <- (Z.mod_pow2_bits_low y (i + 1) i) by lia.
  rewrite H. reflexivity.
Qed.

Lemma low_bits_same x y i :
  0 <= i -> x mod 2 ^ i = y mod 2 ^ i -> Z.testbit x i = Z.testbit y i ->
  y mod 2 ^ (i + 1) = x mod 2 ^ (i + 1).
Proof. intros Hi Hlow Hbit. rewrite !mod_pow2_succ, Hlow, Hbit by exact Hi. reflexivity. Qed.

Lemma low_bits_flip x y i :
  0 <= i -> x mod 2 ^ i = y mod 2 ^ i -> Z.testbit x i <> Z.testbit y i ->
  (y + 2 ^ i) mod 2 ^ (i + 1) = x mod 2 ^ (i + 1).
Proof.
  intros Hi Hlow Hbit.
  assert (HQ : 0 < 2 ^ i) by (apply Z.pow_pos_nonneg; lia).
  assert (HP : 2 ^ (i + 1) = 2 * 2 ^ i)
    by (rewrite Z.pow_add_r by lia; change (2 ^ 1) with 2; ring).
  pose proof (Z.mod_pos_bound y (2 ^ i) HQ) as Hy.
  pose proof (mod_recompose y (2 ^ (i + 1)) _ ltac:(lia) (mod_pow2_succ y i Hi)) as Ey.
  rewrite (mod_pow2_succ x i Hi), Hlow.
  set (k := y / 2 ^ (i + 1)) in *. set (r := y mod 2 ^ i) in *.
  destruct (Z.testbit x i), (Z.testbit y i); try congruence; cbn [Z.b2z] in *.
  - apply (mod_decompose _ _ k); lia.
  - apply (mod_decompose _ _ (k + 1)); lia.
Qed.

Lemma add_pow2_mod_neq x i :
  0 <= i -> (x + 2 ^ i) mod 2 ^ (i + 1) <> x mod 2 ^ (i + 1).
Proof.
  intros Hi H. apply testbit_mod_succ in H; [|exact Hi].
  rewrite Z.add_pow2_spec_top in H by exact Hi.
  destruct (Z.testbit x i); discriminate.
Qed.

Lemma pow2_to_nat (i : nat) : Z.to_nat (2 ^ Z.of_nat i) = (2 ^ i)%nat.
Proof. change 2 with (Z.of_nat 2). rewrite <- Nat2Z.inj_pow. apply Nat2Z.id. Qed.

Lemma iter_ext {A} (f g : A -> A) n x :
  (forall y, f y = g y) -> Nat.iter n f x = Nat.iter n g x.
Proof.
  intros H. induction n as [|n IH]; [reflexivity|].
  rewrite !Nat.iter_succ, IH. apply H.
Qed.

Lemma iter_double {A} (f g : A -> A) n x :
  (forall y, g y = f (f y)) -> Nat.iter (2 * n) f x = Nat.iter n g x.
Proof.
  intros H. induction n as [|n IH]; [reflexivity|].
  replace (2 * S n)%nat with (S (S (2 * n))) by lia.
  rewrite !Nat.iter_succ, IH. symmetry. apply H.
Qed.

(** *** [Advance] is the closed-form jump *)

Lemma Advance_loop_spec c fuel :
  forall cm cp am ap delta n j,
    agrees c cm cp n -> agrees c am ap j ->
    0 <= delta < 2 ^ Z.of_nat fuel ->
    exists am' ap',
      Advance_loop fuel cm cp am ap delta = Some (am', ap')
      /\ agrees c am' ap' (j + n * Z.to_nat delta).
Proof.
  induction fuel as [|fuel IH]; intros cm cp am ap delta n j Hcur Hacc Hd;
    cbn [Advance_loop]; destruct (Z.gtb_spec delta 0) as [Hpos|Hz].
  - change (2 ^ Z.of_nat 0) with 1 in Hd. lia.
  - exists am, ap. split; [reflexivity|].
    replace delta with 0 by lia. replace (j + n * Z.to_nat 0)%nat with j by lia. exact Hacc.
  - assert (Hhalf : 0 <= delta / 2 < 2 ^ Z.of_nat fuel).
    { rewrite Nat2Z.inj_succ, Z.pow_succ_r in Hd by lia.
      split; [apply Z.div_pos; lia | apply Z.div_lt_upper_bound; lia]. }
    change 1 with (Z.ones 1). rewrite Z.land_ones by lia. change (2 ^ 1) with 2.
    pose proof (Z.div_mod delta 2 ltac:(lia)) as Hdm.
    pose proof (Z.mod_pos_bound delta 2 ltac:(lia)) as Hm.
    destruct (Z.eqb_spec (delta mod 2) 0) as [Heven|Hodd]; cbn [negb].
    + destruct (IH _ _ am ap (delta / 2) _ _ (agrees_square _ _ _ _ Hcur) Hacc Hhalf)
        as (am' & ap' & Hrun & Hag).
      exists am', ap'. split; [exact Hrun|].
      replace (j + n * Z.to_nat delta)%nat with (j + (n + n) * Z.to_nat (delta / 2))%nat;
        [exact Hag|].
      replace (Z.to_nat delta) with (2 * Z.to_nat (delta / 2))%nat by lia. lia.
    + destruct (IH _ _ _ _ (delta / 2) _ _ (agrees_square _ _ _ _ Hcur)
                   (agrees_compose _ _ _ _ _ _ _ Hacc Hcur) Hhalf)
        as (am' & ap' & Hrun & Hag).
      exists am', ap'. split; [exact Hrun|].
      replace (j + n * Z.to_nat delta)%nat with (n + j + (n + n) * Z.to_nat (delta / 2))%nat;
        [exact Hag|].
      replace (Z.to_nat delta) with (2 * Z.to_nat (delta / 2) + 1)%nat by lia. lia.
  - exists am, ap. split; [reflexivity|].
    replace delta with 0 by lia. replace (j + n * Z.to_nat 0)%nat with j by lia. exact Hacc.
Qed.

(** [Advance] always finishes within its 64 iterations, keeps [inc], and
    moves the state by [(uint64_t) idelta] steps. *)
Lemma Advance_spec r idelta :
  wf r ->
  exists r',
    Advance r idelta = Some r'
    /\ inc r' = inc r
    /\ state r' = steps (Z.to_nat (u64 idelta)) (inc r) (state r).
Proof.
  intros [Hs Hi]. unfold Advance.
  destruct (Advance_loop_spec (inc r) 64 _ _ _ _ (u64 idelta) _ _
              (agrees_one (inc r)) (agrees_zero (inc r)) (u64_range idelta))
    as (am & ap & -> & Hag).
  eexists. split; [reflexivity|]. split; [reflexivity|].
  replace (0 + 1 * Z.to_nat (u64 idelta))%nat with (Z.to_nat (u64 idelta)) in Hag by lia.
  cbn [state]. rewrite <- (Hag _ Hs). reflexivity.
Qed.

(** *** [operator-] finds the distance *)

Lemma theBit_next (i : nat) :
  u64 (Z.shiftl (2 ^ Z.of_nat i) 1) = u64 (2 ^ Z.of_nat (S i)).
Proof.
  rewrite Z.shiftl_mul_pow2 by lia. change (2 ^ 1) with 2.
  rewrite Nat2Z.inj_succ, Z.pow_succ_r by lia. f_equal. ring.
Qed.

Lemma pow2_lt_64 (i : nat) : (i < 64)%nat -> 0 < 2 ^ Z.of_nat i < 2 ^ 64.
Proof.
  intros Hi. split; [apply Z.pow_pos_nonneg; lia|].
  apply Z.pow_lt_mono_r; lia.
Qed.

(** Invariant of the walk: before bit [i] is looked at, [curState] is
    [distance < 2^i] steps after [other.state] and agrees with [state] on
    the bits below [i]. *)
Lemma diff_loop_spec c a b :
  0 <= a < 2 ^ 64 -> 0 <= b < 2 ^ 64 ->
  forall fuel i cm cp cur dist,
    (i + fuel = 64)%nat ->
    level c i cm cp ->
    0 <= dist < 2 ^ Z.of_nat i ->
    cur = steps (Z.to_nat dist) c b ->
    cur mod 2 ^ Z.of_nat i = a mod 2 ^ Z.of_nat i ->
    exists d,
      diff_loop fuel a cm cp cur (u64 (2 ^ Z.of_nat i)) dist = Ok d
      /\ 0 <= d < 2 ^ 64
      /\ steps (Z.to_nat d) c b = a.
Proof.
  intros Ha Hb fuel.
  induction fuel as [|fuel IH]; intros i cm cp cur dist Hfuel Hlev Hdist Hcur Hlow;
    cbn [diff_loop]; destruct (Z.eqb_spec a cur) as [Heq|Hne].
  - exists dist. split; [reflexivity|]. split; [|congruence].
    replace i with 64%nat in Hdist by lia. exact Hdist.
  - exfalso. apply Hne. replace i with 64%nat in Hlow by lia.
    change (2 ^ Z.of_nat 64) with (2 ^ 64) in Hlow.
    assert (Hc : 0 <= cur < 2 ^ 64) by (subst cur; apply steps_range, Hb).
    rewrite !Z.mod_small in Hlow by assumption. congruence.
  - exists dist. split; [reflexivity|]. split; [|congruence].
    assert (2 ^ Z.of_nat i <= 2 ^ 64) by (apply Z.pow_le_mono_r; lia). lia.
  - assert (Hi : (i < 64)%nat) by lia.
    pose proof (pow2_lt_64 i Hi) as HQ.
    assert (Hc : 0 <= cur < 2 ^ 64) by (subst cur; apply steps_range, Hb).
    rewrite (u64_small (2 ^ Z.of_nat i)) by lia.
    rewrite theBit_next.
    rewrite land_pow2_eqb by lia.
    destruct (Bool.eqb (Z.testbit a (Z.of_nat i)) (Z.testbit cur (Z.of_nat i))) eqn:Hbit;
      cbn [negb].
    + (* bit [i] already agrees *)
      rewrite land_pow2_eqb, Hbit by lia. cbn [negb].
      apply Bool.eqb_prop in Hbit.
      apply (IH (S i)); [lia | apply level_S, Hlev | | exact Hcur | ].
      * rewrite Nat2Z.inj_succ, Z.pow_succ_r by lia. lia.
      * rewrite Nat2Z.inj_succ, <- Z.add_1_r.
        apply low_bits_same; [lia | congruence | exact Hbit].
    + (* bit [i] differs: take 2^i more steps *)
      apply Bool.eqb_false_iff in Hbit.
      fold (app cm cp cur). replace (cur * cm + cp) with (cm * cur + cp) by ring.
      fold (app cm cp cur).
      assert (Hnew : app cm cp cur mod 2 ^ (Z.of_nat i + 1) = a mod 2 ^ (Z.of_nat i + 1)).
      { rewrite (level_flip c i cm cp cur Hlev Hi).
        apply low_bits_flip; [lia | congruence | exact Hbit]. }
      rewrite land_pow2_eqb by lia.
      rewrite <- (testbit_mod_succ _ _ (Z.of_nat i) (Nat2Z.is_nonneg i) Hnew), Bool.eqb_reflx.
      cbn [negb].
      assert (Hlor : Z.lor dist (2 ^ Z.of_nat i) = dist + 2 ^ Z.of_nat i).
      { symmetry. apply Z.add_nocarry_lor. rewrite land_pow2 by lia.
        replace (Z.testbit dist (Z.of_nat i)) with false; [reflexivity|].
        symmetry. destruct (Z.eq_dec dist 0) as [->|Hnz]; [apply Z.bits_0|].
        apply Z.bits_above_log2; [lia|]. apply Z.log2_lt_pow2; lia. }
      rewrite Hlor.
      apply (IH (S i)); [lia | apply level_S, Hlev | | | ].
      * rewrite Nat2Z.inj_succ, Z.pow_succ_r by lia. lia.
      * rewrite (level_agrees _ _ _ _ Hlev cur Hc), Hcur, <- steps_add.
        f_equal. rewrite Z2Nat.inj_add, pow2_to_nat by lia. lia.
      * rewrite Nat2Z.inj_succ, <- Z.add_1_r. exact Hnew.
Qed.

(** The generator has no cycle shorter than [2^64]: a map of the ladder at
    level [i], applied fewer than [2^(64-i)] times, has no fixed point. *)
Lemma no_short_cycle c fuel :
  forall i cm cp q x,
    (i + fuel = 64)%nat -> level c i cm cp -> (q < 2 ^ fuel)%nat ->
    Nat.iter q (app cm cp) x = x -> q = 0%nat.
Proof.
  induction fuel as [|fuel IH]; intros i cm cp q x Hfuel Hlev Hq Hfix.
  - cbn in Hq. lia.
  - assert (Hi : (i < 64)%nat) by lia.
    assert (Hkeep : forall n y,
      Nat.iter n (app (u64 (cm * cm)) (u64 ((cm + 1) * cp))) y mod 2 ^ (Z.of_nat i + 1)
      = y mod 2 ^ (Z.of_nat i + 1)).
    { intros n y. induction n as [|n IHn]; [reflexivity|].
      rewrite Nat.iter_succ, app_square.
      rewrite (level_flip c i cm cp _ Hlev Hi), Zplus_mod, (level_flip c i cm cp _ Hlev Hi).
      rewrite <- Zplus_mod.
      replace (Nat.iter n (app (u64 (cm * cm)) (u64 ((cm + 1) * cp))) y
               + 2 ^ Z.of_nat i + 2 ^ Z.of_nat i)
        with (Nat.iter n (app (u64 (cm * cm)) (u64 ((cm + 1) * cp))) y
              + 1 * 2 ^ (Z.of_nat i + 1))
        by (rewrite Z.pow_add_r by lia; change (2 ^ 1) with 2; ring).
      rewrite Z_mod_plus_full. exact IHn. }
    destruct (Nat.Even_or_Odd q) as [[q' ->]|[q' ->]].
    + rewrite (iter_double _ _ _ _ (app_square cm cp)) in Hfix.
      rewrite (IH (S i) _ _ q' x ltac:(lia) (level_S _ _ _ _ Hlev)); [lia| |exact Hfix].
      cbn [Nat.pow] in Hq. lia.
    + exfalso. replace (2 * q' + 1)%nat with (S (2 * q')) in Hfix by lia.
      rewrite Nat.iter_succ_r, (iter_double _ _ _ _ (app_square cm cp)) in Hfix.
      apply (add_pow2_mod_neq x (Z.of_nat i) ltac:(lia)).
      rewrite <- (level_flip c i cm cp x Hlev Hi), <- (Hkeep q' (app cm cp x)), Hfix.
      reflexivity.
Qed.

(** Two different step counts below [2^64] lead to different states. *)
Lemma steps_inj c x n1 n2 :
  Z.odd c = true -> (n1 <= n2)%nat -> (n2 < 2 ^ 64)%nat ->
  steps n1 c x = steps n2 c x -> n1 = n2.
Proof.
  intros Hodd Hle Hlt Heq.
  replace n2 with ((n2 - n1) + n1)%nat in Heq by lia. rewrite steps_add in Heq.
  assert (Hz : (n2 - n1 = 0)%nat); [|lia].
  apply (no_short_cycle c 64 0 PCG32_MULT c _ (steps n1 c x));
    [reflexivity | apply level_0, Hodd | lia |].
  rewrite (iter_ext _ (step c)) by (intros; symmetry; apply step_app).
  symmetry. exact Heq.
Qed.

(** Total correctness of [operator-] on one stream: it never trips its
    [CHECK]s, finishes within 64 iterations, and the distance it finds
    leads from [other] to [a]. *)
Lemma diff_spec a b :
  wf a -> wf b -> inc a = inc b -> Z.odd (inc a) = true ->
  exists d,
    diff a b = Ok (to_int64 d) /\ 0 <= d < 2 ^ 64
    /\ steps (Z.to_nat d) (inc a) (state b) = state a.
Proof.
  intros [Ha _] [Hb _] Hinc Hodd. unfold diff.
  rewrite Hinc, Z.eqb_refl. cbn [negb]. rewrite <- Hinc.
  destruct (diff_loop_spec (inc a) (state a) (state b) Ha Hb 64 0 PCG32_MULT (inc a)
              (state b) 0 eq_refl (level_0 _ Hodd) ltac:(cbn; lia) eq_refl
              ltac:(cbn; rewrite !Z.mod_1_r; reflexivity))
    as (d & Hrun & Hd & Hsteps).
  change (u64 (2 ^ Z.of_nat 0)) with 1 in Hrun. rewrite Hrun.
  exists d. auto.
Qed.

(** If [a] is [k < 2^64] steps after [b], then [a - b] is [(int64_t) k]. *)
Lemma diff_steps a b k :
  wf a -> wf b -> inc a = inc b -> Z.odd (inc a) = true ->
  0 <= k < 2 ^ 64 -> state a = steps (Z.to_nat k) (inc b) (state b) ->
  diff a b = Ok (to_int64 k).
Proof.
  intros Ha Hb Hinc Hodd Hk Hsteps.
  destruct (diff_spec a b Ha Hb Hinc Hodd) as (d & -> & Hd & Hd').
  do 2 f_equal. rewrite <- Hinc, <- Hd' in Hsteps.
  assert (Hpow : Z.of_nat (2 ^ 64) = 2 ^ 64).
  { rewrite Nat2Z.inj_pow. reflexivity. }
  apply Z2Nat.inj; try lia.
  destruct (Nat.le_ge_cases (Z.to_nat d) (Z.to_nat k)) as [Hle|Hle].
  - apply (steps_inj (inc a) (state b)); [exact Hodd | exact Hle | lia | exact Hsteps].
  - symmetry. apply (steps_inj (inc a) (state b)); [exact Hodd | exact Hle | lia | ].
    symmetry. exact Hsteps.
Qed.

(** *** The advance / difference law *)

(** C2, for distances that fit the result type.  On one stream (equal, odd
    [inc]): if [b] trails [a] by [k0] steps, then after [a.Advance(k)] with
    [0 <= k] the difference [a - b] is exactly [k0 + k], provided [k0 + k]
    fits the signed 64-bit result type.  With [k0 = 0] ([b] a copy of [a])
    the difference is [k].  [Advance] always finishes and [operator-] trips
    none of its checks. *)
Theorem advance_then_diff (a b : RNG) (k0 k : Z) :
  wf a -> wf b -> inc a = inc b -> Z.odd (inc a) = true ->
  0 <= k0 -> 0 <= k -> k0 + k < 2 ^ 63 ->
  state a = steps (Z.to_nat k0) (inc b) (state b) ->
  exists a', Advance a k = Some a' /\ diff a' b = Ok (k0 + k).
Proof.
  intros Ha Hb Hinc Hodd Hk0 Hk Hsum Htrail.
  destruct (Advance_spec a k Ha) as (a' & Hadv & Hinc' & Hst).
  exists a'. split; [exact Hadv|].
  assert (Hwf : wf a').
  { split; [rewrite Hst; apply steps_range, Ha | rewrite Hinc'; apply Ha]. }
  rewrite (diff_steps a' b (k0 + k) Hwf Hb); try congruence; try lia.
  - unfold to_int64. destruct (Z.ltb_spec (k0 + k) (2 ^ 63)); [reflexivity | lia].
  - rewrite Hst, Htrail, Hinc, <- steps_add. f_equal.
    rewrite u64_small by lia. lia.
Qed.

Lemma advance_then_diff_witness :
  exists a', Advance RNG_default 5 = Some a' /\ diff a' RNG_default = Ok (0 + 5).
Proof.
  apply (advance_then_diff RNG_default RNG_default 0 5).
  - unfold wf, RNG_default, PCG32_DEFAULT_STATE, PCG32_DEFAULT_STREAM; simpl; lia.
  - unfold wf, RNG_default, PCG32_DEFAULT_STATE, PCG32_DEFAULT_STREAM; simpl; lia.
  - reflexivity.
  - reflexivity.
  - lia.
  - lia.
  - lia.
  - reflexivity.
Defined.

(** The same law in wrapped form, without the bound on [k0 + k]: the
    result is [k0 + k] reduced to the signed 64-bit range. *)
Lemma advance_then_diff_wrapped (a b : RNG) (k0 k : Z) :
  wf a -> wf b -> inc a = inc b -> Z.odd (inc a) = true ->
  0 <= k0 -> 0 <= k -> k0 + k < 2 ^ 64 ->
  state a = steps (Z.to_nat k0) (inc b) (state b) ->
  exists a', Advance a k = Some a' /\ diff a' b = Ok (to_int64 (k0 + k)).
Proof.
  intros Ha Hb Hinc Hodd Hk0 Hk Hsum Htrail.
  destruct (Advance_spec a k Ha) as (a' & Hadv & Hinc' & Hst).
  exists a'. split; [exact Hadv|].
  assert (Hwf : wf a').
  { split; [rewrite Hst; apply steps_range, Ha | rewrite Hinc'; apply Ha]. }
  apply (diff_steps a' b (k0 + k) Hwf Hb); try congruence; try lia.
  rewrite Hst, Htrail, Hinc, <- steps_add. f_equal.
  rewrite u64_small by lia. lia.
Qed.

(** C2, the counterexample to the unbounded reading: [b] trails [a] by
    [k0 = 2^63 - 1] steps ([a - b] says so); after [a.Advance(1)] the
    difference is [-2^63], not [k0 + 1 = 2^63]. *)
Lemma advance_then_diff_overflow :
  exists a a',
    Advance RNG_default (2 ^ 63 - 1) = Some a
    /\ diff a RNG_default = Ok (2 ^ 63 - 1)
    /\ Advance a 1 = Some a'
    /\ diff a' RNG_default = Ok (- 2 ^ 63)
    /\ diff a' RNG_default <> Ok ((2 ^ 63 - 1) + 1).
Proof.
  eexists. eexists.
  split; [vm_compute; reflexivity|].
  split; [vm_compute; reflexivity|].
  split; [vm_compute; reflexivity|].
  split; [vm_compute; reflexivity|].
  vm_compute. discriminate.
Qed.

(** *** The stream selector stays odd *)

Lemma wf_step r : wf r -> wf (snd (Uniform_u32 r)).
Proof. intros [_ Hi]. split; [apply u64_range | exact Hi]. Qed.

Lemma inc_Uniform_u32 r : inc (snd (Uniform_u32 r)) = inc r.
Proof. reflexivity. Qed.

Lemma inc_Uniform_u64 r : inc (snd (Uniform_u64 r)) = inc r.
Proof. reflexivity. Qed.

Lemma inc_Advance r idelta r' : Advance r idelta = Some r' -> inc r' = inc r.
Proof.
  unfold Advance. destruct (Advance_loop _ _ _ _ _ _) as [[am ap]|]; [|discriminate].
  intros [= <-]. reflexivity.
Qed.

Lemma inc_Uniform_bounded_loop draw :
  (forall r, inc (snd (draw r)) = inc r) ->
  forall fuel r t b v r',
    Uniform_bounded_loop draw fuel r t b = Some (v, r') -> inc r' = inc r.
Proof.
  intros Hdraw fuel. induction fuel as [|fuel IH]; intros r t b v r'; cbn [Uniform_bounded_loop].
  - discriminate.
  - specialize (Hdraw r). destruct (draw r) as [x r1]. cbn [snd] in Hdraw.
    destruct (x >=? t).
    + intros [= _ <-]. exact Hdraw.
    + intros H. rewrite (IH _ _ _ _ _ H). exact Hdraw.
Qed.

Lemma inc_SetSequence sequenceIndex seed :
  inc (SetSequence sequenceIndex seed) = Z.lor (u64 (Z.shiftl sequenceIndex 1)) 1.
Proof. reflexivity. Qed.

Lemma odd_lor_1 x : Z.odd (Z.lor x 1) = true.
Proof. rewrite <- Z.bit0_odd, Z.lor_spec. apply orb_true_r. Qed.

Lemma reachable_inc_odd r : reachable r -> Z.odd (inc r) = true.
Proof.
  induction 1 as [ | idx seed | r _ IH | r _ IH | r k r' _ IH Hadv
                 | r fuel b v r' _ IH Hu | r fuel b v r' _ IH Hu ].
  - reflexivity.
  - rewrite inc_SetSequence. apply odd_lor_1.
  - exact IH.
  - exact IH.
  - rewrite (inc_Advance _ _ _ Hadv). exact IH.
  - rewrite (inc_Uniform_bounded_loop _ inc_Uniform_u32 _ _ _ _ _ _ Hu). exact IH.
  - rewrite (inc_Uniform_bounded_loop _ inc_Uniform_u64 _ _ _ _ _ _ Hu). exact IH.
Qed.

(** C8.  [inc] is always odd: it is odd after default construction and
    after every [SetSequence] (which sets [(sequenceIndex << 1) | 1]);
    [Advance] and every [Uniform] draw, plain or bounded, leave it
    unchanged ([operator-] is [const]); hence it is odd in every generator
    a program can reach. *)
Theorem inc_always_odd :
  Z.odd (inc RNG_default) = true
  /\ (forall sequenceIndex seed,
        inc (SetSequence sequenceIndex seed) = Z.lor (u64 (Z.shiftl sequenceIndex 1)) 1
        /\ Z.odd (inc (SetSequence sequenceIndex seed)) = true)
  /\ (forall r idelta r', Advance r idelta = Some r' -> inc r' = inc r)
  /\ (forall r, inc (snd (Uniform_u32 r)) = inc r /\ inc (snd (Uniform_u64 r)) = inc r)
  /\ (forall r fuel b v r',
        Uniform_b_u32 fuel r b = Some (v, r') \/ Uniform_b_u64 fuel r b = Some (v, r') ->
        inc r' = inc r)
  /\ (forall r, reachable r -> Z.odd (inc r) = true).
Proof.
  split; [reflexivity|].
  split; [intros idx seed; split; [apply inc_SetSequence | apply odd_lor_1]|].
  split; [exact inc_Advance|].
  split; [intros r; split; reflexivity|].
  split; [|exact reachable_inc_odd].
  intros r fuel b v r' [Hu|Hu].
  - exact (inc_Uniform_bounded_loop _ inc_Uniform_u32 _ _ _ _ _ _ Hu).
  - exact (inc_Uniform_bounded_loop _ inc_Uniform_u64 _ _ _ _ _ _ Hu).
Qed.

Lemma inc_always_odd_witness :
  Z.odd (inc (snd (Uniform_u64 (SetSequence 1234 42)))) = true.
Proof.
  apply inc_always_odd.
  apply reach_Uniform_u64. apply reach_SetSequence.
Defined.

(** Reachable generators hold 64-bit words. *)
Lemma reachable_wf r : reachable r -> wf r.
Proof.
  induction 1 as [ | idx seed | r _ IH | r _ IH | r k r' _ IH Hadv
                 | r fuel b v r' _ IH Hu | r fuel b v r' _ IH Hu ].
  - unfold wf, RNG_default, PCG32_DEFAULT_STATE, PCG32_DEFAULT_STREAM; simpl; lia.
  - split; [apply u64_range|]. rewrite inc_SetSequence.
    pose proof (u64_range (Z.shiftl idx 1)) as Hr.
    split.
    + apply Z.lor_nonneg. lia.
    + destruct (Z.eq_dec (Z.lor (u64 (Z.shiftl idx 1)) 1) 0) as [->|Hnz]; [lia|].
      apply Z.log2_lt_pow2; [pose proof (Z.lor_nonneg (u64 (Z.shiftl idx 1)) 1); lia|].
      rewrite Z.log2_lor by lia.
      apply Z.max_lub_lt; [|cbn; lia].
      destruct (Z.eq_dec (u64 (Z.shiftl idx 1)) 0) as [->|Hnz']; [cbn; lia|].
      apply Z.log2_lt_pow2; lia.
  - apply wf_step, IH.
  - apply wf_step, wf_step, IH.
  - destruct (Advance_spec r k IH) as (r2 & Hadv2 & Hinc & Hst).
    assert (r2 = r') by congruence. subst r2.
    split; [rewrite Hst; apply steps_range, IH | rewrite Hinc; apply IH].
  - revert r IH Hu. unfold Uniform_b_u32, Uniform_bounded. generalize (threshold 32 b).
    induction fuel as [|fuel IHf]; intros t r Hr; cbn [Uniform_bounded_loop]; [discriminate|].
    destruct (Uniform_u32 r) as [x r1] eqn:E.
    assert (Hr1 : wf r1) by (replace r1 with (snd (Uniform_u32 r)) by (rewrite E; reflexivity);
                             apply wf_step, Hr).
    destruct (x >=? t); [intros [= _ <-]; exact Hr1 | apply IHf, Hr1].
  - revert r IH Hu. unfold Uniform_b_u64, Uniform_bounded. generalize (threshold 64 b).
    induction fuel as [|fuel IHf]; intros t r Hr; cbn [Uniform_bounded_loop]; [discriminate|].
    destruct (Uniform_u64 r) as [x r1] eqn:E.
    assert (Hr1 : wf r1) by (replace r1 with (snd (Uniform_u64 r)) by (rewrite E; reflexivity);
                             apply wf_step, wf_step, Hr).
    destruct (x >=? t); [intros [= _ <-]; exact Hr1 | apply IHf, Hr1].
Qed.

(** *** Sequence indices that differ in bit 63 *)

Lemma shift_top_bit_lost i : u64 (Z.shiftl (i + 2 ^ 63) 1) = u64 (Z.shiftl i 1).
Proof.
  rewrite !Z.shiftl_mul_pow2 by lia. change (2 ^ 1) with 2. unfold u64.
  replace ((i + 2 ^ 63) * 2) with (i * 2 + 1 * 2 ^ 64) by (change (2 ^ 64) with (2 ^ 63 * 2); ring).
  apply Z_mod_plus_full.
Qed.

(** C10.  [RNG(i, s)] and [RNG(i + 2^63, s)] are the same generator:
    [SetSequence] shifts bit 63 of the index out, and the state depends on
    the index only through [inc].  Hence every later draw and jump agrees. *)
Theorem sequence_index_bit63_aliases (i s : Z) :
  RNG_ctor (i + 2 ^ 63) s = RNG_ctor i s
  /\ (forall n, draws n (RNG_ctor (i + 2 ^ 63) s) = draws n (RNG_ctor i s))
  /\ (forall k, Advance (RNG_ctor (i + 2 ^ 63) s) k = Advance (RNG_ctor i s) k)
  /\ Uniform_u64 (RNG_ctor (i + 2 ^ 63) s) = Uniform_u64 (RNG_ctor i s).
Proof.
  assert (E : RNG_ctor (i + 2 ^ 63) s = RNG_ctor i s).
  { unfold RNG_ctor, SetSequence. rewrite shift_top_bit_lost. reflexivity. }
  rewrite E. repeat split.
Qed.

(** *** Bounded draws *)

Lemma threshold_eq W b : 0 <= W -> 0 < b < 2 ^ W -> threshold W b = (2 ^ W - b) mod b.
Proof.
  intros HW Hb. unfold threshold. f_equal.
  rewrite Z.lnot_eq_pred_opp.
  apply (mod_decompose _ _ (-1)); lia.
Qed.

Lemma threshold_bounds W b :
  0 <= W -> 0 < b < 2 ^ W ->
  0 <= threshold W b < b /\ 2 * threshold W b < 2 ^ W
  /\ 2 ^ W = b * (2 ^ W / b) + threshold W b.
Proof.
  intros HW Hb. rewrite threshold_eq by assumption.
  pose proof (Z.mod_pos_bound (2 ^ W - b) b ltac:(lia)) as H1.
  pose proof (Z.mod_le (2 ^ W - b) b ltac:(lia) ltac:(lia)) as H2.
  assert (E : (2 ^ W - b) mod b = 2 ^ W mod b).
  { replace (2 ^ W - b) with (2 ^ W + (-1) * b) by ring. apply Z_mod_plus_full. }
  repeat split; try lia. rewrite E. apply Z.div_mod. lia.
Qed.

Lemma nth_gen_S draw n r : nth_gen draw (S n) r = nth_gen draw n (snd (draw r)).
Proof. unfold nth_gen. apply Nat.iter_succ_r. Qed.

(** The loop returns exactly when some draw is accepted, and then it
    returns the first accepted draw reduced modulo [b]. *)
Lemma Uniform_bounded_loop_result draw t b fuel :
  forall r v r',
    Uniform_bounded_loop draw fuel r t b = Some (v, r') ->
    exists n raw,
      (n < fuel)%nat
      /\ (forall j, (j < n)%nat -> fst (draw (nth_gen draw j r)) < t)
      /\ draw (nth_gen draw n r) = (raw, r')
      /\ t <= raw /\ v = raw mod b.
Proof.
  induction fuel as [|fuel IH]; intros r v r'; cbn [Uniform_bounded_loop]; [discriminate|].
  destruct (draw r) as [x r1] eqn:E. destruct (Z.geb_spec x t) as [Hge|Hlt].
  - intros [= <- <-]. exists 0%nat, x. repeat split; try lia. exact E.
  - intros H. destruct (IH _ _ _ H) as (n & raw & Hn & Hrej & Hacc & Hraw & Hv).
    exists (S n), raw.
    assert (Er : r1 = snd (draw r)) by (rewrite E; reflexivity).
    repeat split; try lia.
    + intros [|j] Hj; [cbn; rewrite E; exact Hlt|].
      rewrite nth_gen_S, <- Er. apply Hrej. lia.
    + rewrite nth_gen_S, <- Er. exact Hacc.
Qed.

Lemma Uniform_bounded_loop_terminates draw t b n :
  forall r,
    t <= fst (draw (nth_gen draw n r)) ->
    exists v r', Uniform_bounded_loop draw (S n) r t b = Some (v, r').
Proof.
  induction n as [|n IH]; intros r Hacc.
  - cbn in Hacc. cbn [Uniform_bounded_loop]. destruct (draw r) as [x r1].
    cbn [fst] in Hacc. destruct (Z.geb_spec x t); [eauto | lia].
  - rewrite nth_gen_S in Hacc.
    change (Uniform_bounded_loop draw (S (S n)) r t b)
      with (let '(v, r') := draw r in
            if v >=? t then Some (v mod b, r')
            else Uniform_bounded_loop draw (S n) r' t b).
    destruct (draw r) as [x r1]. cbn [snd] in Hacc.
    destruct (x >=? t); [eauto | apply IH, Hacc].
Qed.

(** Counting residues in an interval. *)
Lemma count_from_app P n m : forall lo,
  count_from P lo (n + m) = (count_from P lo n + count_from P (lo + Z.of_nat n) m)%nat.
Proof.
  induction n as [|n IH]; intros lo.
  - cbn. f_equal. lia.
  - cbn [Nat.add count_from]. rewrite IH. replace (lo + 1 + Z.of_nat n) with (lo + Z.of_nat (S n)) by lia.
    lia.
Qed.

Lemma count_from_ext P Q n : forall lo,
  (forall x, lo <= x < lo + Z.of_nat n -> P x = Q x) ->
  count_from P lo n = count_from Q lo n.
Proof.
  induction n as [|n IH]; intros lo H; [reflexivity|].
  cbn [count_from]. rewrite (H lo) by lia. f_equal. apply IH. intros x Hx. apply H. lia.
Qed.

Lemma count_from_none n : forall lo, count_from (fun _ => false) lo n = 0%nat.
Proof. induction n as [|n IH]; intros lo; [reflexivity|]. cbn [count_from]. rewrite IH. reflexivity. Qed.

Lemma mod_eq_close b x y : 0 < b -> x mod b = y mod b -> - b < x - y < b -> x = y.
Proof.
  intros Hb Hmod Hclose.
  pose proof (Z.div_mod x b ltac:(lia)) as Ex. pose proof (Z.div_mod y b ltac:(lia)) as Ey.
  rewrite Hmod in Ex. assert (x / b = y / b) by nia. nia.
Qed.

(** Every window of [b] consecutive integers holds one of each residue. *)
Lemma count_residue_block b v lo :
  0 <= v < b -> count_from (fun x => x mod b =? v) lo (Z.to_nat b) = 1%nat.
Proof.
  intros Hv. set (d := (v - lo) mod b).
  assert (Hd : 0 <= d < b) by (apply Z.mod_pos_bound; lia).
  assert (Hr0 : (lo + d) mod b = v).
  { unfold d. rewrite Zplus_mod_idemp_r. replace (lo + (v - lo)) with v by ring.
    apply Z.mod_small, Hv. }
  replace (Z.to_nat b) with (Z.to_nat d + (1 + Z.to_nat (b - d - 1)))%nat by lia.
  rewrite !count_from_app.
  rewrite (count_from_ext _ (fun _ => false)), count_from_none.
  2:{ intros x Hx. apply Z.eqb_neq. intros Hxv.
      assert (x = lo + d) by (apply (mod_eq_close b); lia). lia. }
  rewrite (count_from_ext _ (fun _ => false) (Z.to_nat (b - d - 1))), count_from_none.
  2:{ intros x Hx. apply Z.eqb_neq. intros Hxv.
      assert (x = lo + d) by (apply (mod_eq_close b); lia). lia. }
  cbn [count_from]. replace (lo + Z.of_nat (Z.to_nat d)) with (lo + d) by lia.
  rewrite Hr0, Z.eqb_refl. reflexivity.
Qed.

Lemma count_residue_blocks b v N : forall lo,
  0 <= v < b -> count_from (fun x => x mod b =? v) lo (N * Z.to_nat b) = N.
Proof.
  induction N as [|N IH]; intros lo Hv; [reflexivity|].
  cbn [Nat.mul]. rewrite count_from_app, count_residue_block, IH by exact Hv. reflexivity.
Qed.

(** Each value of [[0, b)] has the same number of accepted raw preimages. *)
Lemma accepted_preimages_uniform W b v :
  0 <= W -> 0 < b < 2 ^ W -> 0 <= v < b ->
  accepted_preimages W b v = Z.to_nat (2 ^ W / b).
Proof.
  intros HW Hb Hv. unfold accepted_preimages.
  destruct (threshold_bounds W b HW Hb) as (Ht & _ & Esplit).
  set (t := threshold W b) in *.
  assert (HN : 0 <= 2 ^ W / b) by (apply Z.div_pos; lia).
  replace (Z.to_nat (2 ^ W)) with (Z.to_nat t + Z.to_nat (2 ^ W / b) * Z.to_nat b)%nat.
  2:{ rewrite Esplit at 2. rewrite Z2Nat.inj_add, Z2Nat.inj_mul by nia. lia. }
  rewrite count_from_app.
  rewrite (count_from_ext _ (fun _ => false)), count_from_none.
  2:{ intros x Hx. destruct (Z.geb_spec x t); [lia | reflexivity]. }
  rewrite (count_from_ext _ (fun x => x mod b =? v)).
  2:{ intros x Hx. destruct (Z.geb_spec x t); [reflexivity | lia]. }
  rewrite count_residue_blocks by exact Hv. reflexivity.
Qed.

Example accepted_preimages_4bit :
  map (accepted_preimages 4 3) [0; 1; 2] = [5; 5; 5]%nat
  /\ map (accepted_preimages 4 5) [0; 1; 2; 3; 4] = [3; 3; 3; 3; 3]%nat.
Proof. split; vm_compute; reflexivity. Qed.

(** *** Every bounded draw returns *)

Lemma lor_ge_l x y : 0 <= y -> x <= Z.lor x y.
Proof.
  intros Hy.
  assert (E1 : Z.lor x y = Z.lor x (Z.ldiff y x)).
  { apply Z.bits_inj'. intros n Hn. rewrite !Z.lor_spec, Z.ldiff_spec.
    destruct (Z.testbit x n), (Z.testbit y n); reflexivity. }
  assert (E2 : Z.land x (Z.ldiff y x) = 0).
  { apply Z.bits_inj'. intros n Hn. rewrite Z.land_spec, Z.ldiff_spec, Z.bits_0.
    destruct (Z.testbit x n), (Z.testbit y n); reflexivity. }
  rewrite E1, <- (Z.add_nocarry_lor _ _ E2).
  assert (0 <= Z.ldiff y x) by (apply Z.ldiff_nonneg; left; exact Hy). lia.
Qed.

Lemma output_nonneg s : 0 <= output s.
Proof.
  unfold output. apply Z.lor_nonneg. split.
  - apply Z.shiftr_nonneg. unfold u32. apply Z.mod_pos_bound. lia.
  - unfold u32. apply Z.mod_pos_bound. lia.
Qed.

Lemma step_parity c x : Z.odd c = true -> step c x mod 2 = (x + 1) mod 2.
Proof.
  intros Hodd. rewrite step_app.
  exact (level_flip c 0 PCG32_MULT c x (level_0 c Hodd) ltac:(lia)).
Qed.

Lemma steps_parity c n x : Z.odd c = true -> steps n c x mod 2 = (x + Z.of_nat n) mod 2.
Proof.
  intros Hodd. induction n as [|n IH].
  - change (steps 0 c x) with x. f_equal. change (Z.of_nat 0) with 0. lia.
  - unfold steps in *. rewrite Nat.iter_succ, step_parity by exact Hodd.
    rewrite Zplus_mod, IH, <- Zplus_mod. f_equal. lia.
Qed.

Lemma nth_gen_u32 n r :
  nth_gen Uniform_u32 n r = mkRNG (steps n (inc r) (state r)) (inc r).
Proof.
  induction n as [|n IH].
  - destruct r. reflexivity.
  - unfold nth_gen, steps in *. rewrite !Nat.iter_succ, IH. reflexivity.
Qed.

Lemma nth_gen_u64 n r :
  nth_gen Uniform_u64 n r = mkRNG (steps (2 * n) (inc r) (state r)) (inc r).
Proof.
  induction n as [|n IH].
  - destruct r. reflexivity.
  - replace (2 * S n)%nat with (S (S (2 * n))) by lia.
    unfold nth_gen, steps in *. rewrite !Nat.iter_succ, IH. reflexivity.
Qed.

(** On a stream with odd [inc] every state is reached from every other. *)
Lemma steps_reach c x y :
  Z.odd c = true -> 0 <= c < 2 ^ 64 -> 0 <= x < 2 ^ 64 -> 0 <= y < 2 ^ 64 ->
  exists n, steps n c x = y.
Proof.
  intros Hodd Hc Hx Hy.
  destruct (diff_spec (mkRNG y c) (mkRNG x c)) as (d & _ & _ & Hd);
    try (split; assumption); try reflexivity; try exact Hodd.
  exists (Z.to_nat d). exact Hd.
Qed.

Lemma Uniform_b_u32_terminates r b :
  wf r -> Z.odd (inc r) = true -> 0 < b < 2 ^ 32 ->
  exists fuel v r', Uniform_b_u32 fuel r b = Some (v, r').
Proof.
  intros [Hs Hi] Hodd Hb.
  destruct (threshold_bounds 32 b ltac:(lia) Hb) as (_ & Ht & _).
  destruct (steps_reach (inc r) (state r) (2 ^ 64 - 1) Hodd Hi Hs ltac:(lia)) as (n & Hn).
  exists (S n). apply Uniform_bounded_loop_terminates.
  rewrite nth_gen_u32. cbn [Uniform_u32 fst state]. rewrite Hn.
  assert (E : output (2 ^ 64 - 1) = 0xFFF00001) by (vm_compute; reflexivity).
  rewrite E. lia.
Qed.

Lemma Uniform_b_u64_terminates r b :
  wf r -> Z.odd (inc r) = true -> 0 < b < 2 ^ 64 ->
  exists fuel v r', Uniform_b_u64 fuel r b = Some (v, r').
Proof.
  intros [Hs Hi] Hodd Hb.
  destruct (threshold_bounds 64 b ltac:(lia) Hb) as (_ & Ht & _).
  (* a state of the parity of [state r] whose output has its top bit set *)
  set (y := 2 ^ 64 - 2 + state r mod 2).
  pose proof (Z.mod_pos_bound (state r) 2 ltac:(lia)) as Hpar.
  assert (Hy : 0 <= y < 2 ^ 64) by (unfold y; lia).
  assert (Ey : u64 (Z.shiftl (output y) 32) = 0xFFF0000100000000).
  { assert (Hcase : y = 2 ^ 64 - 2 \/ y = 2 ^ 64 - 1) by (unfold y; lia).
    destruct Hcase as [-> | ->]; vm_compute; reflexivity. }
  destruct (steps_reach (inc r) (state r) y Hodd Hi Hs Hy) as (n & Hn).
  assert (Heven : Z.of_nat n mod 2 = 0).
  { pose proof (steps_parity (inc r) n (state r) Hodd) as Hp. rewrite Hn in Hp.
    assert (Eymod : y mod 2 = state r mod 2).
    { unfold y. replace (2 ^ 64 - 2 + state r mod 2)
        with (state r mod 2 + (2 ^ 63 - 1) * 2) by (change (2 ^ 64) with (2 ^ 63 * 2); ring).
      rewrite Z_mod_plus_full. apply Zmod_mod. }
    rewrite Eymod, Zplus_mod in Hp.
    pose proof (Z.mod_pos_bound (Z.of_nat n) 2 ltac:(lia)) as Hn2.
    destruct (Z.eq_dec (Z.of_nat n mod 2) 0) as [E0|E1]; [exact E0|].
    replace (Z.of_nat n mod 2) with 1 in Hp by lia.
    rewrite <- (Zmod_mod (state r) 2) in Hp at 1.
    exfalso. apply (add_pow2_mod_neq (state r mod 2) 0 ltac:(lia)).
    symmetry. exact Hp. }
  exists (S (n / 2)). apply Uniform_bounded_loop_terminates.
  rewrite nth_gen_u64.
  replace (2 * (n / 2))%nat with n.
  2:{ apply Nat2Z.inj. rewrite Nat2Z.inj_mul, Nat2Z.inj_div.
      change (Z.of_nat 2) with 2. pose proof (Z.div_mod (Z.of_nat n) 2 ltac:(lia)). lia. }
  rewrite Hn. unfold Uniform_u64, Uniform_u32. cbn [state inc fst].
  rewrite Ey. pose proof (lor_ge_l 0xFFF0000100000000 (output (step (inc r) y))
                            (output_nonneg _)). lia.
Qed.

(** C3.  [Uniform(b)] on [uint32_t] and on [uint64_t], for a generator a
    program can reach and a bound [0 < b < 2^W]: the threshold is
    [(2^W - b) mod b]; the loop returns (for enough fuel), and what it
    returns is the first raw draw that is [>= threshold], reduced modulo
    [b], hence in [[0, b)]; every value of [[0, b)] is the image of the
    same number [2^W / b] of accepted raw draws. *)
Theorem Uniform_bounded_unbiased (r : RNG) (b : Z) :
  reachable r ->
  (0 < b < 2 ^ 32 -> unbiased 32 Uniform_u32 r b)
  /\ (0 < b < 2 ^ 64 -> unbiased 64 Uniform_u64 r b).
Proof.
  intros Hr. pose proof (reachable_wf r Hr) as Hwf.
  pose proof (reachable_inc_odd r Hr) as Hodd.
  split; intros Hb; unfold unbiased.
  - split; [apply threshold_eq; lia|].
    split; [exact (Uniform_b_u32_terminates r b Hwf Hodd Hb)|].
    split; [|intros v Hv; apply accepted_preimages_uniform; lia].
    intros fuel v r' Hrun.
    destruct (Uniform_bounded_loop_result _ _ _ _ _ _ _ Hrun)
      as (n & raw & Hn & Hrej & Hacc & Hraw & Hv).
    split; [subst v; apply Z.mod_pos_bound; lia|].
    exists n, raw. auto.
  - split; [apply threshold_eq; lia|].
    split; [exact (Uniform_b_u64_terminates r b Hwf Hodd Hb)|].
    split; [|intros v Hv; apply accepted_preimages_uniform; lia].
    intros fuel v r' Hrun.
    destruct (Uniform_bounded_loop_result _ _ _ _ _ _ _ Hrun)
      as (n & raw & Hn & Hrej & Hacc & Hraw & Hv).
    split; [subst v; apply Z.mod_pos_bound; lia|].
    exists n, raw. auto.
Qed.

Lemma Uniform_bounded_unbiased_witness :
  unbiased 32 Uniform_u32 RNG_default 6 /\ unbiased 64 Uniform_u64 RNG_default 6.
Proof.
  destruct (Uniform_bounded_unbiased RNG_default 6 reach_default) as [H32 H64].
  split; [apply H32; lia | apply H64; lia].
Defined.

(** *** The period of a stream *)

Lemma level_exists c i : Z.odd c = true -> exists cm cp, level c i cm cp.
Proof.
  intros Hodd. induction i as [|i (cm & cp & IH)].
  - eexists _, _. apply level_0, Hodd.
  - eexists _, _. apply level_S, IH.
Qed.

(** [2^63] steps flip the top bit of the state and leave the rest. *)
Lemma steps_half_period c x :
  Z.odd c = true -> 0 <= x < 2 ^ 64 -> steps (Z.to_nat (2 ^ 63)) c x = u64 (x + 2 ^ 63).
Proof.
  intros Hodd Hx. destruct (level_exists c 63 Hodd) as (cm & cp & Hlev).
  change (2 ^ 63) with (2 ^ Z.of_nat 63) at 1. rewrite pow2_to_nat.
  rewrite <- (level_agrees _ _ _ _ Hlev x Hx).
  pose proof (level_flip c 63 cm cp x Hlev ltac:(lia)) as Hflip.
  change (Z.of_nat 63 + 1) with 64 in Hflip. change (Z.of_nat 63) with 63 in Hflip.
  unfold app, u64 in *. rewrite Zmod_mod in Hflip. exact Hflip.
Qed.

Lemma steps_period c x :
  Z.odd c = true -> 0 <= x < 2 ^ 64 -> steps (Z.to_nat (2 ^ 64)) c x = x.
Proof.
  intros Hodd Hx.
  replace (Z.to_nat (2 ^ 64)) with (Z.to_nat (2 ^ 63) + Z.to_nat (2 ^ 63))%nat
    by (rewrite <- Z2Nat.inj_add by lia; f_equal).
  rewrite steps_add, (steps_half_period c x Hodd Hx).
  rewrite (steps_half_period c _ Hodd (u64_range _)).
  unfold u64. rewrite Zplus_mod_idemp_l.
  replace (x + 2 ^ 63 + 2 ^ 63) with (x + 1 * 2 ^ 64) by (change (2 ^ 64) with (2 ^ 63 + 2 ^ 63); ring).
  rewrite Z_mod_plus_full. apply Z.mod_small, Hx.
Qed.

Lemma steps_periods c x (q n : nat) :
  Z.odd c = true -> 0 <= x < 2 ^ 64 ->
  steps (n + q * Z.to_nat (2 ^ 64)) c x = steps n c x.
Proof.
  intros Hodd Hx. pose proof (steps_period c x Hodd Hx) as Hper.
  remember (Z.to_nat (2 ^ 64)) as P eqn:EP. clear EP.
  induction q as [|q IH].
  - f_equal. lia.
  - replace (n + S q * P)%nat with ((n + q * P) + P)%nat by lia.
    rewrite steps_add, Hper. exact IH.
Qed.

(** Step counts matter only modulo [2^64]. *)
Lemma steps_mod c x k :
  Z.odd c = true -> 0 <= x < 2 ^ 64 -> 0 <= k ->
  steps (Z.to_nat k) c x = steps (Z.to_nat (u64 k)) c x.
Proof.
  intros Hodd Hx Hk.
  pose proof (steps_periods c x (Z.to_nat (k / 2 ^ 64)) (Z.to_nat (u64 k)) Hodd Hx) as Hper.
  assert (E : Z.to_nat k
              = (Z.to_nat (u64 k) + Z.to_nat (k / 2 ^ 64) * Z.to_nat (2 ^ 64))%nat).
  { unfold u64.
    pose proof (Z.div_mod k (2 ^ 64) ltac:(lia)) as Hdm.
    pose proof (Z.mod_pos_bound k (2 ^ 64) ltac:(lia)) as Hm.
    assert (0 <= k / 2 ^ 64) by (apply Z.div_pos; lia).
    apply Nat2Z.inj. rewrite Nat2Z.inj_add, Nat2Z.inj_mul, !Z2Nat.id by lia. lia. }
  revert Hper E. generalize (Z.to_nat (2 ^ 64)). intros P Hper E.
  rewrite E. exact Hper.
Qed.

Lemma steps_to_nat_add j k c x :
  0 <= j -> 0 <= k ->
  steps (Z.to_nat k) c (steps (Z.to_nat j) c x) = steps (Z.to_nat (j + k)) c x.
Proof. intros Hj Hk. rewrite <- steps_add. f_equal. lia. Qed.

(** *** Draws and jumps *)

Lemma draws_snd n : forall r, snd (draws n r) = mkRNG (steps n (inc r) (state r)) (inc r).
Proof.
  induction n as [|n IH]; intros r.
  - destruct r. reflexivity.
  - cbn [draws]. destruct (Uniform_u32 r) as [v r1] eqn:E. specialize (IH r1).
    destruct (draws n r1) as [vs r2]. cbn [snd] in *. rewrite IH.
    unfold Uniform_u32 in E. injection E as _ <-. cbn [inc state].
    unfold steps. rewrite Nat.iter_succ_r. reflexivity.
Qed.

Lemma draws_length n : forall r, length (fst (draws n r)) = n.
Proof.
  induction n as [|n IH]; intros r; [reflexivity|].
  cbn [draws]. destruct (Uniform_u32 r) as [v r1]. specialize (IH r1).
  destruct (draws n r1) as [vs r2]. cbn [fst length] in *. congruence.
Qed.

Lemma draws_add n m : forall r,
  fst (draws (n + m) r) = fst (draws n r) ++ fst (draws m (snd (draws n r))).
Proof.
  induction n as [|n IH]; intros r; [reflexivity|].
  cbn [Nat.add draws]. destruct (Uniform_u32 r) as [v r1]. specialize (IH r1).
  destruct (draws (n + m) r1) as [vs r2]. destruct (draws n r1) as [vs' r2'].
  cbn [fst snd] in *. rewrite IH. reflexivity.
Qed.

Lemma RNG_eta r s c : state r = s -> inc r = c -> r = mkRNG s c.
Proof. destruct r. cbn. congruence. Qed.

(** [Advance] in one equation. *)
Lemma Advance_steps r idelta :
  wf r ->
  Advance r idelta
  = Some (mkRNG (steps (Z.to_nat (u64 idelta)) (inc r) (state r)) (inc r)).
Proof.
  intros Hr. destruct (Advance_spec r idelta Hr) as (r' & -> & Hinc & Hst).
  f_equal. apply RNG_eta; assumption.
Qed.

Lemma wf_default : wf RNG_default.
Proof. unfold wf, RNG_default, PCG32_DEFAULT_STATE, PCG32_DEFAULT_STREAM; simpl; lia. Qed.

Lemma pow2_64_nat : Z.of_nat (2 ^ 64) = 2 ^ 64.
Proof. rewrite Nat2Z.inj_pow. reflexivity. Qed.

(** X1.  Jump-ahead.  [Advance(idelta)] leaves the generator exactly where
    [(uint64_t) idelta] calls of [Uniform<uint32_t>()] leave it, that is
    [idelta] calls when [idelta >= 0]; the values drawn after the jump are
    then the values the original generator yields from position [idelta]
    on. *)
Theorem Advance_is_draws (r : RNG) (idelta : Z) :
  wf r ->
  Advance r idelta = Some (snd (draws (Z.to_nat (u64 idelta)) r))
  /\ (0 <= idelta < 2 ^ 63 ->
      Advance r idelta = Some (snd (draws (Z.to_nat idelta) r))
      /\ forall m,
          fst (draws m (snd (draws (Z.to_nat idelta) r)))
          = drop (Z.to_nat idelta) (fst (draws (Z.to_nat idelta + m) r))).
Proof.
  intros Hr. rewrite Advance_steps by exact Hr. split.
  - rewrite draws_snd. reflexivity.
  - intros Hk. rewrite u64_small by lia. split.
    + rewrite draws_snd. reflexivity.
    + intros m. rewrite draws_add. symmetry. apply drop_app_length'. symmetry. apply draws_length.
Qed.

Lemma Advance_is_draws_witness :
  Advance RNG_default 1000 = Some (snd (draws (Z.to_nat 1000) RNG_default)).
Proof.
  destruct (Advance_is_draws RNG_default 1000 wf_default) as [_ H].
  apply H. lia.
Defined.

(** X2.  Jumps add up: [Advance(j)] followed by [Advance(k)] leaves the
    generator that one [Advance(j + k)] leaves (the sum taken modulo
    [2^64], as the [uint64_t] cast does). *)
Theorem Advance_compose (r r1 r2 : RNG) (j k : Z) :
  wf r -> Z.odd (inc r) = true ->
  Advance r j = Some r1 -> Advance r1 k = Some r2 ->
  Advance r (j + k) = Some r2.
Proof.
  intros Hr Hodd H1 H2. rewrite Advance_steps in H1 by exact Hr. injection H1 as <-.
  rewrite Advance_steps in H2 by (split; [apply steps_range, Hr | apply Hr]).
  cbn [inc state] in H2. injection H2 as <-.
  rewrite Advance_steps by exact Hr. do 2 f_equal.
  pose proof (u64_range j) as Hj. pose proof (u64_range k) as Hk.
  rewrite steps_to_nat_add by lia.
  rewrite (steps_mod _ _ (u64 j + u64 k)) by (try apply Hr; try lia; exact Hodd).
  do 2 f_equal. unfold u64. apply Zplus_mod.
Qed.

Lemma Advance_compose_witness :
  exists r1 r2,
    Advance RNG_default 3 = Some r1 /\ Advance r1 (-7) = Some r2
    /\ Advance RNG_default (3 + -7) = Some r2.
Proof.
  eexists _, _. split; [vm_compute; reflexivity|]. split; [vm_compute; reflexivity|].
  eapply (Advance_compose RNG_default).
  - exact wf_default.
  - reflexivity.
  - vm_compute; reflexivity.
  - vm_compute; reflexivity.
Defined.

(** X3.  A jump is undone by the opposite jump: after [Advance(k)],
    [Advance(-k)] restores state and stream selector. *)
Theorem Advance_inverse (r r1 : RNG) (k : Z) :
  wf r -> Z.odd (inc r) = true ->
  Advance r k = Some r1 -> Advance r1 (- k) = Some r.
Proof.
  intros Hr Hodd H1. rewrite Advance_steps in H1 by exact Hr. injection H1 as <-.
  rewrite Advance_steps by (split; [apply steps_range, Hr | apply Hr]).
  cbn [inc state]. f_equal. symmetry. apply RNG_eta; [|reflexivity].
  pose proof (u64_range k) as Hk. pose proof (u64_range (- k)) as Hk'.
  rewrite steps_to_nat_add by lia.
  rewrite (steps_mod _ _ (u64 k + u64 (- k))) by (try apply Hr; try lia; exact Hodd).
  replace (u64 (u64 k + u64 (- k))) with 0; [reflexivity|].
  unfold u64. rewrite <- Zplus_mod. replace (k + - k) with 0 by ring. reflexivity.
Qed.

Lemma Advance_inverse_witness :
  exists r1, Advance RNG_default 12345 = Some r1 /\ Advance r1 (- 12345) = Some RNG_default.
Proof.
  eexists. split; [vm_compute; reflexivity|].
  apply (Advance_inverse RNG_default _ 12345).
  - exact wf_default.
  - reflexivity.
  - vm_compute; reflexivity.
Defined.

(** X4.  Different jumps lead to different states: on a stream with odd
    [inc], [Advance(j)] and [Advance(k)] with [j <> k] (two [int64_t]
    values) never produce the same generator.  In particular a jump other
    than [Advance(0)] always moves the generator. *)
Theorem Advance_injective (r : RNG) (j k : Z) :
  wf r -> Z.odd (inc r) = true ->
  - 2 ^ 63 <= j < 2 ^ 63 -> - 2 ^ 63 <= k < 2 ^ 63 ->
  j <> k -> Advance r j <> Advance r k.
Proof.
  intros Hr Hodd Hj Hk Hne. rewrite !Advance_steps by exact Hr. intros [= Heq].
  apply Hne.
  pose proof (u64_range j) as Hj'. pose proof (u64_range k) as Hk'.
  pose proof pow2_64_nat as Hpow.
  assert (E : Z.to_nat (u64 j) = Z.to_nat (u64 k)).
  { destruct (Nat.le_ge_cases (Z.to_nat (u64 j)) (Z.to_nat (u64 k))) as [Hle|Hle].
    - apply (steps_inj (inc r) (state r)); [exact Hodd | exact Hle | lia | exact Heq].
    - symmetry. apply (steps_inj (inc r) (state r)); [exact Hodd | exact Hle | lia |].
      symmetry. exact Heq. }
  apply Z2Nat.inj in E; try lia.
  apply (mod_eq_close (2 ^ 64)); [lia | exact E | lia].
Qed.

Lemma Advance_injective_witness :
  Advance RNG_default (-1) <> Advance RNG_default (2 ^ 63 - 1).
Proof.
  apply (Advance_injective RNG_default (-1) (2 ^ 63 - 1)).
  - exact wf_default.
  - reflexivity.
  - lia.
  - lia.
  - lia.
Defined.

(** X5.  The first return: [n] calls of [Uniform<uint32_t>()] bring a
    generator with odd [inc] back to where it started exactly when [n] is
    a multiple of [2^64]; every stream has the full period. *)
Theorem draws_period (r : RNG) (n : nat) :
  wf r -> Z.odd (inc r) = true ->
  (snd (draws n r) = r <-> Z.of_nat n mod 2 ^ 64 = 0).
Proof.
  intros Hr Hodd. rewrite draws_snd.
  rewrite <- (Nat2Z.id n) at 1.
  rewrite steps_mod by (try apply Hr; try lia; exact Hodd).
  fold (u64 (Z.of_nat n)). pose proof (u64_range (Z.of_nat n)) as Hn.
  pose proof pow2_64_nat as Hpow. split.
  - intros Heq. apply (f_equal state) in Heq. cbn [state] in Heq.
    assert (E : 0%nat = Z.to_nat (u64 (Z.of_nat n))); [|lia].
    apply (steps_inj (inc r) (state r)); [exact Hodd | lia | lia |].
    symmetry. exact Heq.
  - intros ->. symmetry. apply RNG_eta; reflexivity.
Qed.

Lemma draws_period_witness :
  snd (draws 0 RNG_default) = RNG_default <-> Z.of_nat 0 mod 2 ^ 64 = 0.
Proof. apply (draws_period RNG_default 0); [exact wf_default | reflexivity]. Defined.

Lemma to_int64_range d : 0 <= d < 2 ^ 64 -> - 2 ^ 63 <= to_int64 d < 2 ^ 63.
Proof. intros Hd. unfold to_int64. destruct (Z.ltb_spec d (2 ^ 63)); lia. Qed.

Lemma u64_to_int64 d : 0 <= d < 2 ^ 64 -> u64 (to_int64 d) = d.
Proof.
  intros Hd. unfold to_int64, u64. destruct (Z.ltb_spec d (2 ^ 63)).
  - apply Z.mod_small. lia.
  - apply (mod_decompose _ _ (-1)); lia.
Qed.

(** X6.  Subtraction and jump are inverse to each other the other way
    round, too: for two generators on one stream, [a - b] trips no check,
    and jumping [b] by the result gives [a]: [b.Advance(a - b)] makes [b]
    equal to [a], also when [a] is behind [b] and the difference is
    negative. *)
Theorem diff_then_Advance (a b : RNG) :
  wf a -> wf b -> inc a = inc b -> Z.odd (inc a) = true ->
  exists d, diff a b = Ok d /\ - 2 ^ 63 <= d < 2 ^ 63 /\ Advance b d = Some a.
Proof.
  intros Ha Hb Hinc Hodd.
  destruct (diff_spec a b Ha Hb Hinc Hodd) as (d & Hdiff & Hd & Hsteps).
  exists (to_int64 d). split; [exact Hdiff|]. split; [apply to_int64_range, Hd|].
  rewrite Advance_steps by exact Hb. rewrite u64_to_int64 by exact Hd.
  f_equal. symmetry. apply RNG_eta; congruence.
Qed.

Lemma diff_then_Advance_witness :
  exists d, diff (SetSequence 7 1) (SetSequence 7 2) = Ok d
            /\ - 2 ^ 63 <= d < 2 ^ 63
            /\ Advance (SetSequence 7 2) d = Some (SetSequence 7 1).
Proof.
  apply (diff_then_Advance (SetSequence 7 1) (SetSequence 7 2)).
  - vm_compute. split; split; congruence.
  - vm_compute. split; split; congruence.
  - reflexivity.
  - reflexivity.
Defined.

(** X7.  Subtraction is antisymmetric: on one stream [a - a] is [0], and
    [b - a] is the negation of [a - b]; the one exception is the distance
    [2^63], half the period, which both orders report as [-2^63]. *)
Theorem diff_antisymmetric (a b : RNG) :
  wf a -> wf b -> inc a = inc b -> Z.odd (inc a) = true ->
  diff a a = Ok 0
  /\ exists d, diff a b = Ok d
               /\ diff b a = Ok (if d =? - 2 ^ 63 then - 2 ^ 63 else - d).
Proof.
  intros Ha Hb Hinc Hodd. split.
  - apply (diff_steps a a 0 Ha Ha eq_refl Hodd); [lia | reflexivity].
  - destruct (diff_spec a b Ha Hb Hinc Hodd) as (d & Hdiff & Hd & Hsteps).
    exists (to_int64 d). split; [exact Hdiff|].
    pose proof (u64_range (- d)) as Hm.
    assert (Em : u64 (- d) = if d =? 0 then 0 else 2 ^ 64 - d).
    { unfold u64. destruct (Z.eqb_spec d 0) as [->|Hnz]; [reflexivity|].
      apply (mod_decompose _ _ (-1)); lia. }
    assert (Hback : state b = steps (Z.to_nat (u64 (- d))) (inc a) (state a)).
    { rewrite <- Hsteps. rewrite steps_to_nat_add by lia.
      rewrite steps_mod by (try apply Hb; try lia; congruence).
      replace (u64 (d + u64 (- d))) with 0; [reflexivity|].
      unfold u64. rewrite Zplus_mod_idemp_r. replace (d + - d) with 0 by ring. reflexivity. }
    rewrite (diff_steps b a (u64 (- d)) Hb Ha (eq_sym Hinc) ltac:(congruence) Hm Hback).
    f_equal. rewrite Em. unfold to_int64.
    destruct (Z.eqb_spec d 0); destruct (Z.ltb_spec d (2 ^ 63));
      repeat match goal with |- context [?x <? ?y] => destruct (Z.ltb_spec x y) end;
      repeat match goal with |- context [?x =? ?y] => destruct (Z.eqb_spec x y) end; lia.
Qed.

Lemma diff_antisymmetric_witness :
  diff (SetSequence 7 1) (SetSequence 7 1) = Ok 0
  /\ exists d, diff (SetSequence 7 1) (SetSequence 7 2) = Ok d
               /\ diff (SetSequence 7 2) (SetSequence 7 1)
                  = Ok (if d =? - 2 ^ 63 then - 2 ^ 63 else - d).
Proof.
  apply (diff_antisymmetric (SetSequence 7 1) (SetSequence 7 2)).
  - vm_compute. split; split; congruence.
  - vm_compute. split; split; congruence.
  - reflexivity.
  - reflexivity.
Defined.

(** *** Seeding *)

(** The multiplier is a unit modulo [2^64]. *)
Lemma PCG32_MULT_cancel x y : u64 (x * PCG32_MULT) = u64 (y * PCG32_MULT) -> u64 x = u64 y.
Proof.
  intros H. apply eqm64_u64.
  assert (Hxy : eqm64 (x * PCG32_MULT) (y * PCG32_MULT)) by (constructor; exact H).
  assert (E : eqm64 (PCG32_MULT * 0xc097ef87329e28a5) 1)
    by (constructor; vm_compute; reflexivity).
  assert (Hone : forall z, eqm64 z (z * PCG32_MULT * 0xc097ef87329e28a5)).
  { intros z. replace (z * PCG32_MULT * 0xc097ef87329e28a5)
      with (z * (PCG32_MULT * 0xc097ef87329e28a5)) by ring.
    rewrite E. replace (z * 1) with z by ring. reflexivity. }
  rewrite (Hone x), (Hone y), Hxy. reflexivity.
Qed.

Lemma lor_even_1 x : Z.lor (2 * x) 1 = 2 * x + 1.
Proof.
  symmetry. apply Z.add_nocarry_lor. apply Z.bits_inj'. intros n Hn.
  rewrite Z.land_spec, Z.bits_0. destruct (Z.eq_dec n 0) as [->|Hnz].
  - rewrite Z.testbit_even_0. reflexivity.
  - change 1 with (2 ^ 0). rewrite Z.pow2_bits_false by lia. apply andb_false_r.
Qed.

Lemma u64_shiftl_1 i : u64 (Z.shiftl i 1) = 2 * (i mod 2 ^ 63).
Proof.
  rewrite Z.shiftl_mul_pow2 by lia. change (2 ^ 1) with 2. unfold u64.
  change (2 ^ 64) with (2 * 2 ^ 63). rewrite (Z.mul_comm i 2).
  apply Z.mul_mod_distr_l; lia.
Qed.

(** X8.  Which constructor arguments give the same generator:
    [SetSequence(i1, s1)] and [SetSequence(i2, s2)] coincide exactly when
    the seeds are equal and the sequence indices agree on their low 63
    bits.  Two different seeds never collide on a stream. *)
Theorem SetSequence_injective (i1 s1 i2 s2 : Z) :
  0 <= s1 < 2 ^ 64 -> 0 <= s2 < 2 ^ 64 ->
  (SetSequence i1 s1 = SetSequence i2 s2 <-> i1 mod 2 ^ 63 = i2 mod 2 ^ 63 /\ s1 = s2).
Proof.
  intros Hs1 Hs2. unfold SetSequence, Uniform_u32. cbn [snd inc state]. unfold step.
  rewrite !u64_shiftl_1, !lor_even_1. split.
  - intros [= Hst Hinc]. assert (Hi : i1 mod 2 ^ 63 = i2 mod 2 ^ 63) by lia.
    split; [exact Hi|]. rewrite Hi in Hst.
    set (c := 2 * (i2 mod 2 ^ 63) + 1) in *.
    set (k := u64 (0 * PCG32_MULT + c)) in *.
    assert (H1 : eqm64 (u64 (k + s1) * PCG32_MULT) (u64 (k + s2) * PCG32_MULT)).
    { replace (u64 (k + s1) * PCG32_MULT)
        with ((u64 (k + s1) * PCG32_MULT + c) + - c) by ring.
      rewrite (eqm64_intro _ _ Hst).
      replace (u64 (k + s2) * PCG32_MULT + c + - c) with (u64 (k + s2) * PCG32_MULT) by ring.
      reflexivity. }
    apply eqm64_u64, PCG32_MULT_cancel in H1.
    assert (H3 : eqm64 (k + s1) (k + s2)).
    { constructor. unfold u64 in *. rewrite !Zmod_mod in H1. exact H1. }
    assert (H2 : eqm64 s1 s2).
    { replace s1 with ((k + s1) + - k) by ring. rewrite H3.
      replace (k + s2 + - k) with s2 by ring. reflexivity. }
    apply eqm64_u64 in H2. rewrite !u64_small in H2 by assumption. exact H2.
  - intros [-> ->]. reflexivity.
Qed.

Lemma SetSequence_injective_witness :
  SetSequence 1 42 = SetSequence (2 ^ 63 + 1) 43
  <-> 1 mod 2 ^ 63 = (2 ^ 63 + 1) mod 2 ^ 63 /\ 42 = 43.
Proof. apply (SetSequence_injective 1 42 (2 ^ 63 + 1) 43); lia. Defined.

(** *** The raw variates *)

Lemma lor_lt_pow2 a b n :
  0 <= n -> 0 <= a < 2 ^ n -> 0 <= b < 2 ^ n -> Z.lor a b < 2 ^ n.
Proof.
  intros Hn Ha Hb.
  destruct (Z.eq_dec a 0) as [->|Hanz]; [rewrite Z.lor_0_l; lia|].
  destruct (Z.eq_dec b 0) as [->|Hbnz]; [rewrite Z.lor_0_r; lia|].
  apply Z.log2_lt_pow2; [pose proof (proj2 (Z.lor_nonneg a b)); pose proof (lor_ge_l a b); lia|].
  rewrite Z.log2_lor by lia. apply Z.max_lub_lt; apply Z.log2_lt_pow2; lia.
Qed.

Lemma shiftr_le x n : 0 <= x -> 0 <= n -> 0 <= Z.shiftr x n <= x.
Proof.
  intros Hx Hn. rewrite Z.shiftr_div_pow2 by exact Hn.
  assert (0 < 2 ^ n) by (apply Z.pow_pos_nonneg; lia).
  split; [apply Z.div_pos; lia|]. apply Z.div_le_upper_bound; nia.
Qed.

Lemma output_range s : 0 <= output s < 2 ^ 32.
Proof.
  split; [apply output_nonneg|]. unfold output.
  set (xorshifted := u32 _). set (rot := u32 (Z.shiftr s 59)).
  assert (Hx : 0 <= xorshifted < 2 ^ 32) by (apply Z.mod_pos_bound; lia).
  assert (Hrot : 0 <= rot < 2 ^ 32) by (apply Z.mod_pos_bound; lia).
  pose proof (shiftr_le xorshifted rot ltac:(lia) ltac:(lia)).
  apply lor_lt_pow2; [lia | lia |]. apply Z.mod_pos_bound. lia.
Qed.

Lemma lor_high_low hi lo :
  0 <= lo < 2 ^ 32 -> Z.lor (hi * 2 ^ 32) lo = hi * 2 ^ 32 + lo.
Proof.
  intros Hlo. symmetry. apply Z.add_nocarry_lor. apply Z.bits_inj'. intros n Hn.
  rewrite Z.land_spec, Z.bits_0. destruct (Z.lt_ge_cases n 32) as [Hlt|Hge].
  - rewrite Z.mul_pow2_bits_low by exact Hlt. reflexivity.
  - destruct (Z.eq_dec lo 0) as [->|Hnz]; [rewrite Z.bits_0; apply andb_false_r|].
    rewrite (Z.bits_above_log2 lo n); [apply andb_false_r | lia |].
    apply Z.lt_le_trans with 32; [apply Z.log2_lt_pow2; lia | exact Hge].
Qed.

Lemma Uniform_u64_value r :
  fst (Uniform_u64 r)
  = fst (Uniform_u32 r) * 2 ^ 32 + fst (Uniform_u32 (snd (Uniform_u32 r))).
Proof.
  unfold Uniform_u64, Uniform_u32. cbn [fst snd state inc].
  pose proof (output_range (state r)) as H0.
  pose proof (output_range (step (inc r) (state r))) as H1.
  rewrite Z.shiftl_mul_pow2 by lia. rewrite u64_small by lia.
  apply lor_high_low, H1.
Qed.

Lemma Uniform_u64_range r : 0 <= fst (Uniform_u64 r) < 2 ^ 64.
Proof.
  rewrite Uniform_u64_value. unfold Uniform_u32. cbn [fst snd state inc].
  pose proof (output_range (state r)) as H0.
  pose proof (output_range (step (inc r) (state r))) as H1. lia.
Qed.

(** X9.  The raw variates fill their types and nothing more: whatever the
    state, [Uniform<uint32_t>()] is below [2^32]; [Uniform<uint64_t>()]
    makes exactly two 32-bit draws and returns the first as the high word
    and the second as the low word, a value below [2^64]. *)
Theorem Uniform_raw_values (r : RNG) :
  0 <= fst (Uniform_u32 r) < 2 ^ 32
  /\ 0 <= fst (Uniform_u64 r) < 2 ^ 64
  /\ fst (Uniform_u64 r)
     = fst (Uniform_u32 r) * 2 ^ 32 + fst (Uniform_u32 (snd (Uniform_u32 r)))
  /\ snd (Uniform_u64 r) = snd (Uniform_u32 (snd (Uniform_u32 r))).
Proof.
  split; [apply output_range|]. split; [apply Uniform_u64_range|].
  split; [apply Uniform_u64_value | reflexivity].
Qed.

(** *** The signed variants *)

Lemma int32_of_raw_eq debug v : 0 <= v < 2 ^ 32 -> int32_of_raw debug v = Ok (to_int32 v).
Proof.
  intros Hv. unfold int32_of_raw.
  change (u32 INT32_MAX) with (2 ^ 31 - 1). change (u32 INT32_MIN) with (2 ^ 31).
  change INT32_MIN with (- 2 ^ 31).
  destruct (Z.leb_spec v (2 ^ 31 - 1)) as [Hle|Hgt]; [reflexivity|].
  destruct (Z.geb_spec v (2 ^ 31)) as [_|]; [|lia]. rewrite andb_false_r.
  f_equal. unfold to_int32, u32. rewrite Z.mod_small by lia.
  destruct (Z.ltb_spec (v - 2 ^ 31) (2 ^ 31)); destruct (Z.ltb_spec v (2 ^ 31)); lia.
Qed.

Lemma int64_of_raw_eq debug v : 0 <= v < 2 ^ 64 -> int64_of_raw debug v = Ok (to_int64 v).
Proof.
  intros Hv. unfold int64_of_raw.
  change (u64 INT64_MAX) with (2 ^ 63 - 1). change (u64 INT64_MIN) with (2 ^ 63).
  change INT64_MIN with (- 2 ^ 63).
  destruct (Z.leb_spec v (2 ^ 63 - 1)) as [Hle|Hgt]; [reflexivity|].
  destruct (Z.geb_spec v (2 ^ 63)) as [_|]; [|lia]. rewrite andb_false_r.
  f_equal. unfold to_int64, u64. rewrite Z.mod_small by lia.
  destruct (Z.ltb_spec (v - 2 ^ 63) (2 ^ 63)); destruct (Z.ltb_spec v (2 ^ 63)); lia.
Qed.

Lemma to_int32_range v : 0 <= v < 2 ^ 32 -> - 2 ^ 31 <= to_int32 v < 2 ^ 31.
Proof. intros Hv. unfold to_int32. destruct (Z.ltb_spec v (2 ^ 31)); lia. Qed.

Lemma u32_to_int32 v : 0 <= v < 2 ^ 32 -> u32 (to_int32 v) = v.
Proof.
  intros Hv. unfold to_int32, u32. destruct (Z.ltb_spec v (2 ^ 31)).
  - apply Z.mod_small. lia.
  - apply (mod_decompose _ _ (-1)); lia.
Qed.

Lemma Uniform_i32_eq debug r :
  Uniform_i32 debug r = Ok (to_int32 (fst (Uniform_u32 r)), snd (Uniform_u32 r)).
Proof.
  unfold Uniform_i32. destruct (Uniform_u32 r) as [v r'] eqn:E.
  assert (Hv : 0 <= v < 2 ^ 32).
  { replace v with (fst (Uniform_u32 r)) by (rewrite E; reflexivity). apply output_range. }
  rewrite int32_of_raw_eq by exact Hv. reflexivity.
Qed.

Lemma Uniform_i64_eq debug r :
  Uniform_i64 debug r = Ok (to_int64 (fst (Uniform_u64 r)), snd (Uniform_u64 r)).
Proof.
  unfold Uniform_i64. pose proof (Uniform_u64_range r) as Hv.
  destruct (Uniform_u64 r) as [v r'] eqn:E. cbn [fst snd] in *.
  rewrite int64_of_raw_eq by exact Hv. reflexivity.
Qed.

(** X10.  The signed variates are the raw ones read in two's complement:
    [Uniform<int32_t>()] and [Uniform<int64_t>()] never trip their
    [DCHECK], advance the generator like the unsigned draw of the same
    width, and return the value of the signed type that is congruent to
    the raw variate modulo [2^32] (resp. [2^64]). *)
Theorem Uniform_signed_values (debug : bool) (r : RNG) :
  (exists x, Uniform_i32 debug r = Ok (x, snd (Uniform_u32 r))
             /\ - 2 ^ 31 <= x < 2 ^ 31 /\ u32 x = fst (Uniform_u32 r))
  /\ (exists x, Uniform_i64 debug r = Ok (x, snd (Uniform_u64 r))
                /\ - 2 ^ 63 <= x < 2 ^ 63 /\ u64 x = fst (Uniform_u64 r)).
Proof.
  split.
  - exists (to_int32 (fst (Uniform_u32 r))). split; [apply Uniform_i32_eq|].
    split; [apply to_int32_range | apply u32_to_int32]; apply output_range.
  - exists (to_int64 (fst (Uniform_u64 r))). split; [apply Uniform_i64_eq|].
    split; [apply to_int64_range | apply u64_to_int64]; apply Uniform_u64_range.
Qed.

Lemma threshold_i32_eq b : 0 < b < 2 ^ 31 -> threshold_i32 b = 2 ^ 32 mod b.
Proof.
  intros Hb. unfold threshold_i32.
  replace (u32 (Z.lnot b + 1)) with (2 ^ 32 - b).
  2:{ unfold u32. rewrite Z.lnot_eq_pred_opp. symmetry. apply (mod_decompose _ _ (-1)); lia. }
  replace (u32 b) with b by (unfold u32; symmetry; apply Z.mod_small; lia).
  replace ((2 ^ 32 - b) mod b) with (2 ^ 32 mod b).
  2:{ replace (2 ^ 32 - b) with (2 ^ 32 + (-1) * b) by ring. symmetry. apply Z_mod_plus_full. }
  pose proof (Z.mod_pos_bound (2 ^ 32) b ltac:(lia)).
  unfold to_int32. destruct (Z.ltb_spec (2 ^ 32 mod b) (2 ^ 31)); lia.
Qed.

Lemma threshold_i64_eq b : 0 < b -> threshold_i64 b = 0.
Proof.
  intros Hb. unfold threshold_i64.
  replace (Z.lnot b + 1) with (- b) by (rewrite Z.lnot_eq_pred_opp; lia).
  rewrite Z.rem_opp_l, Z.rem_same by lia. reflexivity.
Qed.

(** What the signed loop returns is an accepted variate, reduced. *)
Lemma Uniform_signed_loop_result draw t b fuel :
  forall r v r',
    Uniform_signed_loop draw fuel r t b = Ok (v, r') ->
    exists x, t <= x /\ v = Z.rem x b.
Proof.
  induction fuel as [|fuel IH]; intros r v r'; cbn [Uniform_signed_loop]; [discriminate|].
  destruct (draw r) as [[x r1]| |]; try discriminate.
  destruct (Z.geb_spec x t) as [Hge|Hlt].
  - intros [= <- <-]. exists x. split; [exact Hge | reflexivity].
  - apply IH.
Qed.

Section SignedLoop.

Variable raw : RNG -> Z * RNG.
Variable conv : Z -> Z.
Variable draw : RNG -> result (Z * RNG).
Hypothesis draw_eq : forall r, draw r = Ok (conv (fst (raw r)), snd (raw r)).

Lemma Uniform_signed_loop_no_check t b fuel :
  forall r, Uniform_signed_loop draw fuel r t b <> CheckFailed.
Proof.
  induction fuel as [|fuel IH]; intros r; cbn [Uniform_signed_loop]; [discriminate|].
  rewrite draw_eq. destruct (_ >=? t); [discriminate | apply IH].
Qed.

Lemma Uniform_signed_loop_terminates t b n :
  forall r,
    t <= conv (fst (raw (nth_gen raw n r))) ->
    exists v r', Uniform_signed_loop draw (S n) r t b = Ok (v, r').
Proof.
  induction n as [|n IH]; intros r Hacc.
  - cbn in Hacc. cbn [Uniform_signed_loop]. rewrite draw_eq.
    destruct (Z.geb_spec (conv (fst (raw r))) t); [eauto | lia].
  - rewrite nth_gen_S in Hacc.
    change (Uniform_signed_loop draw (S (S n)) r t b)
      with (match draw r with
            | Ok (v, r') =>
                if v >=? t then Ok (Z.rem v b, r')
                else Uniform_signed_loop draw (S n) r' t b
            | CheckFailed => CheckFailed
            | OutOfFuel => OutOfFuel
            end).
    rewrite draw_eq. destruct (_ >=? t); [eauto | apply IH, Hacc].
Qed.

End SignedLoop.

Section SignedFirst.

Variable raw : RNG -> Z * RNG.
Variable conv : Z -> result Z.
Variable value : Z -> Z.
Variable draw : RNG -> result (Z * RNG).
Hypothesis draw_eq : forall r, draw r = Ok (value (fst (raw r)), snd (raw r)).
Hypothesis conv_eq : forall r, conv (fst (raw r)) = Ok (value (fst (raw r))).

Lemma loop_value_raw t b r :
  loop_value conv t b (fst (raw r))
  = if value (fst (raw r)) >=? t then Some (Z.rem (value (fst (raw r))) b) else None.
Proof. unfold loop_value. rewrite conv_eq. reflexivity. Qed.

(** The signed loop returns exactly at the first raw word that has a
    value, and returns that value. *)
Lemma Uniform_signed_loop_first t b fuel :
  forall r v r',
    Uniform_signed_loop draw fuel r t b = Ok (v, r')
    <-> exists n w,
          (n < fuel)%nat
          /\ (forall j, (j < n)%nat ->
                loop_value conv t b (fst (raw (nth_gen raw j r))) = None)
          /\ raw (nth_gen raw n r) = (w, r')
          /\ loop_value conv t b w = Some v.
Proof.
  induction fuel as [|fuel IH]; intros r v r'; cbn [Uniform_signed_loop].
  - split; [discriminate|]. intros (n & w & Hn & _). lia.
  - rewrite draw_eq. pose proof (loop_value_raw t b r) as Hr.
    destruct (value (fst (raw r)) >=? t) eqn:G.
    + split.
      * intros [= <- <-]. exists 0%nat, (fst (raw r)).
        split; [lia|]. split; [intros j Hj; lia|].
        change (nth_gen raw 0 r) with r. split; [destruct (raw r); reflexivity | exact Hr].
      * intros (n & w & Hn & Hrej & Hraw & Hval). destruct n as [|n].
        -- change (nth_gen raw 0 r) with r in Hraw. rewrite Hraw in *. cbn [fst snd] in *.
           congruence.
        -- specialize (Hrej 0%nat ltac:(lia)). change (nth_gen raw 0 r) with r in Hrej.
           rewrite Hr in Hrej. discriminate.
    + rewrite IH. split.
      * intros (n & w & Hn & Hrej & Hraw & Hval). exists (S n), w.
        split; [lia|]. split; [|split; [rewrite nth_gen_S; exact Hraw | exact Hval]].
        intros [|j] Hj; [exact Hr|]. rewrite nth_gen_S. apply Hrej. lia.
      * intros (n & w & Hn & Hrej & Hraw & Hval). destruct n as [|n].
        -- change (nth_gen raw 0 r) with r in Hraw. rewrite Hraw in Hr. cbn [fst] in Hr.
           congruence.
        -- exists n, w. split; [lia|].
           split; [|split; [rewrite <- nth_gen_S; exact Hraw | exact Hval]].
           intros j Hj. rewrite <- nth_gen_S. apply Hrej. lia.
Qed.

End SignedFirst.

(** A state of the right parity is reached in an even number of steps. *)
Lemma steps_reach_even c x y :
  Z.odd c = true -> 0 <= c < 2 ^ 64 -> 0 <= x < 2 ^ 64 -> 0 <= y < 2 ^ 64 ->
  x mod 2 = y mod 2 ->
  exists n, steps (2 * n) c x = y.
Proof.
  intros Hodd Hc Hx Hy Hpar.
  destruct (steps_reach c x y Hodd Hc Hx Hy) as (n & Hn).
  pose proof (steps_parity c n x Hodd) as Hp. rewrite Hn, <- Hpar in Hp.
  assert (Heven : Z.of_nat n mod 2 = 0).
  { rewrite Zplus_mod in Hp.
    pose proof (Z.mod_pos_bound x 2 ltac:(lia)) as Hx2.
    pose proof (Z.mod_pos_bound (Z.of_nat n) 2 ltac:(lia)) as Hn2.
    destruct (Z.eq_dec (Z.of_nat n mod 2) 0) as [E0|E1]; [exact E0|].
    replace (Z.of_nat n mod 2) with 1 in Hp by lia.
    destruct (Z.eq_dec (x mod 2) 0) as [Ex|Ex].
    - rewrite Ex in Hp. discriminate Hp.
    - replace (x mod 2) with 1 in Hp by lia. discriminate Hp. }
  exists (n / 2)%nat. replace (2 * (n / 2))%nat with n; [exact Hn|].
  apply Nat2Z.inj. rewrite Nat2Z.inj_mul, Nat2Z.inj_div.
  change (Z.of_nat 2) with 2. pose proof (Z.div_mod (Z.of_nat n) 2 ltac:(lia)). lia.
Qed.

(** X11.  [Uniform(b)] on the signed types, for [b > 0] and a generator
    with odd [inc].  On [int32_t] the threshold is [2^32 mod b], on
    [int64_t] it is [0].  Either way the loop returns for enough fuel, no
    [DCHECK] fires, and the value returned is in [[0, b)]: negative
    variates are always below the threshold and so never accepted. *)
Theorem Uniform_b_signed_range (debug : bool) (r : RNG) (b : Z) :
  wf r -> Z.odd (inc r) = true ->
  (0 < b < 2 ^ 31 ->
     threshold_i32 b = 2 ^ 32 mod b
     /\ (exists fuel v r', Uniform_b_i32 debug fuel r b = Ok (v, r'))
     /\ (forall fuel, Uniform_b_i32 debug fuel r b <> CheckFailed)
     /\ (forall fuel v r', Uniform_b_i32 debug fuel r b = Ok (v, r') -> 0 <= v < b))
  /\ (0 < b < 2 ^ 63 ->
     threshold_i64 b = 0
     /\ (exists fuel v r', Uniform_b_i64 debug fuel r b = Ok (v, r'))
     /\ (forall fuel, Uniform_b_i64 debug fuel r b <> CheckFailed)
     /\ (forall fuel v r', Uniform_b_i64 debug fuel r b = Ok (v, r') -> 0 <= v < b)).
Proof.
  intros [Hs Hi] Hodd.
  assert (Hrem : forall t x, 0 < b -> 0 <= t -> t <= x -> 0 <= Z.rem x b < b).
  { intros t x Hb Ht Hx. rewrite Z.rem_mod_nonneg by lia. apply Z.mod_pos_bound. lia. }
  split; intros Hb.
  - pose proof (threshold_i32_eq b Hb) as Et.
    pose proof (Z.mod_pos_bound (2 ^ 32) b ltac:(lia)) as Ht.
    split; [exact Et|]. unfold Uniform_b_i32. rewrite Et.
    split; [|split].
    + destruct (steps_reach (inc r) (state r) (2 ^ 58 - 2 ^ 40) Hodd Hi Hs ltac:(lia))
        as (n & Hn).
      exists (S n).
      apply (Uniform_signed_loop_terminates Uniform_u32 to_int32 _ (Uniform_i32_eq debug)).
      rewrite nth_gen_u32. cbn [Uniform_u32 fst state]. rewrite Hn.
      assert (E : to_int32 (output (2 ^ 58 - 2 ^ 40)) = 2 ^ 31 - 1) by (vm_compute; reflexivity).
      rewrite E. lia.
    + intros fuel.
      apply (Uniform_signed_loop_no_check Uniform_u32 to_int32 _ (Uniform_i32_eq debug)).
    + intros fuel v r' Hrun.
      destruct (Uniform_signed_loop_result _ _ _ _ _ _ _ Hrun) as (x & Hx & ->).
      apply (Hrem (2 ^ 32 mod b)); lia.
  - pose proof (threshold_i64_eq b ltac:(lia)) as Et.
    split; [exact Et|]. unfold Uniform_b_i64. rewrite Et.
    split; [|split].
    + pose proof (Z.mod_pos_bound (state r) 2 ltac:(lia)) as Hpar.
      set (y := 2 ^ 58 - 2 ^ 40 + state r mod 2).
      assert (Hy : 0 <= y < 2 ^ 64) by (unfold y; lia).
      assert (Ey : output y = 2 ^ 31 - 1).
      { assert (Hcase : y = 2 ^ 58 - 2 ^ 40 \/ y = 2 ^ 58 - 2 ^ 40 + 1) by (unfold y; lia).
        destruct Hcase as [-> | ->]; vm_compute; reflexivity. }
      assert (Eymod : state r mod 2 = y mod 2).
      { unfold y. replace (2 ^ 58 - 2 ^ 40 + state r mod 2)
          with (state r mod 2 + (2 ^ 57 - 2 ^ 39) * 2)
          by (change (2 ^ 58 - 2 ^ 40) with ((2 ^ 57 - 2 ^ 39) * 2); ring).
        rewrite Z_mod_plus_full. symmetry. apply Zmod_mod. }
      destruct (steps_reach_even (inc r) (state r) y Hodd Hi Hs Hy Eymod) as (n & Hn).
      exists (S n).
      apply (Uniform_signed_loop_terminates Uniform_u64 to_int64 _ (Uniform_i64_eq debug)).
      rewrite nth_gen_u64. rewrite Hn. rewrite Uniform_u64_value.
      cbn [Uniform_u32 fst snd state inc]. rewrite Ey.
      pose proof (output_range (step (inc r) y)) as Hlow.
      unfold to_int64.
      destruct (Z.ltb_spec ((2 ^ 31 - 1) * 2 ^ 32 + output (step (inc r) y)) (2 ^ 63)); lia.
    + intros fuel.
      apply (Uniform_signed_loop_no_check Uniform_u64 to_int64 _ (Uniform_i64_eq debug)).
    + intros fuel v r' Hrun.
      destruct (Uniform_signed_loop_result _ _ _ _ _ _ _ Hrun) as (x & Hx & ->).
      apply (Hrem 0); lia.
Qed.

Lemma Uniform_b_signed_range_witness :
  (exists fuel v r', Uniform_b_i32 true fuel RNG_default 6 = Ok (v, r'))
  /\ (exists fuel v r', Uniform_b_i64 true fuel RNG_default 6 = Ok (v, r')).
Proof.
  destruct (Uniform_b_signed_range true RNG_default 6 wf_default eq_refl) as [H32 H64].
  split; [apply H32; lia | apply H64; lia].
Defined.

(** *** Counting what the signed loop accepts *)

(** A window shorter than [b] holds a given residue at most once. *)
Lemma count_residue_partial b v lo n :
  0 <= v < b -> 0 <= n <= b ->
  count_from (fun x => x mod b =? v) lo (Z.to_nat n)
  = if (v - lo) mod b <? n then 1%nat else 0%nat.
Proof.
  intros Hv Hn. set (d := (v - lo) mod b).
  assert (Hd : 0 <= d < b) by (apply Z.mod_pos_bound; lia).
  assert (Hr0 : (lo + d) mod b = v).
  { unfold d. rewrite Zplus_mod_idemp_r. replace (lo + (v - lo)) with v by ring.
    apply Z.mod_small, Hv. }
  assert (Honly : forall x, lo <= x < lo + n -> x mod b = v -> x = lo + d).
  { intros x Hx Hxv. apply (mod_eq_close b); lia. }
  destruct (Z.ltb_spec d n) as [Hlt|Hge].
  - replace (Z.to_nat n) with (Z.to_nat d + (1 + Z.to_nat (n - d - 1)))%nat by lia.
    rewrite !count_from_app.
    rewrite (count_from_ext _ (fun _ => false)), count_from_none.
    2:{ intros x Hx. apply Z.eqb_neq. intros Hxv. specialize (Honly x ltac:(lia) Hxv). lia. }
    rewrite (count_from_ext _ (fun _ => false) (Z.to_nat (n - d - 1))), count_from_none.
    2:{ intros x Hx. apply Z.eqb_neq. intros Hxv. specialize (Honly x ltac:(lia) Hxv). lia. }
    cbn [count_from]. replace (lo + Z.of_nat (Z.to_nat d)) with (lo + d) by lia.
    rewrite Hr0, Z.eqb_refl. reflexivity.
  - rewrite (count_from_ext _ (fun _ => false)), count_from_none; [reflexivity|].
    intros x Hx. apply Z.eqb_neq. intros Hxv. specialize (Honly x ltac:(lia) Hxv). lia.
Qed.

(** A residue class in a window of any length [n]: [n / b] members, and
    one more for the classes the incomplete last block reaches. *)
Lemma count_residue_window b v lo n :
  0 <= v < b -> 0 <= n ->
  count_from (fun x => x mod b =? v) lo (Z.to_nat n)
  = Z.to_nat (n / b + (if (v - lo) mod b <? n mod b then 1 else 0)).
Proof.
  intros Hv Hn.
  pose proof (Z.div_mod n b ltac:(lia)) as Hdm.
  pose proof (Z.mod_pos_bound n b ltac:(lia)) as Hm.
  assert (HN : 0 <= n / b) by (apply Z.div_pos; lia).
  replace (Z.to_nat n) with (Z.to_nat (n / b) * Z.to_nat b + Z.to_nat (n mod b))%nat.
  2:{ apply Nat2Z.inj. rewrite Nat2Z.inj_add, Nat2Z.inj_mul, !Z2Nat.id by lia. lia. }
  rewrite count_from_app, count_residue_blocks by exact Hv.
  rewrite count_residue_partial by lia.
  replace ((v - (lo + Z.of_nat (Z.to_nat (n / b) * Z.to_nat b))) mod b) with ((v - lo) mod b).
  2:{ rewrite Nat2Z.inj_mul, !Z2Nat.id by lia.
      replace (v - (lo + n / b * b)) with (v - lo + (- (n / b)) * b) by ring.
      symmetry. apply Z_mod_plus_full. }
  destruct (_ <? _); lia.
Qed.

(** All classes are equally frequent exactly when [b] divides the length. *)
Lemma count_residue_window_uniform b lo n :
  0 < b -> 0 <= n ->
  ((forall v w, 0 <= v < b -> 0 <= w < b ->
      count_from (fun x => x mod b =? v) lo (Z.to_nat n)
      = count_from (fun x => x mod b =? w) lo (Z.to_nat n))
   <-> n mod b = 0).
Proof.
  intros Hb Hn. pose proof (Z.mod_pos_bound n b Hb) as Hm.
  assert (HN : 0 <= n / b) by (apply Z.div_pos; lia).
  split.
  - intros Heq. destruct (Z.eq_dec (n mod b) 0) as [|Hnz]; [assumption|]. exfalso.
    specialize (Heq (lo mod b) ((lo + b - 1) mod b)
                    (Z.mod_pos_bound _ _ Hb) (Z.mod_pos_bound _ _ Hb)).
    rewrite !count_residue_window in Heq by (try apply Z.mod_pos_bound; lia).
    replace ((lo mod b - lo) mod b) with 0 in Heq.
    2:{ rewrite Zminus_mod_idemp_l. replace (lo - lo) with 0 by ring.
        symmetry. apply Z.mod_0_l. lia. }
    replace (((lo + b - 1) mod b - lo) mod b) with (b - 1) in Heq.
    2:{ rewrite Zminus_mod_idemp_l. replace (lo + b - 1 - lo) with (b - 1) by ring.
        symmetry. apply Z.mod_small. lia. }
    destruct (Z.ltb_spec 0 (n mod b)); [|lia].
    destruct (Z.ltb_spec (b - 1) (n mod b)); lia.
  - intros Hz v w Hv Hw. rewrite !count_residue_window by lia. rewrite Hz.
    pose proof (Z.mod_pos_bound (v - lo) b Hb). pose proof (Z.mod_pos_bound (w - lo) b Hb).
    destruct (Z.ltb_spec ((v - lo) mod b) 0); destruct (Z.ltb_spec ((w - lo) mod b) 0); lia.
Qed.

(** The raw words at which a signed loop returns are those in
    [[t, 2^(W-1))], and there it returns the word reduced modulo [b]. *)
Lemma loop_value_window conv W t b raw :
  1 <= W -> 0 < b -> 0 <= t <= 2 ^ (W - 1) ->
  conv raw = Ok (if raw <? 2 ^ (W - 1) then raw else raw - 2 ^ W) ->
  0 <= raw < 2 ^ W ->
  loop_value conv t b raw
  = if (t <=? raw) && (raw <? 2 ^ (W - 1)) then Some (raw mod b) else None.
Proof.
  intros HW Hb Ht Hconv Hraw. unfold loop_value. rewrite Hconv.
  assert (EW : 2 ^ W = 2 * 2 ^ (W - 1)).
  { rewrite <- Z.pow_succ_r by lia. f_equal. lia. }
  destruct (Z.ltb_spec raw (2 ^ (W - 1))) as [Hlow|Hhigh].
  - rewrite andb_true_r. destruct (Z.geb_spec raw t), (Z.leb_spec t raw); try lia.
    + rewrite Z.rem_mod_nonneg by lia. reflexivity.
    + reflexivity.
  - rewrite andb_false_r. destruct (Z.geb_spec (raw - 2 ^ W) t); [lia | reflexivity].
Qed.

Lemma accepted_signed_window conv W t b v :
  1 <= W -> 0 < b -> 0 <= t <= 2 ^ (W - 1) ->
  (forall raw, 0 <= raw < 2 ^ W ->
     conv raw = Ok (if raw <? 2 ^ (W - 1) then raw else raw - 2 ^ W)) ->
  accepted_signed conv W t b v
  = count_from (fun x => x mod b =? v) t (Z.to_nat (2 ^ (W - 1) - t)).
Proof.
  intros HW Hb Ht Hconv. unfold accepted_signed.
  assert (EW : 2 ^ W = 2 * 2 ^ (W - 1)).
  { rewrite <- Z.pow_succ_r by lia. f_equal. lia. }
  assert (HH : 0 < 2 ^ (W - 1)) by (apply Z.pow_pos_nonneg; lia).
  assert (Hval : forall x, 0 <= x < 2 ^ W ->
            loop_value conv t b x
            = if (t <=? x) && (x <? 2 ^ (W - 1)) then Some (x mod b) else None).
  { intros x Hx. apply (loop_value_window conv W); auto. }
  set (H := 2 ^ (W - 1)) in *.
  replace (Z.to_nat (2 ^ W)) with (Z.to_nat t + (Z.to_nat (H - t) + Z.to_nat H))%nat by lia.
  rewrite !count_from_app.
  rewrite (count_from_ext _ (fun _ => false)), count_from_none.
  2:{ intros x Hx. rewrite Hval by lia. destruct (Z.leb_spec t x); [lia|]. reflexivity. }
  rewrite (count_from_ext _ (fun x => x mod b =? v) (Z.to_nat (H - t))).
  2:{ intros x Hx. rewrite Hval by lia.
      destruct (Z.leb_spec t x); [|lia]. destruct (Z.ltb_spec x H); [|lia]. cbn [andb].
      destruct (Z.eqb_spec (x mod b) v) as [->|Hne].
      - apply bool_decide_eq_true_2. reflexivity.
      - apply bool_decide_eq_false_2. congruence. }
  rewrite (count_from_ext _ (fun _ => false) (Z.to_nat H)), count_from_none.
  2:{ intros x Hx. rewrite Hval by lia. destruct (Z.ltb_spec x H); [lia|].
      rewrite andb_false_r. reflexivity. }
  replace (0 + Z.of_nat (Z.to_nat t)) with t by lia. lia.
Qed.

Lemma mod_opp_zero a b : 0 < b -> ((- a) mod b = 0 <-> a mod b = 0).
Proof.
  intros Hb. rewrite !Z.mod_divide by lia. apply Z.divide_opp_r.
Qed.

(** X12.  [Uniform(b)] on [int32_t] does not remove the modulo bias.  The
    call returns at the first raw word of the stream that lies in
    [[t, 2^31)], [t = 2^32 mod b], with that word reduced modulo [b]; at
    every other raw word, all the negative variates among them, it draws
    again.  A value [v] of [[0, b)] is therefore produced by
    [(2^31 - t) / b] of the [2^32] raw words, or by one more; all values
    have the same number exactly when [b] divides [2^31], that is, when [b]
    is a power of two. *)
Theorem Uniform_b_i32_bias (debug : bool) (r : RNG) (b : Z) :
  0 < b < 2 ^ 31 ->
  (forall fuel v r',
     Uniform_b_i32 debug fuel r b = Ok (v, r')
     <-> exists n raw,
           (n < fuel)%nat
           /\ (forall j, (j < n)%nat ->
                 loop_value_i32 debug b (fst (Uniform_u32 (nth_gen Uniform_u32 j r))) = None)
           /\ Uniform_u32 (nth_gen Uniform_u32 n r) = (raw, r')
           /\ loop_value_i32 debug b raw = Some v)
  /\ (forall raw, 0 <= raw < 2 ^ 32 ->
        loop_value_i32 debug b raw
        = if (2 ^ 32 mod b <=? raw) && (raw <? 2 ^ 31) then Some (raw mod b) else None)
  /\ (forall v, 0 <= v < b ->
        accepted_preimages_i32 debug b v
        = Z.to_nat ((2 ^ 31 - 2 ^ 32 mod b) / b
                    + (if (v - 2 ^ 32 mod b) mod b <? (2 ^ 31 - 2 ^ 32 mod b) mod b
                       then 1 else 0)))
  /\ ((forall v w, 0 <= v < b -> 0 <= w < b ->
         accepted_preimages_i32 debug b v = accepted_preimages_i32 debug b w)
      <-> 2 ^ 31 mod b = 0).
Proof.
  intros Hb. pose proof (Z.mod_pos_bound (2 ^ 32) b ltac:(lia)) as Ht.
  assert (Hwin : forall v,
    accepted_preimages_i32 debug b v
    = count_from (fun x => x mod b =? v) (2 ^ 32 mod b) (Z.to_nat (2 ^ 31 - 2 ^ 32 mod b))).
  { intros v. unfold accepted_preimages_i32. rewrite threshold_i32_eq by exact Hb.
    apply (accepted_signed_window _ 32); [lia | lia | change (2 ^ (32 - 1)) with (2 ^ 31); lia |].
    intros raw Hraw. apply int32_of_raw_eq, Hraw. }
  split; [|split; [|split]].
  - intros fuel v r'. unfold Uniform_b_i32, loop_value_i32.
    apply (Uniform_signed_loop_first Uniform_u32 (int32_of_raw debug) to_int32
                                     (Uniform_i32 debug)).
    + intros r0. apply Uniform_i32_eq.
    + intros r0. apply int32_of_raw_eq. apply output_range.
  - intros raw Hraw. unfold loop_value_i32. rewrite threshold_i32_eq by exact Hb.
    change (2 ^ 31) with (2 ^ (32 - 1)).
    apply (loop_value_window _ 32);
      [lia | lia | change (2 ^ (32 - 1)) with (2 ^ 31); lia | | exact Hraw].
    apply int32_of_raw_eq, Hraw.
  - intros v Hv. rewrite Hwin. apply count_residue_window; lia.
  - setoid_rewrite Hwin. rewrite count_residue_window_uniform by lia.
    rewrite Zminus_mod_idemp_r. change (2 ^ 31 - 2 ^ 32) with (- 2 ^ 31).
    apply mod_opp_zero. lia.
Qed.

Lemma Uniform_b_i32_bias_witness :
  loop_value_i32 false 3 5
  = (if (2 ^ 32 mod 3 <=? 5) && (5 <? 2 ^ 31) then Some (5 mod 3) else None)
  /\ accepted_preimages_i32 false 3 1
     = Z.to_nat ((2 ^ 31 - 2 ^ 32 mod 3) / 3
                 + (if (1 - 2 ^ 32 mod 3) mod 3 <? (2 ^ 31 - 2 ^ 32 mod 3) mod 3
                    then 1 else 0)).
Proof.
  destruct (Uniform_b_i32_bias false RNG_default 3) as (_ & Hval & Hcount & _); [lia|].
  split; [apply Hval; lia | apply Hcount; lia].
Defined.

(** X13.  [Uniform(b)] on [int64_t] rejects nothing but the negative
    variates.  Its threshold is [0]: the call returns at the first raw
    64-bit word of the stream that lies in [[0, 2^63)], with that word
    reduced modulo [b], and draws again at every other.  A value [v] of
    [[0, b)] is produced by [2^63 / b] of the [2^64] raw words, or by one
    more if [v < 2^63 mod b].  The result is exactly uniform only when [b]
    divides [2^63]. *)
Theorem Uniform_b_i64_bias (debug : bool) (r : RNG) (b : Z) :
  0 < b < 2 ^ 63 ->
  (forall fuel v r',
     Uniform_b_i64 debug fuel r b = Ok (v, r')
     <-> exists n raw,
           (n < fuel)%nat
           /\ (forall j, (j < n)%nat ->
                 loop_value_i64 debug b (fst (Uniform_u64 (nth_gen Uniform_u64 j r))) = None)
           /\ Uniform_u64 (nth_gen Uniform_u64 n r) = (raw, r')
           /\ loop_value_i64 debug b raw = Some v)
  /\ (forall raw, 0 <= raw < 2 ^ 64 ->
        loop_value_i64 debug b raw = if raw <? 2 ^ 63 then Some (raw mod b) else None)
  /\ (forall v, 0 <= v < b ->
        accepted_preimages_i64 debug b v
        = Z.to_nat (2 ^ 63 / b + (if v <? 2 ^ 63 mod b then 1 else 0)))
  /\ ((forall v w, 0 <= v < b -> 0 <= w < b ->
         accepted_preimages_i64 debug b v = accepted_preimages_i64 debug b w)
      <-> 2 ^ 63 mod b = 0).
Proof.
  intros Hb.
  assert (Hwin : forall v,
    accepted_preimages_i64 debug b v
    = count_from (fun x => x mod b =? v) 0 (Z.to_nat (2 ^ 63))).
  { intros v. unfold accepted_preimages_i64. rewrite threshold_i64_eq by lia.
    rewrite (accepted_signed_window _ 64);
      [reflexivity | lia | lia | change (2 ^ (64 - 1)) with (2 ^ 63); lia |].
    intros raw Hraw. apply int64_of_raw_eq, Hraw. }
  split; [|split; [|split]].
  - intros fuel v r'. unfold Uniform_b_i64, loop_value_i64.
    apply (Uniform_signed_loop_first Uniform_u64 (int64_of_raw debug) to_int64
                                     (Uniform_i64 debug)).
    + intros r0. apply Uniform_i64_eq.
    + intros r0. apply int64_of_raw_eq. apply Uniform_u64_range.
  - intros raw Hraw. unfold loop_value_i64. rewrite threshold_i64_eq by lia.
    rewrite (loop_value_window _ 64 0 b raw);
      [| lia | lia | change (2 ^ (64 - 1)) with (2 ^ 63); lia
       | apply int64_of_raw_eq, Hraw | exact Hraw].
    change (2 ^ (64 - 1)) with (2 ^ 63).
    destruct (Z.leb_spec 0 raw); [reflexivity | lia].
  - intros v Hv. rewrite Hwin, count_residue_window by lia.
    replace ((v - 0) mod b) with v; [reflexivity|].
    rewrite Z.sub_0_r. symmetry. apply Z.mod_small, Hv.
  - setoid_rewrite Hwin. apply count_residue_window_uniform; lia.
Qed.

Lemma Uniform_b_i64_bias_witness :
  loop_value_i64 false 3 5 = (if 5 <? 2 ^ 63 then Some (5 mod 3) else None)
  /\ accepted_preimages_i64 false 3 1
     = Z.to_nat (2 ^ 63 / 3 + (if 1 <? 2 ^ 63 mod 3 then 1 else 0)).
Proof.
  destruct (Uniform_b_i64_bias false RNG_default 3) as (_ & Hval & Hcount & _); [lia|].
  split; [apply Hval; lia | apply Hcount; lia].
Defined.

End RNG.

(** ** Generator matrices (lowdiscrepancy.h) *)

Module LowDiscrepancy.

(** The value of a list of bits, least significant first. *)
Fixpoint of_bits (l : list bool) : Z :=
  match l with
  | [] => 0
  | b :: l' => Z.b2z b + 2 * of_bits l'
  end.

(** Modelled from the spec: [ReverseBits32] (its header is not among the
    sources; the tests call it).  Bit [j] of the result is bit [31 - j] of
    the 32-bit argument. *)
Definition ReverseBits32 (n : Z) : Z :=
  of_bits (map (fun j => Z.testbit n (31 - Z.of_nat j)) (seq 0 32)).

(** Modelled from the spec: [MultiplyGenerator] (same header).  "Given 32
    columns and an index [a], computes [v] = XOR of [columns[i]] where bit
    [i] of [a] is set". *)
Definition MultiplyGenerator (C : list Z) (a : Z) : Z :=
  fold_left (fun v i => if Z.testbit a (Z.of_nat i) then Z.lxor v (nth i C 0) else v)
            (seq 0 32) 0.

(** The identity matrix, column-wise: [C[i] = 1 << i]. *)
Definition identity_matrix : list Z := map (fun i => Z.shiftl 1 (Z.of_nat i)) (seq 0 32).

(** Some matrix that is not the identity. *)
Definition scrambled_matrix : list Z :=
  map (fun i => (Z.of_nat i * 2654435761 + 12345) mod 2 ^ 32) (seq 0 32).

Example ReverseBits32_examples :
  ReverseBits32 1 = 2 ^ 31 /\ ReverseBits32 (2 ^ 31) = 1
  /\ ReverseBits32 0x12345678 = 0x1E6A2C48.
Proof. repeat split; vm_compute; reflexivity. Qed.

Example MultiplyGenerator_examples :
  MultiplyGenerator identity_matrix 77 = 77
  /\ MultiplyGenerator (map ReverseBits32 identity_matrix) 1 = 2 ^ 31.
Proof. split; vm_compute; reflexivity. Qed.

Lemma lxor_double_b2z a b x y :
  Z.lxor (Z.b2z a + 2 * x) (Z.b2z b + 2 * y) = Z.b2z (xorb a b) + 2 * Z.lxor x y.
Proof.
  apply Z.bits_inj'. intros n Hn.
  rewrite Z.lxor_spec, !(Z.add_comm (Z.b2z _)).
  destruct (Z.eq_dec n 0) as [->|Hnz].
  - rewrite !Z.testbit_0_r. reflexivity.
  - replace n with (Z.succ (n - 1)) by lia.
    rewrite !Z.testbit_succ_r by lia. rewrite Z.lxor_spec. reflexivity.
Qed.

Lemma of_bits_lxor {A} (f g : A -> bool) (l : list A) :
  of_bits (map (fun i => xorb (f i) (g i)) l)
  = Z.lxor (of_bits (map f l)) (of_bits (map g l)).
Proof.
  induction l as [|i l IH]; [reflexivity|].
  cbn [map of_bits]. rewrite IH, lxor_double_b2z. reflexivity.
Qed.

(** Bit reversal is linear over GF(2). *)
Lemma ReverseBits32_lxor x y :
  ReverseBits32 (Z.lxor x y) = Z.lxor (ReverseBits32 x) (ReverseBits32 y).
Proof.
  unfold ReverseBits32. rewrite <- of_bits_lxor.
  f_equal. apply map_ext. intros j. apply Z.lxor_spec.
Qed.

Lemma ReverseBits32_0 : ReverseBits32 0 = 0.
Proof. reflexivity. Qed.

Lemma testbit_of_bits l j :
  Z.testbit (of_bits l) (Z.of_nat j) = nth j l false.
Proof.
  revert j. induction l as [|b l IH]; intros j.
  - destruct j; apply Z.bits_0.
  - cbn [of_bits]. rewrite Z.add_comm. destruct j as [|j].
    + apply Z.testbit_0_r.
    + rewrite Nat2Z.inj_succ, Z.testbit_succ_r by lia. apply IH.
Qed.

(** [ReverseBits32] does reverse: bit [j] of the result is bit [31 - j]. *)
Lemma ReverseBits32_testbit n j :
  (j < 32)%nat -> Z.testbit (ReverseBits32 n) (Z.of_nat j) = Z.testbit n (31 - Z.of_nat j).
Proof.
  intros Hj. unfold ReverseBits32. rewrite testbit_of_bits.
  rewrite (nth_indep _ false (Z.testbit n (31 - Z.of_nat 0))) by (rewrite length_map, length_seq; exact Hj).
  rewrite (map_nth (fun j => Z.testbit n (31 - Z.of_nat j))), seq_nth by exact Hj.
  reflexivity.
Qed.

Lemma MultiplyGenerator_reverse_gen C a (l : list nat) : forall v,
  ReverseBits32
    (fold_left (fun v i => if Z.testbit a (Z.of_nat i) then Z.lxor v (nth i C 0) else v) l v)
  = fold_left (fun v i => if Z.testbit a (Z.of_nat i)
                          then Z.lxor v (nth i (map ReverseBits32 C) 0) else v)
              l (ReverseBits32 v).
Proof.
  induction l as [|i l IH]; intros v; [reflexivity|].
  cbn [fold_left]. rewrite IH. f_equal.
  destruct (Z.testbit a (Z.of_nat i)); [|reflexivity].
  rewrite ReverseBits32_lxor. f_equal.
  rewrite <- ReverseBits32_0 at 2. symmetry. apply map_nth.
Qed.

(** The first [k] columns of the identity matrix rebuild the low [k] bits. *)
Lemma MultiplyGenerator_identity_prefix a (k : nat) :
  (k <= 32)%nat ->
  fold_left (fun v i => if Z.testbit a (Z.of_nat i)
                        then Z.lxor v (nth i identity_matrix 0) else v)
            (seq 0 k) 0
  = a mod 2 ^ Z.of_nat k.
Proof.
  induction k as [|k IH]; intros Hk.
  - cbn [seq fold_left]. change (2 ^ Z.of_nat 0) with 1. symmetry. apply Z.mod_1_r.
  - rewrite seq_S, fold_left_app, IH by lia. cbn [fold_left Nat.add].
    rewrite Nat2Z.inj_succ, <- Z.add_1_r, RNG.mod_pow2_succ by lia.
    assert (Hcol : nth k identity_matrix 0 = 2 ^ Z.of_nat k).
    { unfold identity_matrix.
      rewrite (nth_indep _ 0 (Z.shiftl 1 (Z.of_nat 0))) by (rewrite length_map, length_seq; lia).
      rewrite (map_nth (fun i => Z.shiftl 1 (Z.of_nat i))), seq_nth by lia.
      rewrite Z.shiftl_mul_pow2 by lia. cbn [Nat.add]. lia. }
    destruct (Z.testbit a (Z.of_nat k)); cbn [Z.b2z]; [|lia].
    rewrite Hcol, <- Z.add_nocarry_lxor; [lia|].
    rewrite RNG.land_pow2 by lia.
    replace (Z.testbit (a mod 2 ^ Z.of_nat k) (Z.of_nat k)) with false; [reflexivity|].
    symmetry. apply Z.mod_pow2_bits_high. lia.
Qed.

(** C9.  For a 32-bit index [a]: (1) the identity matrix gives
    [MultiplyGenerator(C, a) == a]; (2) for any matrix [C], with [Crev] its
    columns bit-reversed, [ReverseBits32(MultiplyGenerator(C, a)) ==
    MultiplyGenerator(Crev, a)]. *)
Theorem generator_matrix_laws (C : list Z) (a : Z) :
  0 <= a < 2 ^ 32 ->
  MultiplyGenerator identity_matrix a = a
  /\ ReverseBits32 (MultiplyGenerator C a) = MultiplyGenerator (map ReverseBits32 C) a.
Proof.
  intros Ha. split.
  - unfold MultiplyGenerator. rewrite (MultiplyGenerator_identity_prefix a 32) by lia.
    apply Z.mod_small. exact Ha.
  - unfold MultiplyGenerator. rewrite MultiplyGenerator_reverse_gen. reflexivity.
Qed.

Lemma generator_matrix_laws_witness :
  MultiplyGenerator identity_matrix 77 = 77
  /\ ReverseBits32 (MultiplyGenerator scrambled_matrix 77)
     = MultiplyGenerator (map ReverseBits32 scrambled_matrix) 77.
Proof. apply (generator_matrix_laws scrambled_matrix 77). lia. Defined.

End LowDiscrepancy.

(** ** Pixel samplers (sampler state machine) *)

Module PixelSampler.

Definition Pixel : Type := (Z * Z)%type.

(** The reading operations of a sampler. *)
Inductive Read : Type :=
  | Get1D
  | Get2D
  | Get1DArray (n : nat)
  | Get2DArray (n : nat).

Inductive Op : Type :=
  | Start (p : Pixel) (index : nat)
  | Do (r : Read).

(** Modelled from the spec: the number of regenerations a visiting order
    calls for, one per transition to a pixel that differs from the pixel of
    the previous [StartSequence] (the first call always counts: the sampler
    starts [Uninitialized]). *)
Fixpoint pixel_changes (previous : option Pixel) (ops : list Op) : nat :=
  match ops with
  | [] => 0
  | Start p _ :: ops' =>
      (if bool_decide (previous = Some p) then 0 else 1) + pixel_changes (Some p) ops'
  | Do _ :: ops' => pixel_changes previous ops'
  end.

Section Machine.

(** Sample values; "bit-identical" is equality in [Float]. *)
Variable Float : Type.

(** The per-pixel table of precomputed samples. *)
Variable Table : Type.

(** Modelled from the spec: [PixelSampler::GeneratePixelSamples] as
    [StartSequence] invokes it (sampler.h/.cpp and the concrete samplers are
    not among the sources; only their tests are).  It fills "the entire
    per-pixel sample table".  The declaration in maxmin.h is
    [void GeneratePixelSamples(RNG &rng)]; which generator [StartSequence]
    hands over is not in the sources, and here the table built is taken to
    depend on the pixel only.  The count of invocations does not depend on
    this; the replay lemma below does. *)
Variable GeneratePixelSamples : Pixel -> Table.

(** Modelled from the spec: what the reading operations find in the table
    at the current sample index and cursor. *)
Variable sample1D : Table -> nat -> nat -> Float.
Variable sample2D : Table -> nat -> nat -> Float * Float.
Variable array1D : Table -> nat -> nat -> nat -> list Float.
Variable array2D : Table -> nat -> nat -> nat -> list (Float * Float).

Inductive Value : Type :=
  | V1D (x : Float)
  | V2D (p : Float * Float)
  | VArray1D (xs : list Float)
  | VArray2D (ps : list (Float * Float)).

(** Modelled from the spec: the sampler state of section 4.3.  [calls]
    counts the invocations of [GeneratePixelSamples], as the test's
    subclass does. *)
Record Sampler : Type := mkSampler {
  currentPixel : option Pixel;
  table : option Table;
  sampleIndex : nat;
  current1D : nat;
  current2D : nat;
  array1DOffset : nat;
  array2DOffset : nat;
  calls : nat
}.

(** The [Uninitialized] state. *)
Definition init : Sampler := mkSampler None None 0 0 0 0 0 0.

(** Modelled from the spec: "if [pixel != lastPixel], regenerate the entire
    per-pixel sample table via [GeneratePixelSamples]; always reset
    per-sequence cursors to the start". *)
Definition StartSequence (p : Pixel) (index : nat) (s : Sampler) : Sampler :=
  if bool_decide (currentPixel s = Some p)
  then mkSampler (Some p) (table s) index 0 0 0 0 (calls s)
  else mkSampler (Some p) (Some (GeneratePixelSamples p)) index 0 0 0 0 (S (calls s)).

(** Modelled from the spec: a read returns the entry under its cursor and
    advances that cursor; before the first [StartSequence] there is no
    table and nothing to return. *)
Definition read (r : Read) (s : Sampler) : option Value * Sampler :=
  match table s with
  | None => (None, s)
  | Some t =>
      match r with
      | Get1D =>
          (Some (V1D (sample1D t (sampleIndex s) (current1D s))),
           mkSampler (currentPixel s) (table s) (sampleIndex s) (S (current1D s))
                     (current2D s) (array1DOffset s) (array2DOffset s) (calls s))
      | Get2D =>
          (Some (V2D (sample2D t (sampleIndex s) (current2D s))),
           mkSampler (currentPixel s) (table s) (sampleIndex s) (current1D s)
                     (S (current2D s)) (array1DOffset s) (array2DOffset s) (calls s))
      | Get1DArray n =>
          (Some (VArray1D (array1D t (sampleIndex s) (array1DOffset s) n)),
           mkSampler (currentPixel s) (table s) (sampleIndex s) (current1D s)
                     (current2D s) (S (array1DOffset s)) (array2DOffset s) (calls s))
      | Get2DArray n =>
          (Some (VArray2D (array2D t (sampleIndex s) (array2DOffset s) n)),
           mkSampler (currentPixel s) (table s) (sampleIndex s) (current1D s)
                     (current2D s) (array1DOffset s) (S (array2DOffset s)) (calls s))
      end
  end.

(** A sequence of reads: the values returned, in order, and the final state. *)
Fixpoint consume (rs : list Read) (s : Sampler) : list (option Value) * Sampler :=
  match rs with
  | [] => ([], s)
  | r :: rs' =>
      let '(v, s1) := read r s in
      let '(vs, s2) := consume rs' s1 in
      (v :: vs, s2)
  end.

Definition exec (o : Op) (s : Sampler) : Sampler :=
  match o with
  | Start p index => StartSequence p index s
  | Do r => snd (read r s)
  end.

(** The state after a sequence of operations. *)
Definition run (ops : list Op) (s : Sampler) : Sampler :=
  fold_left (fun s o => exec o s) ops s.

(** What a read depends on: everything but the call counter. *)
Definition view (s : Sampler) : option Table * nat * (nat * nat * nat * nat) :=
  (table s, sampleIndex s, (current1D s, current2D s, array1DOffset s, array2DOffset s)).

(** The table held is the table of the current pixel. *)
Definition consistent (s : Sampler) : Prop :=
  table s = GeneratePixelSamples <$> currentPixel s.

Lemma consistent_init : consistent init.
Proof. reflexivity. Qed.

Lemma consistent_StartSequence p index s :
  consistent s -> consistent (StartSequence p index s).
Proof.
  unfold consistent, StartSequence. intros H. case_bool_decide as Hp; cbn.
  - rewrite H, Hp. reflexivity.
  - reflexivity.
Qed.

Lemma consistent_read r s : consistent s -> consistent (snd (read r s)).
Proof.
  unfold consistent, read. intros H. destruct (table s) as [t|] eqn:Ht.
  - destruct r; cbn; exact H.
  - cbn. rewrite Ht. exact H.
Qed.

Lemma consistent_run ops : forall s, consistent s -> consistent (run ops s).
Proof.
  induction ops as [|o ops IH]; intros s Hs; [exact Hs|].
  apply IH. destruct o; [apply consistent_StartSequence | apply consistent_read]; exact Hs.
Qed.

(** After [StartSequence(p, index)] a consistent sampler shows the same
    view whatever it did before. *)
Lemma view_StartSequence p index s :
  consistent s ->
  view (StartSequence p index s) = (Some (GeneratePixelSamples p), index, (0, 0, 0, 0))%nat.
Proof.
  unfold consistent, StartSequence, view. intros H. case_bool_decide as Hp; cbn.
  - rewrite H, Hp. reflexivity.
  - reflexivity.
Qed.

Lemma read_view r s s' :
  view s = view s' ->
  fst (read r s) = fst (read r s') /\ view (snd (read r s)) = view (snd (read r s')).
Proof.
  unfold view, read. intros [= Ht Hi H1 H2 H3 H4]. rewrite Ht.
  destruct (table s') as [t|] eqn:Ht'.
  - destruct r; cbn; rewrite ?Hi, ?H1, ?H2, ?H3, ?H4, ?Ht; split; reflexivity.
  - cbn. rewrite Ht, Ht', Hi, H1, H2, H3, H4. split; reflexivity.
Qed.

Lemma consume_view rs : forall s s',
  view s = view s' -> fst (consume rs s) = fst (consume rs s').
Proof.
  induction rs as [|r rs IH]; intros s s' Hv; [reflexivity|].
  cbn [consume]. destruct (read_view r s s' Hv) as [Hout Hnext].
  destruct (read r s) as [v s1], (read r s') as [v' s1']. cbn [fst snd] in *.
  specialize (IH s1 s1' Hnext).
  destruct (consume rs s1) as [vs s2], (consume rs s1') as [vs' s2']. cbn [fst] in *.
  congruence.
Qed.

(** Replay, for a sampler whose table is a function of the pixel.
    Whatever the sampler did before ([history]): start [(p, index)] and
    consume a fixed sequence of [Get1D/Get2D/Get1DArray/Get2DArray] calls;
    then do anything else, visiting other keys and reading there
    ([elsewhere]); then start [(p, index)] again and replay the same
    consumption: the values are identical to those of the first visit. *)
Theorem bit_exact_replay (history : list Op) (p : Pixel) (index : nat)
    (consumption : list Read) (elsewhere : list Op) :
  let first_visit := consume consumption (StartSequence p index (run history init)) in
  let second_visit :=
    consume consumption (StartSequence p index (run elsewhere (snd first_visit))) in
  fst second_visit = fst first_visit.
Proof.
  cbv zeta. apply consume_view.
  assert (H1 : consistent (run history init)) by (apply consistent_run, consistent_init).
  assert (H2 : consistent (snd (consume consumption (StartSequence p index (run history init))))).
  { generalize (consistent_StartSequence p index _ H1).
    generalize (StartSequence p index (run history init)).
    induction consumption as [|r rs IH]; intros s Hs; [exact Hs|].
    cbn [consume]. pose proof (consistent_read r s Hs) as Hr.
    destruct (read r s) as [v s1]. cbn [snd] in Hr. specialize (IH s1 Hr).
    destruct (consume rs s1) as [vs s2]. exact IH. }
  rewrite !view_StartSequence; [reflexivity | exact H1 | apply consistent_run, H2].
Qed.

Lemma calls_read r s : calls (snd (read r s)) = calls s.
Proof. unfold read. destruct (table s); [destruct r|]; reflexivity. Qed.

Lemma calls_run ops : forall s,
  calls (run ops s) = (calls s + pixel_changes (currentPixel s) ops)%nat.
Proof.
  induction ops as [|o ops IH]; intros s; [cbn; lia|].
  change (run (o :: ops) s) with (run ops (exec o s)). rewrite IH.
  destruct o as [p index|r]; cbn [exec pixel_changes].
  - unfold StartSequence. case_bool_decide; cbn [calls currentPixel]; lia.
  - rewrite calls_read. f_equal. f_equal.
    unfold read. destruct (table s); [destruct r|]; reflexivity.
Qed.

(** C6.  On a fresh pixel sampler, [GeneratePixelSamples] has been invoked
    once per [StartSequence] whose pixel differs from the previous call's
    pixel, and never otherwise (not on a change of sample index alone, not
    by a read); visiting (p0,0),(p0,1),(p0,10),(p1,4),(p0,11) invokes it 3
    times. *)
Theorem GeneratePixelSamples_call_count :
  (forall ops, calls (run ops init) = pixel_changes None ops)
  /\ (forall p index s,
        currentPixel s = Some p -> calls (StartSequence p index s) = calls s)
  /\ calls (run [Start (0, 0) 0; Start (0, 0) 1; Start (0, 0) 10; Start (1, 0) 4;
                 Start (0, 0) 11] init) = 3%nat.
Proof.
  split; [|split].
  - intros ops. rewrite calls_run. reflexivity.
  - intros p index s Hp. unfold StartSequence.
    rewrite bool_decide_eq_true_2 by exact Hp. reflexivity.
  - rewrite calls_run. reflexivity.
Qed.

End Machine.

(** A sampler to run: the table of a pixel is the pixel itself, and each
    entry encodes where it was read from. *)
Definition toy1D (t : Pixel) (index cursor : nat) : Z :=
  (fst t * 100 + snd t) * 10000 + Z.of_nat index * 100 + Z.of_nat cursor.
Definition toy2D (t : Pixel) (index cursor : nat) : Z * Z :=
  (toy1D t index cursor, - toy1D t index cursor).
Definition toyArray1D (t : Pixel) (index offset n : nat) : list Z :=
  map (fun k => toy1D t index (1000 * offset + k)) (seq 0 n).
Definition toyArray2D (t : Pixel) (index offset n : nat) : list (Z * Z) :=
  map (fun k => toy2D t index (1000 * offset + k)) (seq 0 n).

(** The visiting order of the test: sample 3 of pixel (1, 5), then pixel
    (0, 6), then back. *)
Example replay_example :
  let start15 := StartSequence Pixel (fun p => p) (1, 5) 3 in
  let reads := [Get2D; Get1D; Get2D; Get1DArray 2; Get2DArray 1] in
  let first := consume Z Pixel toy1D toy2D toyArray1D toyArray2D reads
                       (start15 (init Pixel)) in
  let away := run Z Pixel (fun p => p) toy1D toy2D toyArray1D toyArray2D
                  [Start (0, 6) 10; Do Get2D; Do Get2D; Do Get1D] (snd first) in
  let second := consume Z Pixel toy1D toy2D toyArray1D toyArray2D reads (start15 away) in
  fst second = fst first
  /\ calls Pixel (snd second) = 3%nat
  /\ nth 1 (fst first) None = Some (V1D Z 1050300).
Proof. vm_compute. repeat split. Qed.

End PixelSampler.

(** ** samplers/maxmin.h *)

Module MaxMinDist.

(** Modelled from the spec: [Log2Int] (pbrt.h is not among the sources), the
    integer base-2 logarithm that indexes the table "by log2(requested
    sample count)". *)
Definition Log2Int (v : Z) : Z := Z.log2 v.

(** Modelled from the spec: [IsPowerOf2] (same header). *)
Definition IsPowerOf2 (v : Z) : bool := (0 <? v) && (v =? 2 ^ Z.log2 v).

(** Modelled from the spec: [RoundUpPow2] (same header), "round up to a
    power of two". *)
Definition RoundUpPow2 (v : Z) : Z := 2 ^ Z.log2_up v.

Inductive Warning : Type :=
  | NoMoreThanSupported (limit : Z)
  | RoundedUpPow2 (spp : Z).

(** The lambda that computes the base-class sample count.  [nC] is
    [sizeof(CMaxMinDist) / sizeof(CMaxMinDist[0])], the number of rows of
    the table (declared in a header that is not among the sources). *)
Definition rounded_spp (nC spp : Z) : Z * list Warning :=
  let Cindex := Log2Int spp in
  let '(spp1, w1) :=
    if Cindex >=? nC
    then (Z.shiftl 1 nC - 1, [NoMoreThanSupported (Z.shiftl 1 nC - 1)])
    else (spp, []) in
  let '(spp2, w2) :=
    if negb (IsPowerOf2 spp1)
    then (RoundUpPow2 spp1, [RoundedUpPow2 (RoundUpPow2 spp1)])
    else (spp1, []) in
  (spp2, w1 ++ w2).

Record MaxMinDistSampler : Type := mkSampler {
  samplesPerPixel : Z;      (* the base class's count *)
  nSampledDimensions : Z;
  CPixel : Z                (* the row of [CMaxMinDist] in use *)
}.

(** [MaxMinDistSampler::MaxMinDistSampler(samplesPerPixel, nSampledDimensions)]:
    the warnings logged, and the object built or the fatal [CHECK].  In the
    constructor body [samplesPerPixel] is the constructor's parameter, which
    hides the base-class member of the same name. *)
Definition construct (nC samplesPerPixel nSampledDimensions : Z)
  : list Warning * result MaxMinDistSampler :=
  let '(spp, warnings) := rounded_spp nC samplesPerPixel in
  let Cindex := Log2Int samplesPerPixel in
  if (Cindex >=? 0) && (Cindex <? nC)
  then (warnings, Ok (mkSampler spp nSampledDimensions Cindex))
  else (warnings, CheckFailed).

Example construct_16 :
  construct 17 16 4 = ([], Ok (mkSampler 16 4 4)).
Proof. reflexivity. Qed.

Example construct_non_pow2 :
  construct 17 100 4 = ([RoundedUpPow2 128], Ok (mkSampler 128 4 6)).
Proof. reflexivity. Qed.

Lemma log2_up_pow2_pred n : 2 <= n -> Z.log2_up (2 ^ n - 1) = n.
Proof.
  intros Hn. apply Z.log2_up_unique; [lia|].
  assert (2 ^ n = 2 * 2 ^ (n - 1)).
  { rewrite <- Z.pow_succ_r by lia. f_equal. lia. }
  assert (2 <= 2 ^ (n - 1)).
  { change 2 with (2 ^ 1) at 1. apply Z.pow_le_mono_r; lia. }
  replace (Z.pred n) with (n - 1) by lia. lia.
Qed.

Lemma pow2_pred_not_pow2 n : 2 <= n -> IsPowerOf2 (2 ^ n - 1) = false.
Proof.
  intros Hn. unfold IsPowerOf2. apply andb_false_iff. right. apply Z.eqb_neq.
  assert (H2 : 2 ^ n = 2 * 2 ^ (n - 1)).
  { rewrite <- Z.pow_succ_r by lia. f_equal. lia. }
  assert (H1 : 2 <= 2 ^ (n - 1)).
  { change 2 with (2 ^ 1) at 1. apply Z.pow_le_mono_r; lia. }
  rewrite (Z.log2_unique _ (n - 1)); [lia | lia |].
  replace (Z.succ (n - 1)) with n by lia. lia.
Qed.

(** C7, what the code does with a request beyond the table.  For a table of
    [nC >= 2] rows and any request of [2^nC] samples or more: the count is
    set to [2^nC - 1] with a warning, then rounded up to [2^nC] with a second
    warning, and then the constructor's [CHECK] on the table index fails. *)
Theorem construct_oversized_request (nC spp dims : Z) :
  2 <= nC <= 30 -> 2 ^ nC <= spp < 2 ^ 31 ->
  construct nC spp dims
  = ([NoMoreThanSupported (2 ^ nC - 1); RoundedUpPow2 (2 ^ nC)], CheckFailed).
Proof.
  intros [HnC _] [Hspp _]. unfold construct, rounded_spp, Log2Int.
  assert (Hlog : nC <= Z.log2 spp).
  { rewrite <- (Z.log2_pow2 nC) by lia. apply Z.log2_le_mono. exact Hspp. }
  destruct (Z.geb_spec (Z.log2 spp) nC) as [_|]; [|lia].
  rewrite Z.shiftl_mul_pow2, Z.mul_1_l by lia.
  rewrite pow2_pred_not_pow2 by exact HnC. cbn [negb app].
  unfold RoundUpPow2. rewrite log2_up_pow2_pred by exact HnC.
  destruct (Z.ltb_spec (Z.log2 spp) nC); [lia|].
  rewrite andb_false_r. reflexivity.
Qed.

Lemma construct_oversized_request_witness :
  construct 17 131072 4
  = ([NoMoreThanSupported (2 ^ 17 - 1); RoundedUpPow2 (2 ^ 17)], CheckFailed).
Proof. apply (construct_oversized_request 17 131072 4); lia. Defined.

(** Within the table a request that is not a power of two is rounded up to
    the next one, with a warning, and the constructor succeeds. *)
Lemma construct_rounds_up (nC spp dims : Z) :
  0 < spp -> Z.log2 spp < nC -> IsPowerOf2 spp = false ->
  construct nC spp dims
  = ([RoundedUpPow2 (RoundUpPow2 spp)],
     Ok (mkSampler (RoundUpPow2 spp) dims (Z.log2 spp))).
Proof.
  intros Hpos Hlog Hnp. unfold construct, rounded_spp, Log2Int.
  destruct (Z.geb_spec (Z.log2 spp) nC); [lia|]. rewrite Hnp. cbn [negb app].
  pose proof (Z.log2_nonneg spp).
  destruct (Z.geb_spec (Z.log2 spp) 0); [|lia].
  destruct (Z.ltb_spec (Z.log2 spp) nC); [|lia]. reflexivity.
Qed.

Lemma IsPowerOf2_spec v : 0 < v -> (IsPowerOf2 v = true <-> Z.log2 v = Z.log2_up v).
Proof.
  intros Hv. unfold IsPowerOf2. destruct (Z.ltb_spec 0 v); [|lia]. cbn [andb].
  rewrite Z.eqb_eq. rewrite Z.log2_log2_up_exact by exact Hv. split.
  - intros E. exists (Z.log2 v). exact E.
  - intros [b ->]. destruct (Z.le_gt_cases 0 b) as [Hb|Hb].
    + rewrite Z.log2_pow2 by exact Hb. reflexivity.
    + rewrite Z.pow_neg_r in Hv by exact Hb. lia.
Qed.

(** X24.  A request within the table, [1 <= spp < 2^nC].  The constructor
    succeeds; the base class gets the least power of two that is at least
    [spp], with a warning exactly when [spp] is not itself a power of two;
    but the table row [CPixel] is chosen by the logarithm of the request
    as it was passed in.  So for a power of two the sample count is
    [2^CPixel], and for any other request it is [2 * 2^CPixel]. *)
Theorem construct_in_range (nC spp dims : Z) :
  1 <= spp < 2 ^ nC ->
  exists warnings,
    construct nC spp dims
    = (warnings, Ok (mkSampler (2 ^ Z.log2_up spp) dims (Z.log2 spp)))
    /\ (warnings = [] <-> IsPowerOf2 spp = true)
    /\ spp <= 2 ^ Z.log2_up spp
    /\ (IsPowerOf2 spp = true -> 2 ^ Z.log2_up spp = spp /\ 2 ^ Z.log2 spp = spp)
    /\ (IsPowerOf2 spp = false -> 2 ^ Z.log2_up spp = 2 * 2 ^ Z.log2 spp).
Proof.
  intros [Hlo Hhi].
  assert (Hlog : Z.log2 spp < nC) by (apply Z.log2_lt_pow2; lia).
  pose proof (Z.log2_nonneg spp) as Hnn.
  pose proof (IsPowerOf2_spec spp ltac:(lia)) as Hpow.
  assert (Hup : spp <= 2 ^ Z.log2_up spp).
  { destruct (Z.eq_dec spp 1) as [->|]; [cbn; lia|]. apply Z.log2_up_spec. lia. }
  unfold construct, rounded_spp, Log2Int, RoundUpPow2.
  destruct (Z.geb_spec (Z.log2 spp) nC); [lia|].
  destruct (Z.geb_spec (Z.log2 spp) 0); [|lia].
  destruct (Z.ltb_spec (Z.log2 spp) nC); [|lia]. cbn [andb].
  destruct (IsPowerOf2 spp) eqn:Eip; cbn [negb app].
  - assert (E : Z.log2 spp = Z.log2_up spp) by (apply Hpow; reflexivity).
    assert (Ev : 2 ^ Z.log2 spp = spp).
    { unfold IsPowerOf2 in Eip. apply andb_true_iff in Eip as [_ Eip].
      apply Z.eqb_eq in Eip. symmetry. exact Eip. }
    exists []. rewrite <- E, Ev. split; [reflexivity|]. split; [tauto|]. split; [lia|].
    split; [auto | intros Hf; discriminate Hf].
  - exists [RoundedUpPow2 (2 ^ Z.log2_up spp)].
    split; [reflexivity|]. split; [split; intros Hf; discriminate Hf|]. split; [exact Hup|].
    split; [intros Hf; discriminate Hf|]. intros _.
    assert (Hne : Z.log2 spp <> Z.log2_up spp).
    { intros E. apply Hpow in E. congruence. }
    pose proof (Z.le_log2_log2_up spp). pose proof (Z.le_log2_up_succ_log2 spp).
    replace (Z.log2_up spp) with (Z.succ (Z.log2 spp)) by lia.
    apply Z.pow_succ_r. exact Hnn.
Qed.

Lemma construct_in_range_witness :
  exists warnings,
    construct 17 100 4 = (warnings, Ok (mkSampler (2 ^ Z.log2_up 100) 4 (Z.log2 100)))
    /\ (warnings = [] <-> IsPowerOf2 100 = true)
    /\ 100 <= 2 ^ Z.log2_up 100
    /\ (IsPowerOf2 100 = true -> 2 ^ Z.log2_up 100 = 100 /\ 2 ^ Z.log2 100 = 100)
    /\ (IsPowerOf2 100 = false -> 2 ^ Z.log2_up 100 = 2 * 2 ^ Z.log2 100).
Proof. apply (construct_in_range 17 100 4). lia. Defined.

End MaxMinDist.

(** ** util/buffercache.h *)

Module BufferCache.

#[local] Instance byte_eq_dec : EqDecision byte := Byte.byte_eq_dec.

(** [BufferId]: the hash of a buffer's bytes and its size in bytes. *)
Definition BufferId : Type := (Z * nat)%type.

(** The [std::vector<T>] handed to the cache, as its raw bytes ([T] has no
    padding) and its capacity in bytes. *)
Record vector : Type := mkVector { data : list byte; capacity : nat }.

(** A [BufferCache] and the statistics it feeds.  [heap] holds the
    [pstd::vector]s the cache has allocated, in allocation order; the
    pointer the cache hands out for one of them is its position there.
    The three statistics ([STAT_PERCENT], [STAT_MEMORY_COUNTER]) are
    counters of the namespace, shared by all caches: the record carries
    their values through the calls made on this cache. *)
Record BufferCache : Type := mkCache {
  cache : gmap BufferId nat;
  heap : list (list byte);
  nBufferCacheLookups : nat;
  nBufferCacheHits : nat;
  redundantBufferBytes : nat
}.

(** [BufferCache(alloc)]: no entries and nothing allocated, in a program
    whose statistics have not moved yet. *)
Definition empty : BufferCache := mkCache ∅ [] 0 0 0.

(** [std::memcmp(a, b, n) == 0] *)
Definition memcmp_equal (a b : list byte) (n : nat) : bool :=
  bool_decide (take n a = take n b).

(** The hit branch: [DCHECK] (debug builds only) that the stored bytes are
    the presented ones, then count the hit and return the stored pointer. *)
Definition on_hit (debug : bool) (buf : vector) (p : nat) (c : BufferCache)
  : result (nat * BufferCache) :=
  let same :=
    match heap c !! p with
    | Some stored => memcmp_equal (data buf) stored (length (data buf))
    | None => false
    end in
  if debug && negb same then CheckFailed
  else Ok (p, mkCache (cache c) (heap c) (nBufferCacheLookups c)
                      (S (nBufferCacheHits c))
                      (redundantBufferBytes c + capacity buf)).

(** The miss branch: allocate a copy, enter it under [id], return it. *)
Definition on_miss (buf : vector) (id : BufferId) (c : BufferCache) : nat * BufferCache :=
  let p := length (heap c) in
  (p, mkCache (<[id := p]> (cache c)) (heap c ++ [data buf]) (nBufferCacheLookups c)
              (nBufferCacheHits c) (redundantBufferBytes c)).

(** [++nBufferCacheLookups] *)
Definition count_lookup (c : BufferCache) : BufferCache :=
  mkCache (cache c) (heap c) (S (nBufferCacheLookups c)) (nBufferCacheHits c)
          (redundantBufferBytes c).

(** The state a hit leaves: only the statistics move. *)
Definition after_hit (buf : vector) (c : BufferCache) : BufferCache :=
  mkCache (cache c) (heap c) (S (nBufferCacheLookups c)) (S (nBufferCacheHits c))
          (redundantBufferBytes c + capacity buf).

(** [BufferCache::Clear()]: every stored vector is deleted and the map is
    emptied.  The statistics are global counters and stay. *)
Definition Clear (c : BufferCache) : BufferCache :=
  mkCache ∅ [] (nBufferCacheLookups c) (nBufferCacheHits c) (redundantBufferBytes c).

(** [item.second->capacity() * sizeof(T)] for an entry pointing at [p].
    [stored_capacity] is the capacity, in bytes, of the [pstd::vector] that
    [new_object] builds from a range holding the given bytes ([pstd.h] is
    not among the sources). *)
Definition entry_bytes (stored_capacity : list byte -> nat) (c : BufferCache) (p : nat)
  : nat :=
  match heap c !! p with
  | Some stored => stored_capacity stored
  | None => 0
  end.

(** [BufferCache::BytesUsed()] *)
Definition BytesUsed (stored_capacity : list byte -> nat) (c : BufferCache) : nat :=
  sum_list_with (fun item => entry_bytes stored_capacity c (snd item))
                (map_to_list (cache c)).

(** Two caches that differ in the statistics at most. *)
Definition same_store (c c' : BufferCache) : Prop :=
  cache c = cache c' /\ heap c = heap c'.

(** What a caller sees of a run of calls: the pointers, or the failure. *)
Definition returned_pointers (r : result (list nat * BufferCache)) : result (list nat) :=
  match r with
  | Ok (ps, _) => Ok ps
  | CheckFailed => CheckFailed
  | OutOfFuel => OutOfFuel
  end.

(** *** Concurrent callers

    Threads run [LookupOrAdd] statement by statement and are interleaved
    by a schedule.  [mutex] is the [std::mutex] member, held by at most one
    thread; [lock_guard] takes it before [cache.find] and releases it when
    the function returns. *)

(** Where a thread stands in [LookupOrAdd]. *)
Inductive pc : Type :=
  | AtEntry                (* before [BufferId id(...)] *)
  | Hashed                 (* id computed, lookup counted; at [lock_guard] *)
  | Locked                 (* holds the mutex; at [cache.find(id)] *)
  | Found (p : nat)        (* [iter != cache.end()] *)
  | NotFound               (* [iter == cache.end()] *)
  | Inserted               (* [cache[id]] assigned; at the final [return] *)
  | Returned (p : nat)     (* returned [p]; the mutex is released *)
  | Aborted.               (* the [DCHECK] failed *)

Record thread : Type := mkThread { arg : vector; at_ : pc }.

Record config : Type := mkConfig {
  mem : BufferCache;
  mutex : option nat;      (* the thread holding the mutex *)
  threads : list thread
}.

(** The threads have been handed their buffers; nobody has started. *)
Definition start (c : BufferCache) (bufs : list vector) : config :=
  mkConfig c None ((fun buf => mkThread buf AtEntry) <$> bufs).

Definition move (i : nat) (t : thread) (a : pc) (m : BufferCache) (mu : option nat)
    (cfg : config) : config :=
  mkConfig m mu (<[i := mkThread (arg t) a]> (threads cfg)).




(** A 64-bit checksum to run the cache on. *)
Definition checksum (bytes : list byte) : Z :=
  fold_right (fun b acc => (Z.of_N (Byte.to_N b) + 31 * acc) mod 2 ^ 64) 0 bytes.

Definition abc : vector := mkVector ["a"; "b"; "c"]%byte 4.
Definition abd : vector := mkVector ["a"; "b"; "d"]%byte 3.

(** The same bytes in a vector of another capacity. *)
Definition abc' : vector := mkVector ["a"; "b"; "c"]%byte 8.

(** The cache after one call with [abc] on a fresh cache. *)
Definition after_abc : BufferCache :=
  snd (on_miss abc (checksum (data abc), length (data abc)) (count_lookup empty)).

(** *** Byte strings of numbers *)

Definition byte_of (z : Z) : byte :=
  default "000"%byte (Byte.of_N (Z.to_N (z mod 256))).

(** [z] in [n] little-endian bytes. *)
Fixpoint encode (n : nat) (z : Z) : list byte :=
  match n with
  | O => []
  | S n' => byte_of z :: encode n' (z / 256)
  end.

Fixpoint decode (l : list byte) : Z :=
  match l with
  | [] => 0
  | b :: l' => Z.of_N (Byte.to_N b) + 256 * decode l'
  end.

Section Cache.

(** [HashBuffer] (util/hash.h), a 64-bit hash of the bytes; its definition
    is not among the sources. *)
Variable HashBuffer : list byte -> Z.

(** [BufferId(ptr, size)] *)
Definition BufferId_of (bytes : list byte) : BufferId := (HashBuffer bytes, length bytes).

(** [BufferCache::LookupOrAdd(buf)], run by one thread at a time. *)
Definition LookupOrAdd (debug : bool) (buf : vector) (c : BufferCache)
  : result (nat * BufferCache) :=
  let id := BufferId_of (data buf) in
  let c := count_lookup c in
  match cache c !! id with
  | Some p => on_hit debug buf p c
  | None => Ok (on_miss buf id c)
  end.

(** A sequence of calls; the pointers returned, in order. *)
Fixpoint LookupOrAdd_all (debug : bool) (bufs : list vector) (c : BufferCache)
  : result (list nat * BufferCache) :=
  match bufs with
  | [] => Ok ([], c)
  | buf :: bufs' =>
      match LookupOrAdd debug buf c with
      | Ok (p, c1) =>
          match LookupOrAdd_all debug bufs' c1 with
          | Ok (ps, c2) => Ok (p :: ps, c2)
          | CheckFailed => CheckFailed
          | OutOfFuel => OutOfFuel
          end
      | CheckFailed => CheckFailed
      | OutOfFuel => OutOfFuel
      end
  end.

(** The map and the allocations agree: every entry points at a stored copy
    whose [BufferId] is the key, and every stored copy is entered. *)
Definition cache_ok (c : BufferCache) : Prop :=
  (forall id p, cache c !! id = Some p ->
                exists stored, heap c !! p = Some stored /\ BufferId_of stored = id)
  /\ (forall p stored, heap c !! p = Some stored -> cache c !! BufferId_of stored = Some p).

(** [c'] keeps what [c] holds. *)
Definition extends (c c' : BufferCache) : Prop :=
  (forall id p, cache c !! id = Some p -> cache c' !! id = Some p)
  /\ (forall p stored, heap c !! p = Some stored -> heap c' !! p = Some stored).

(** One statement of thread [i]; [None] when the thread does not exist,
    waits for the mutex, or has finished.  The statistics counters are
    bumped in one step each. *)
Definition step (debug : bool) (i : nat) (cfg : config) : option config :=
  match threads cfg !! i with
  | None => None
  | Some t =>
      let id := BufferId_of (data (arg t)) in
      match at_ t with
      | AtEntry => Some (move i t Hashed (count_lookup (mem cfg)) (mutex cfg) cfg)
      | Hashed =>
          match mutex cfg with
          | None => Some (move i t Locked (mem cfg) (Some i) cfg)
          | Some _ => None
          end
      | Locked =>
          match cache (mem cfg) !! id with
          | Some p => Some (move i t (Found p) (mem cfg) (mutex cfg) cfg)
          | None => Some (move i t NotFound (mem cfg) (mutex cfg) cfg)
          end
      | Found p =>
          match on_hit debug (arg t) p (mem cfg) with
          | Ok (q, m) => Some (move i t (Returned q) m None cfg)
          | _ => Some (move i t Aborted (mem cfg) (mutex cfg) cfg)
          end
      | NotFound =>
          Some (move i t Inserted (snd (on_miss (arg t) id (mem cfg))) (mutex cfg) cfg)
      | Inserted =>
          match cache (mem cfg) !! id with
          | Some p => Some (move i t (Returned p) (mem cfg) None cfg)
          | None => None
          end
      | Returned _ | Aborted => None
      end
  end.

(** Run a schedule: the listed threads take one step each, in order; a
    thread that cannot step is passed over. *)
Definition run_schedule (debug : bool) (schedule : list nat) (cfg : config) : config :=
  fold_left (fun cfg i => default cfg (step debug i cfg)) schedule cfg.

(** The entry for [content], if there is one, holds [content]. *)
Definition holds_content (content : list byte) (m : BufferCache) : Prop :=
  forall p, cache m !! BufferId_of content = Some p -> heap m !! p = Some content.




Lemma cache_ok_empty : cache_ok empty.
Proof. split; intros ? ? H; cbn in H; [rewrite lookup_empty in H|]; discriminate. Qed.

Lemma extends_refl c : extends c c.
Proof. split; auto. Qed.

Lemma extends_trans c1 c2 c3 : extends c1 c2 -> extends c2 c3 -> extends c1 c3.
Proof. intros [A1 B1] [A2 B2]. split; auto. Qed.

Lemma memcmp_equal_same (a b : list byte) :
  length a = length b -> memcmp_equal a b (length a) = true -> a = b.
Proof.
  intros Hlen H. unfold memcmp_equal in H. apply bool_decide_eq_true_1 in H.
  rewrite firstn_all in H. rewrite Hlen, firstn_all in H. exact H.
Qed.

Lemma memcmp_equal_refl (a : list byte) n : memcmp_equal a a n = true.
Proof. unfold memcmp_equal. apply bool_decide_eq_true_2. reflexivity. Qed.

Lemma lookup_new (c : BufferCache) (bytes : list byte) :
  (heap c ++ [bytes]) !! length (heap c) = Some bytes.
Proof. rewrite lookup_app_r by lia. rewrite Nat.sub_diag. reflexivity. Qed.

(** The miss branch keeps map and allocations in agreement. *)
Lemma on_miss_ok buf c :
  cache_ok c -> cache c !! BufferId_of (data buf) = None ->
  cache_ok (snd (on_miss buf (BufferId_of (data buf)) c)).
Proof.
  intros [Ha Hb] Hq. unfold cache_ok, on_miss. cbn [snd cache heap].
  pose proof (lookup_new c (data buf)) as Hnew.
  split.
  - intros id p Hp. destruct (decide (id = BufferId_of (data buf))) as [->|Hne].
    + rewrite lookup_insert_eq in Hp. injection Hp as <-. eauto.
    + rewrite lookup_insert_ne in Hp by congruence.
      destruct (Ha _ _ Hp) as (stored & Hst & Hid).
      exists stored. split; [|exact Hid]. rewrite lookup_app_l; [exact Hst|].
      apply lookup_lt_Some in Hst. exact Hst.
  - intros p stored Hst.
    destruct (decide (p < length (heap c))%nat) as [Hlt|Hge].
    + rewrite lookup_app_l in Hst by exact Hlt. specialize (Hb _ _ Hst).
      rewrite lookup_insert_ne; [exact Hb|]. intros E. rewrite <- E in Hb. congruence.
    + assert (p = length (heap c)).
      { apply lookup_lt_Some in Hst. rewrite length_app in Hst. cbn in Hst. lia. }
      subst p. rewrite Hnew in Hst. injection Hst as <-. apply lookup_insert_eq.
Qed.

(** What a successful call leaves behind. *)
Lemma LookupOrAdd_ok debug buf c p c' :
  cache_ok c -> LookupOrAdd debug buf c = Ok (p, c') ->
  cache_ok c' /\ extends c c'
  /\ cache c' !! BufferId_of (data buf) = Some p
  /\ (debug = true -> heap c' !! p = Some (data buf)).
Proof.
  intros Hok. pose proof Hok as [Ha Hb]. unfold LookupOrAdd. cbn [cache count_lookup].
  destruct (cache c !! BufferId_of (data buf)) as [q|] eqn:Hq.
  - unfold on_hit. cbn [heap count_lookup cache].
    destruct (Ha _ _ Hq) as (stored & Hst & Hid). rewrite Hst.
    destruct (debug && negb _) eqn:Hchk; [discriminate|].
    intros [= Hp Hc]. subst p c'. cbn [cache heap].
    split; [split; assumption|]. split; [split; intros ? ? H; exact H|]. split; [exact Hq|].
    intros ->. cbn [andb] in Hchk. apply negb_false_iff in Hchk.
    rewrite Hst. f_equal. symmetry. apply memcmp_equal_same; [|exact Hchk].
    unfold BufferId_of in Hid. congruence.
  - intros [= Hp Hc]. subst p c'.
    split; [exact (on_miss_ok buf (count_lookup c) Hok Hq)|].
    unfold extends. cbn [cache heap count_lookup].
    split; [split|].
    + intros id p Hp. rewrite lookup_insert_ne; [exact Hp|]. congruence.
    + intros p stored Hst. rewrite lookup_app_l; [exact Hst|].
      apply lookup_lt_Some in Hst. exact Hst.
    + split; [apply lookup_insert_eq | intros _; apply lookup_new].
Qed.

Lemma LookupOrAdd_all_ok debug bufs : forall c ps c',
  cache_ok c -> LookupOrAdd_all debug bufs c = Ok (ps, c') ->
  cache_ok c' /\ extends c c'.
Proof.
  induction bufs as [|buf bufs IH]; intros c ps c' Hok; cbn [LookupOrAdd_all].
  - intros [= <- <-]. split; [exact Hok | apply extends_refl].
  - destruct (LookupOrAdd debug buf c) as [[p c1]| |] eqn:E1; try discriminate.
    destruct (LookupOrAdd_all debug bufs c1) as [[ps' c2]| |] eqn:E2; try discriminate.
    intros [= <- <-].
    destruct (LookupOrAdd_ok _ _ _ _ _ Hok E1) as (Hok1 & Hext1 & _).
    destruct (IH _ _ _ Hok1 E2) as (Hok2 & Hext2).
    split; [exact Hok2 | exact (extends_trans _ _ _ Hext1 Hext2)].
Qed.

(** C4, with buffers told apart by their [BufferId].  Two calls on a cache
    in a consistent state, with any successful calls in between.  (1) If
    the second buffer has the bytes of the first, the second call is a hit:
    it returns the first call's pointer and counts one more hit, leaving
    map and storage alone.  (2) If the two [BufferId]s differ, the pointers
    differ.  (3) If the bytes differ but the [BufferId]s coincide, a debug
    build stops at its [DCHECK] and a release build returns the first
    call's pointer. *)
Theorem LookupOrAdd_dedup (debug : bool) (c0 : BufferCache) (buf1 : vector) (p1 : nat)
    (c1 : BufferCache) (between : list vector) (ps : list nat) (c2 : BufferCache)
    (buf2 : vector) :
  cache_ok c0 ->
  LookupOrAdd debug buf1 c0 = Ok (p1, c1) ->
  LookupOrAdd_all debug between c1 = Ok (ps, c2) ->
  (data buf2 = data buf1 -> LookupOrAdd debug buf2 c2 = Ok (p1, after_hit buf2 c2))
  /\ (BufferId_of (data buf2) <> BufferId_of (data buf1) ->
      forall p2 c3, LookupOrAdd debug buf2 c2 = Ok (p2, c3) -> p2 <> p1)
  /\ (BufferId_of (data buf2) = BufferId_of (data buf1) -> data buf2 <> data buf1 ->
      LookupOrAdd debug buf2 c2
      = if debug then CheckFailed else Ok (p1, after_hit buf2 c2)).
Proof.
  intros Hok0 Hfirst Hbetween.
  destruct (LookupOrAdd_ok _ _ _ _ _ Hok0 Hfirst) as (Hok1 & _ & Hin1 & Hst1).
  destruct (LookupOrAdd_all_ok _ _ _ _ _ Hok1 Hbetween) as (Hok2 & Hext).
  assert (Hin2 : cache c2 !! BufferId_of (data buf1) = Some p1) by (apply Hext, Hin1).
  assert (Hst2 : debug = true -> heap c2 !! p1 = Some (data buf1))
    by (intros Hd; apply Hext, Hst1, Hd).
  assert (Hhit : forall buf, BufferId_of (data buf) = BufferId_of (data buf1) ->
            LookupOrAdd debug buf c2 = on_hit debug buf p1 (count_lookup c2)).
  { intros buf Hid. unfold LookupOrAdd. cbn [cache count_lookup]. rewrite Hid, Hin2.
    reflexivity. }
  split; [|split].
  - intros Hsame. rewrite Hhit by (rewrite Hsame; reflexivity).
    unfold on_hit. cbn [heap count_lookup]. destruct debug; [|reflexivity].
    rewrite (Hst2 eq_refl), Hsame, memcmp_equal_refl. reflexivity.
  - intros Hne p2 c3. unfold LookupOrAdd. cbn [cache count_lookup].
    destruct (cache c2 !! BufferId_of (data buf2)) as [q|] eqn:Hq.
    + unfold on_hit. destruct (debug && negb _); [discriminate|].
      intros [= <- _] ->. destruct Hok2 as [Ha _].
      destruct (Ha _ _ Hq) as (s2 & Hs2 & Hid2).
      destruct (Ha _ _ Hin2) as (s1 & Hs1 & Hid1). congruence.
    + unfold on_miss. cbn [heap count_lookup]. intros [= <- _] E.
      destruct Hok2 as [Ha _]. destruct (Ha _ _ Hin2) as (s1 & Hs1 & _).
      apply lookup_lt_Some in Hs1. lia.
  - intros Hid Hdiff. rewrite Hhit by exact Hid.
    unfold on_hit. cbn [heap count_lookup]. destruct debug; [|reflexivity].
    rewrite (Hst2 eq_refl).
    replace (memcmp_equal (data buf2) (data buf1) (length (data buf2))) with false;
      [reflexivity|].
    symmetry. apply not_true_is_false. intros Heq. apply Hdiff.
    apply memcmp_equal_same; [|exact Heq]. unfold BufferId_of in Hid. congruence.
Qed.

(** Two buffers with one [BufferId], presented to a fresh release-build
    cache one after the other, get one pointer. *)
Lemma collision_shares_pointer buf1 buf2 :
  BufferId_of (data buf1) = BufferId_of (data buf2) ->
  exists p c1 c2,
    LookupOrAdd false buf1 empty = Ok (p, c1) /\ LookupOrAdd false buf2 c1 = Ok (p, c2).
Proof.
  intros Hid. unfold LookupOrAdd at 1. cbn [cache count_lookup empty].
  rewrite lookup_empty. eexists _, _, _. split; [reflexivity|].
  unfold LookupOrAdd, on_miss. cbn [cache count_lookup fst snd heap].
  rewrite Hid, lookup_insert_eq. reflexivity.
Qed.

(** A thread that runs alone does what the sequential function does. *)
Lemma solo_is_LookupOrAdd debug buf c p c' :
  LookupOrAdd debug buf c = Ok (p, c') ->
  run_schedule debug [0; 0; 0; 0; 0]%nat (start c [buf])
  = mkConfig c' None [mkThread buf (Returned p)].
Proof.
  intros Hcall. unfold run_schedule. cbn [fold_left].
  assert (E1 : step debug 0 (start c [buf])
               = Some (mkConfig (count_lookup c) None [mkThread buf Hashed]))
    by reflexivity.
  assert (E2 : step debug 0 (mkConfig (count_lookup c) None [mkThread buf Hashed])
               = Some (mkConfig (count_lookup c) (Some 0%nat) [mkThread buf Locked]))
    by reflexivity.
  rewrite E1. cbn [from_option id]. rewrite E2. cbn [from_option id].
  unfold LookupOrAdd in Hcall.
  destruct (cache (count_lookup c) !! BufferId_of (data buf)) as [q|] eqn:Hq.
  - assert (E3 : step debug 0 (mkConfig (count_lookup c) (Some 0%nat) [mkThread buf Locked])
                 = Some (mkConfig (count_lookup c) (Some 0%nat) [mkThread buf (Found q)])).
    { unfold step. cbn [threads lookup list_lookup at_ arg mem]. rewrite Hq. reflexivity. }
    assert (E4 : step debug 0 (mkConfig (count_lookup c) (Some 0%nat)
                                        [mkThread buf (Found q)])
                 = Some (mkConfig c' None [mkThread buf (Returned p)])).
    { unfold step. cbn [threads lookup list_lookup at_ arg mem]. rewrite Hcall. reflexivity. }
    rewrite E3. cbn [from_option id]. rewrite E4. reflexivity.
  - injection Hcall as <- <-.
    assert (E3 : step debug 0 (mkConfig (count_lookup c) (Some 0%nat) [mkThread buf Locked])
                 = Some (mkConfig (count_lookup c) (Some 0%nat) [mkThread buf NotFound])).
    { unfold step. cbn [threads lookup list_lookup at_ arg mem]. rewrite Hq. reflexivity. }
    rewrite E3. cbn [from_option id].
    assert (E4 : step debug 0 (mkConfig (count_lookup c) (Some 0%nat) [mkThread buf NotFound])
                 = Some (mkConfig (snd (on_miss buf (BufferId_of (data buf)) (count_lookup c)))
                                  (Some 0%nat) [mkThread buf Inserted]))
      by reflexivity.
    rewrite E4. cbn [from_option id].
    unfold step. cbn [threads lookup list_lookup at_ arg mem on_miss snd cache].
    rewrite lookup_insert_eq. reflexivity.
Qed.


(** The same two callers in a debug build, when the entry under the
    buffer's [BufferId] holds other bytes: the first caller stops at the
    [DCHECK], inside the critical section. *)
Lemma first_of_two_aborts buf c q stored :
  cache c !! BufferId_of (data buf) = Some q ->
  heap c !! q = Some stored ->
  length stored = length (data buf) ->
  stored <> data buf ->
  run_schedule true [0; 0; 0; 0]%nat (start c [buf; buf])
  = mkConfig (count_lookup c) (Some 0%nat) [mkThread buf Aborted; mkThread buf AtEntry].
Proof.
  intros Hq Hst Hlen Hne. unfold run_schedule. cbn [fold_left].
  assert (E1 : step true 0 (start c [buf; buf])
               = Some (mkConfig (count_lookup c) None
                                [mkThread buf Hashed; mkThread buf AtEntry]))
    by reflexivity.
  assert (E2 : step true 0 (mkConfig (count_lookup c) None
                                     [mkThread buf Hashed; mkThread buf AtEntry])
               = Some (mkConfig (count_lookup c) (Some 0%nat)
                                [mkThread buf Locked; mkThread buf AtEntry]))
    by reflexivity.
  assert (E3 : step true 0 (mkConfig (count_lookup c) (Some 0%nat)
                                     [mkThread buf Locked; mkThread buf AtEntry])
               = Some (mkConfig (count_lookup c) (Some 0%nat)
                                [mkThread buf (Found q); mkThread buf AtEntry])).
  { unfold step. cbn [threads lookup list_lookup at_ arg mem count_lookup cache].
    rewrite Hq. reflexivity. }
  assert (E4 : step true 0 (mkConfig (count_lookup c) (Some 0%nat)
                                     [mkThread buf (Found q); mkThread buf AtEntry])
               = Some (mkConfig (count_lookup c) (Some 0%nat)
                                [mkThread buf Aborted; mkThread buf AtEntry])).
  { unfold step, on_hit. cbn [threads lookup list_lookup at_ arg mem count_lookup heap].
    rewrite Hst.
    assert (Hcmp : memcmp_equal (data buf) stored (length (data buf)) = false).
    { unfold memcmp_equal. apply bool_decide_eq_false_2. intros E. apply Hne.
      rewrite firstn_all in E. rewrite <- Hlen, firstn_all in E. congruence. }
    rewrite Hcmp. reflexivity. }
  rewrite E1. cbn [from_option id]. rewrite E2. cbn [from_option id].
  rewrite E3. cbn [from_option id]. rewrite E4. reflexivity.
Qed.

Section SameContent.

Variable debug : bool.
Variable content : list byte.



Lemma cache_ok_same m m' :
  cache m' = cache m -> heap m' = heap m -> cache_ok m -> cache_ok m'.
Proof. unfold cache_ok. intros -> ->. exact (fun H => H). Qed.

Lemma holds_content_same m m' :
  cache m' = cache m -> heap m' = heap m -> holds_content content m -> holds_content content m'.
Proof. unfold holds_content. intros -> ->. exact (fun H => H). Qed.









End SameContent.


(** *** Statistics and memory accounting *)

(** A successful call is a hit or a miss. *)
Lemma LookupOrAdd_cases debug buf c p c' :
  LookupOrAdd debug buf c = Ok (p, c') ->
  (cache c !! BufferId_of (data buf) = Some p /\ c' = after_hit buf c)
  \/ (cache c !! BufferId_of (data buf) = None
      /\ p = length (heap c)
      /\ c' = snd (on_miss buf (BufferId_of (data buf)) (count_lookup c))).
Proof.
  unfold LookupOrAdd. cbn [cache count_lookup].
  destruct (cache c !! BufferId_of (data buf)) as [q|] eqn:Hq.
  - unfold on_hit. destruct (debug && negb _); [discriminate|].
    intros [= <- <-]. left. split; reflexivity.
  - intros [= <- <-]. right. repeat split; reflexivity.
Qed.

Lemma LookupOrAdd_all_counts debug bufs : forall c ps c',
  LookupOrAdd_all debug bufs c = Ok (ps, c') ->
  length ps = length bufs
  /\ nBufferCacheLookups c' = (nBufferCacheLookups c + length bufs)%nat
  /\ (nBufferCacheHits c' + length (heap c')
      = nBufferCacheHits c + length (heap c) + length bufs)%nat
  /\ (size (cache c) = length (heap c) -> size (cache c') = length (heap c'))
  /\ (forall id, is_Some (cache c' !! id)
                 <-> is_Some (cache c !! id)
                     \/ exists buf, buf ∈ bufs /\ BufferId_of (data buf) = id).
Proof.
  induction bufs as [|buf bufs IH]; intros c ps c'; cbn [LookupOrAdd_all].
  - intros [= <- <-]. repeat split; try (cbn; lia); auto.
    intros [H|(buf & Hin & _)]; [exact H|]. inversion Hin.
  - destruct (LookupOrAdd debug buf c) as [[p c1]| |] eqn:E1; try discriminate.
    destruct (LookupOrAdd_all debug bufs c1) as [[ps' c2]| |] eqn:E2; try discriminate.
    intros [= <- <-].
    destruct (IH _ _ _ E2) as (Hlen & Hlook & Hhit & Hsize & Hdom).
    destruct (LookupOrAdd_cases _ _ _ _ _ E1) as [[Hq ->]|(Hq & -> & ->)].
    + cbn [after_hit cache heap nBufferCacheLookups nBufferCacheHits] in *.
      repeat split; try (cbn [length]; lia); auto.
      * rewrite Hdom. intros [H|(b & Hin & Hb)]; [left; exact H|].
        right. exists b. split; [right; exact Hin | exact Hb].
      * rewrite Hdom. intros [H|(b & Hin & Hb)]; [left; exact H|].
        apply elem_of_cons in Hin as [->|Hin]; [left; rewrite <- Hb, Hq; eauto|].
        right. exists b. split; assumption.
    + cbn [on_miss snd count_lookup cache heap nBufferCacheLookups nBufferCacheHits] in *.
      rewrite length_app in *. cbn [length] in *.
      repeat split; try lia.
      * intros Hs. apply Hsize. rewrite map_size_insert_None by exact Hq. lia.
      * rewrite Hdom, lookup_insert_is_Some.
        intros [[<-|[_ H]]|(b & Hin & Hb)].
        -- right. exists buf. split; [left | reflexivity].
        -- left. exact H.
        -- right. exists b. split; [right; exact Hin | exact Hb].
      * rewrite Hdom, lookup_insert_is_Some.
        intros [H|(b & Hin & Hb)].
        -- destruct (decide (BufferId_of (data buf) = id)); [left; left; assumption|].
           left. right. split; assumption.
        -- apply elem_of_cons in Hin as [->|Hin]; [left; left; exact Hb|].
           right. exists b. split; assumption.
Qed.

(** Stored copies have pairwise different [BufferId]s. *)
Lemma cache_ok_distinct c p q s1 s2 :
  cache_ok c -> heap c !! p = Some s1 -> heap c !! q = Some s2 ->
  BufferId_of s1 = BufferId_of s2 -> p = q.
Proof.
  intros [_ Hb] Hp Hq Hid. pose proof (Hb _ _ Hp) as H1. pose proof (Hb _ _ Hq) as H2.
  congruence.
Qed.

(** X14.  What a run of calls on a newly built cache adds, whatever the
    shared statistics hold when it begins: one pointer per call; every
    call counted as a lookup; every call a hit or an allocation, never
    both; one map entry per allocation; the map holds exactly the
    [BufferId]s that were presented; and no two stored copies have the
    same [BufferId]. *)
Theorem LookupOrAdd_all_statistics (debug : bool) (c : BufferCache) (bufs : list vector)
    (ps : list nat) (c' : BufferCache) :
  same_store c empty ->
  LookupOrAdd_all debug bufs c = Ok (ps, c') ->
  length ps = length bufs
  /\ nBufferCacheLookups c' = (nBufferCacheLookups c + length bufs)%nat
  /\ (nBufferCacheHits c' + length (heap c') = nBufferCacheHits c + length bufs)%nat
  /\ size (cache c') = length (heap c')
  /\ (forall id, is_Some (cache c' !! id)
                 <-> exists buf, buf ∈ bufs /\ BufferId_of (data buf) = id)
  /\ (forall p q s1 s2, heap c' !! p = Some s1 -> heap c' !! q = Some s2 ->
                        BufferId_of s1 = BufferId_of s2 -> p = q).
Proof.
  intros [Hmap Hheap] Hrun. cbn [empty cache heap] in Hmap, Hheap.
  assert (Hok0 : cache_ok c).
  { split; intros ? ? H; [rewrite Hmap, lookup_empty in H | rewrite Hheap in H];
      discriminate. }
  destruct (LookupOrAdd_all_counts _ _ _ _ _ Hrun) as (Hlen & Hlook & Hhit & Hsize & Hdom).
  destruct (LookupOrAdd_all_ok _ _ _ _ _ Hok0 Hrun) as (Hok & _).
  rewrite Hheap in Hhit, Hsize. rewrite Hmap in Hsize. cbn [length] in *.
  repeat split; try lia.
  - apply Hsize. rewrite map_size_empty. reflexivity.
  - rewrite Hdom, Hmap. intros [H|H]; [|exact H].
    rewrite lookup_empty in H. destruct H as [? H]. discriminate.
  - rewrite Hdom. intros H. right. exact H.
  - intros p q s1 s2. apply cache_ok_distinct, Hok.
Qed.

(** X15.  A pointer handed out stays good.  After a successful call on a
    consistent cache the returned pointer designates a stored copy with
    the length and the hash of the buffer passed in (in a debug build: with
    its very bytes), and later calls, however many, neither move nor change
    that copy. *)
Theorem LookupOrAdd_pointer_stable (debug : bool) (c : BufferCache) (buf : vector)
    (p : nat) (c1 : BufferCache) (later : list vector) (ps : list nat) (c2 : BufferCache) :
  cache_ok c ->
  LookupOrAdd debug buf c = Ok (p, c1) ->
  LookupOrAdd_all debug later c1 = Ok (ps, c2) ->
  exists stored,
    heap c1 !! p = Some stored /\ heap c2 !! p = Some stored
    /\ length stored = length (data buf)
    /\ HashBuffer stored = HashBuffer (data buf)
    /\ (debug = true -> stored = data buf).
Proof.
  intros Hok Hcall Hlater.
  destruct (LookupOrAdd_ok _ _ _ _ _ Hok Hcall) as (Hok1 & _ & Hin & Hdbg).
  destruct (LookupOrAdd_all_ok _ _ _ _ _ Hok1 Hlater) as (_ & _ & Hheap).
  destruct (proj1 Hok1 _ _ Hin) as (stored & Hst & Hid).
  exists stored. unfold BufferId_of in Hid. injection Hid as Hhash Hlen.
  repeat split; auto. intros Hd. specialize (Hdbg Hd). congruence.
Qed.

Lemma sum_list_with_ext_in {A} (f g : A -> nat) (l : list A) :
  (forall x, x ∈ l -> f x = g x) -> sum_list_with f l = sum_list_with g l.
Proof.
  induction l as [|x l IH]; intros H; [reflexivity|]. cbn [sum_list_with].
  rewrite (H x) by left. rewrite IH; [reflexivity|]. intros y Hy. apply H. right. exact Hy.
Qed.

Lemma BytesUsed_same stored_capacity c c' :
  same_store c c' -> BytesUsed stored_capacity c = BytesUsed stored_capacity c'.
Proof.
  intros [Hc Hh]. unfold BytesUsed, entry_bytes. rewrite Hc.
  apply sum_list_with_ext_in. intros x _. rewrite Hh. reflexivity.
Qed.

Lemma BytesUsed_miss stored_capacity buf c :
  cache_ok c -> cache c !! BufferId_of (data buf) = None ->
  BytesUsed stored_capacity (snd (on_miss buf (BufferId_of (data buf)) (count_lookup c)))
  = (BytesUsed stored_capacity c + stored_capacity (data buf))%nat.
Proof.
  intros [Ha _] Hq. unfold BytesUsed, on_miss. cbn [snd cache heap count_lookup].
  rewrite map_to_list_insert by exact Hq. cbn [sum_list_with snd].
  unfold entry_bytes at 1. cbn [heap]. rewrite lookup_new.
  rewrite (sum_list_with_ext_in _ (fun item => entry_bytes stored_capacity c (snd item)));
    [lia|].
  intros [id p] Hin. apply elem_of_map_to_list in Hin. cbn [snd].
  destruct (Ha _ _ Hin) as (stored & Hst & _). unfold entry_bytes. cbn [heap].
  rewrite lookup_app_l by (apply lookup_lt_Some in Hst; exact Hst). reflexivity.
Qed.

(** X16.  Memory accounting of one call.  A hit adds the capacity of the
    caller's vector to [redundantBufferBytes] and leaves [BytesUsed()]
    alone; a miss adds the capacity of the new copy to [BytesUsed()] and
    leaves [redundantBufferBytes] and the hit counter alone. *)
Theorem LookupOrAdd_accounting (stored_capacity : list byte -> nat) (debug : bool)
    (buf : vector) (c : BufferCache) (p : nat) (c' : BufferCache) :
  cache_ok c ->
  LookupOrAdd debug buf c = Ok (p, c') ->
  match cache c !! BufferId_of (data buf) with
  | Some _ =>
      BytesUsed stored_capacity c' = BytesUsed stored_capacity c
      /\ redundantBufferBytes c' = (redundantBufferBytes c + capacity buf)%nat
      /\ nBufferCacheHits c' = S (nBufferCacheHits c)
  | None =>
      BytesUsed stored_capacity c'
      = (BytesUsed stored_capacity c + stored_capacity (data buf))%nat
      /\ redundantBufferBytes c' = redundantBufferBytes c
      /\ nBufferCacheHits c' = nBufferCacheHits c
  end.
Proof.
  intros Hok Hcall.
  destruct (LookupOrAdd_cases _ _ _ _ _ Hcall) as [[Hq ->]|(Hq & -> & ->)]; rewrite Hq.
  - split; [|split; reflexivity]. symmetry. apply BytesUsed_same. split; reflexivity.
  - split; [|split; reflexivity]. apply BytesUsed_miss; assumption.
Qed.

Lemma LookupOrAdd_all_BytesUsed stored_capacity debug bufs : forall c ps c',
  cache_ok c ->
  BytesUsed stored_capacity c = sum_list_with stored_capacity (heap c) ->
  LookupOrAdd_all debug bufs c = Ok (ps, c') ->
  BytesUsed stored_capacity c' = sum_list_with stored_capacity (heap c').
Proof.
  induction bufs as [|buf bufs IH]; intros c ps c' Hok Hsum; cbn [LookupOrAdd_all].
  - intros [= <- <-]. exact Hsum.
  - destruct (LookupOrAdd debug buf c) as [[p c1]| |] eqn:E1; try discriminate.
    destruct (LookupOrAdd_all debug bufs c1) as [[ps' c2]| |] eqn:E2; try discriminate.
    intros [= <- <-].
    destruct (LookupOrAdd_ok _ _ _ _ _ Hok E1) as (Hok1 & _).
    apply (IH c1 ps' c2 Hok1); [|exact E2].
    destruct (LookupOrAdd_cases _ _ _ _ _ E1) as [[Hq ->]|(Hq & -> & ->)].
    + rewrite <- (BytesUsed_same stored_capacity c) by (split; reflexivity). exact Hsum.
    + rewrite BytesUsed_miss by assumption. cbn [on_miss snd heap count_lookup].
      rewrite sum_list_with_app. cbn [sum_list_with]. lia.
Qed.

(** Every stored copy was there before or is a copy of a buffer passed in. *)
Lemma LookupOrAdd_all_heap debug bufs : forall c ps c',
  LookupOrAdd_all debug bufs c = Ok (ps, c') ->
  forall stored, stored ∈ heap c' ->
    stored ∈ heap c \/ exists buf, buf ∈ bufs /\ data buf = stored.
Proof.
  induction bufs as [|buf bufs IH]; intros c ps c'; cbn [LookupOrAdd_all].
  - intros [= <- <-] stored Hin. left. exact Hin.
  - destruct (LookupOrAdd debug buf c) as [[p c1]| |] eqn:E1; try discriminate.
    destruct (LookupOrAdd_all debug bufs c1) as [[ps' c2]| |] eqn:E2; try discriminate.
    intros [= <- <-] stored Hin.
    destruct (IH _ _ _ E2 stored Hin) as [H1|(b & Hb & Hd)].
    + destruct (LookupOrAdd_cases _ _ _ _ _ E1) as [[Hq ->]|(Hq & -> & ->)].
      * left. exact H1.
      * cbn [on_miss snd heap count_lookup] in H1.
        apply elem_of_app in H1 as [H1|H1]; [left; exact H1|].
        apply list_elem_of_singleton in H1. right. exists buf. split; [left | congruence].
    + right. exists b. split; [right; exact Hb | exact Hd].
Qed.

(** X17.  [BytesUsed()] counts every distinct buffer once: after any run of
    calls on a fresh cache it is the total capacity of the stored copies;
    there is one copy per map entry, and each is a copy of a buffer that
    was passed in. *)
Theorem BytesUsed_counts_each_once (stored_capacity : list byte -> nat) (debug : bool)
    (bufs : list vector) (ps : list nat) (c' : BufferCache) :
  LookupOrAdd_all debug bufs empty = Ok (ps, c') ->
  BytesUsed stored_capacity c' = sum_list_with stored_capacity (heap c')
  /\ size (cache c') = length (heap c')
  /\ forall stored, stored ∈ heap c' -> exists buf, buf ∈ bufs /\ data buf = stored.
Proof.
  intros Hrun. split; [|split].
  - apply (LookupOrAdd_all_BytesUsed stored_capacity debug bufs empty ps);
      [apply cache_ok_empty | reflexivity | exact Hrun].
  - destruct (LookupOrAdd_all_counts _ _ _ _ _ Hrun) as (_ & _ & _ & Hsize & _).
    apply Hsize. reflexivity.
  - intros stored Hin.
    destruct (LookupOrAdd_all_heap _ _ _ _ _ Hrun stored Hin) as [H|H]; [|exact H].
    cbn in H. inversion H.
Qed.

(** *** Clearing *)

(** The statistics have no influence on what a call returns or stores. *)
Lemma LookupOrAdd_same_store debug buf c1 c2 :
  same_store c1 c2 ->
  match LookupOrAdd debug buf c1, LookupOrAdd debug buf c2 with
  | Ok (p1, c1'), Ok (p2, c2') => p1 = p2 /\ same_store c1' c2'
  | CheckFailed, CheckFailed => True
  | _, _ => False
  end.
Proof.
  intros [Hc Hh]. unfold LookupOrAdd, on_hit, on_miss, same_store.
  cbn [cache heap count_lookup]. rewrite Hc, Hh.
  destruct (cache c2 !! BufferId_of (data buf)) as [q|].
  - destruct (debug && negb _); cbn [cache heap]; auto.
  - cbn [cache heap]. auto.
Qed.

Lemma LookupOrAdd_all_same_store debug bufs : forall c1 c2,
  same_store c1 c2 ->
  returned_pointers (LookupOrAdd_all debug bufs c1)
  = returned_pointers (LookupOrAdd_all debug bufs c2).
Proof.
  induction bufs as [|buf bufs IH]; intros c1 c2 Hsame; cbn [LookupOrAdd_all];
    [reflexivity|].
  pose proof (LookupOrAdd_same_store debug buf c1 c2 Hsame) as Hone.
  destruct (LookupOrAdd debug buf c1) as [[p1 c1']| |];
    destruct (LookupOrAdd debug buf c2) as [[p2 c2']| |]; try contradiction;
    try reflexivity.
  destruct Hone as [<- Hsame']. specialize (IH _ _ Hsame').
  destruct (LookupOrAdd_all debug bufs c1') as [[ps1 d1]| |];
    destruct (LookupOrAdd_all debug bufs c2') as [[ps2 d2]| |];
    cbn [returned_pointers] in *; congruence.
Qed.

(** X18.  [Clear()] is a full reset.  The cleared cache is consistent and
    uses no bytes; no pointer handed out before designates a stored copy
    any more; and any run of calls after it returns what the same run
    returns on a fresh cache, so a buffer cached before the [Clear()] is
    allocated anew. *)
Theorem Clear_resets (stored_capacity : list byte -> nat) (debug : bool) (c : BufferCache)
    (bufs : list vector) :
  cache_ok (Clear c)
  /\ BytesUsed stored_capacity (Clear c) = 0%nat
  /\ (forall p, heap (Clear c) !! p = None)
  /\ returned_pointers (LookupOrAdd_all debug bufs (Clear c))
     = returned_pointers (LookupOrAdd_all debug bufs empty).
Proof.
  split; [|split; [|split]].
  - split; intros ? ? H; cbn in H; [rewrite lookup_empty in H|]; discriminate.
  - unfold BytesUsed, Clear. cbn [cache]. rewrite map_to_list_empty. reflexivity.
  - intros p. reflexivity.
  - apply LookupOrAdd_all_same_store. split; reflexivity.
Qed.

End Cache.

Lemma LookupOrAdd_dedup_witness :
  LookupOrAdd checksum true abc after_abc = Ok (0%nat, after_hit abc after_abc)
  /\ (forall p2 c3, LookupOrAdd checksum true abd after_abc = Ok (p2, c3) -> p2 <> 0%nat).
Proof.
  destruct (LookupOrAdd_dedup checksum true empty abc 0 after_abc [] [] after_abc abc
              (cache_ok_empty checksum) eq_refl eq_refl) as (H1 & _ & _).
  destruct (LookupOrAdd_dedup checksum true empty abc 0 after_abc [] [] after_abc abd
              (cache_ok_empty checksum) eq_refl eq_refl) as (_ & H2 & _).
  split; [apply H1; reflexivity | apply H2].
  intros H. apply (f_equal fst) in H. vm_compute in H. discriminate.
Defined.

Example three_callers :
  let cfg := run_schedule checksum true [0; 1; 2; 1; 0; 2; 1; 1; 0; 2; 1; 0; 0; 2; 2; 2; 0; 2; 2; 2]%nat
                          (start empty [abc; abc'; abc]) in
  map at_ (threads cfg) = [Returned 0; Returned 0; Returned 0]
  /\ heap (mem cfg) = [data abc]
  /\ mutex cfg = None.
Proof. vm_compute. repeat split. Qed.


(** A cache built after the statistics have moved. *)
Definition later_cache : BufferCache := mkCache ∅ [] 7 2 40.

(** A run on it: a buffer, another one, the first one again. *)
Lemma LookupOrAdd_all_statistics_witness :
  exists ps c',
    LookupOrAdd_all checksum true [abc; abd; abc'] later_cache = Ok (ps, c')
    /\ length ps = 3%nat
    /\ nBufferCacheLookups c' = (7 + 3)%nat
    /\ (nBufferCacheHits c' + length (heap c'))%nat = (2 + 3)%nat
    /\ size (cache c') = length (heap c').
Proof.
  destruct (LookupOrAdd_all checksum true [abc; abd; abc'] later_cache) as [[ps c']| |] eqn:E;
    [|vm_compute in E; discriminate..].
  exists ps, c'. split; [reflexivity|].
  destruct (LookupOrAdd_all_statistics checksum true later_cache _ _ _ (conj eq_refl eq_refl) E)
    as (H1 & H2 & H3 & H4 & _).
  auto.
Defined.

Lemma LookupOrAdd_pointer_stable_witness :
  exists stored,
    heap after_abc !! 0%nat = Some stored
    /\ heap (snd (on_miss abd (checksum (data abd), length (data abd))
                          (count_lookup after_abc))) !! 0%nat = Some stored
    /\ length stored = length (data abc)
    /\ checksum stored = checksum (data abc)
    /\ (true = true -> stored = data abc).
Proof.
  apply (LookupOrAdd_pointer_stable checksum true empty abc 0 after_abc [abd] [1%nat]).
  - apply cache_ok_empty.
  - reflexivity.
  - vm_compute. reflexivity.
Defined.

Lemma LookupOrAdd_accounting_witness :
  BytesUsed length (after_hit abc' after_abc) = BytesUsed length after_abc
  /\ redundantBufferBytes (after_hit abc' after_abc)
     = (redundantBufferBytes after_abc + capacity abc')%nat
  /\ nBufferCacheHits (after_hit abc' after_abc) = S (nBufferCacheHits after_abc).
Proof.
  pose proof (LookupOrAdd_accounting checksum length true abc' after_abc 0
                (after_hit abc' after_abc)) as H.
  assert (Hq : cache after_abc !! BufferId_of checksum (data abc') = Some 0%nat)
    by (vm_compute; reflexivity).
  rewrite Hq in H. apply H.
  - destruct (LookupOrAdd_ok checksum true abc empty 0 after_abc (cache_ok_empty checksum)
                eq_refl) as [Hok _]. exact Hok.
  - vm_compute. reflexivity.
Defined.

Lemma BytesUsed_counts_each_once_witness :
  exists ps c',
    LookupOrAdd_all checksum true [abc; abd; abc'] empty = Ok (ps, c')
    /\ BytesUsed length c' = sum_list_with length (heap c')
    /\ size (cache c') = length (heap c').
Proof.
  destruct (LookupOrAdd_all checksum true [abc; abd; abc'] empty) as [[ps c']| |] eqn:E;
    [|vm_compute in E; discriminate..].
  exists ps, c'. split; [reflexivity|].
  destruct (BytesUsed_counts_each_once checksum length true _ _ _ E) as (H1 & H2 & _).
  auto.
Defined.

(** *** No 64-bit hash separates all buffers *)

Lemma to_N_byte_of z : Z.of_N (Byte.to_N (byte_of z)) = z mod 256.
Proof.
  unfold byte_of. pose proof (Z.mod_pos_bound z 256 ltac:(lia)) as Hm.
  destruct (Byte.of_N (Z.to_N (z mod 256))) as [b|] eqn:E.
  - change (default "000"%byte (Some b)) with b.
    rewrite (Byte.to_of_N _ E). apply Z2N.id. lia.
  - apply Byte.of_N_None_iff in E. lia.
Qed.

Lemma decode_encode n : forall z, 0 <= z < 256 ^ Z.of_nat n -> decode (encode n z) = z.
Proof.
  induction n as [|n IH]; intros z Hz.
  - change (256 ^ Z.of_nat 0) with 1 in Hz. cbn. lia.
  - cbn [encode decode]. rewrite to_N_byte_of, IH.
    + pose proof (Z.div_mod z 256 ltac:(lia)). lia.
    + rewrite Nat2Z.inj_succ, Z.pow_succ_r in Hz by lia.
      split; [apply Z.div_pos; lia | apply Z.div_lt_upper_bound; lia].
Qed.

Lemma length_encode n : forall z, length (encode n z) = n.
Proof. induction n as [|n IH]; intros z; [reflexivity|]. cbn [encode length]. rewrite IH. reflexivity. Qed.

(** C4, the counterexample to "different bytes, different pointers":
    whatever 64-bit function [HashBuffer] is, some two buffers of nine
    bytes with different content, handed one after the other to a fresh
    release-build cache, get the same pointer. *)
Lemma distinct_content_shared_pointer :
  ~ exists HashBuffer : list byte -> Z,
      (forall bytes, 0 <= HashBuffer bytes < 2 ^ 64)
      /\ (forall buf1 buf2 p1 c1 p2 c2,
            data buf1 <> data buf2 ->
            LookupOrAdd HashBuffer false buf1 empty = Ok (p1, c1) ->
            LookupOrAdd HashBuffer false buf2 c1 = Ok (p2, c2) ->
            p1 <> p2).
Proof.
  intros (H & Hrange & Hclaim).
  set (domain := seqZ 0 (2 ^ 64 + 1)).
  assert (Hinj : forall x y, x ∈ domain -> y ∈ domain ->
                             H (encode 9 x) = H (encode 9 y) -> x = y).
  { intros x y Hx Hy Hxy. apply elem_of_seqZ in Hx, Hy.
    destruct (decide (x = y)) as [E|Hne]; [exact E|]. exfalso.
    destruct (collision_shares_pointer H (mkVector (encode 9 x) 9) (mkVector (encode 9 y) 9))
      as (p & c1 & c2 & H1 & H2).
    { unfold BufferId_of. cbn [data]. rewrite Hxy, !length_encode. reflexivity. }
    assert (Hdata : encode 9 x <> encode 9 y).
    { intros E. apply Hne.
      rewrite <- (decode_encode 9 x), <- (decode_encode 9 y), E; [reflexivity| |];
        change (256 ^ Z.of_nat 9) with (2 ^ 72); lia. }
    exact (Hclaim (mkVector (encode 9 x) 9) (mkVector (encode 9 y) 9) _ _ _ _
                  Hdata H1 H2 eq_refl). }
  pose proof (NoDup_fmap_2_strong (fun z => H (encode 9 z)) domain Hinj (NoDup_seqZ _ _))
    as Hnodup.
  assert (Hsub : forall h, h ∈ (fun z => H (encode 9 z)) <$> domain -> h ∈ seqZ 0 (2 ^ 64)).
  { intros h Hh. apply list_elem_of_fmap in Hh as (z & -> & _).
    apply elem_of_seqZ. pose proof (Hrange (encode 9 z)). lia. }
  pose proof (submseteq_length _ _ (NoDup_submseteq _ _ Hnodup Hsub)) as Hlen.
  rewrite length_fmap in Hlen. unfold domain in Hlen. rewrite !length_seqZ in Hlen. lia.
Qed.


End BufferCache.

(** ** util/mesh.cpp *)

Module Mesh.

(** [(int) x] for a [long] or [size_t] value [x]. *)
Definition to_int (x : Z) : Z := RNG.to_int32 (u32 x).

(** *** Reading faces from a PLY file *)

Record FaceCallbackContext : Type := mkContext {
  face : list Z;                (* int face[4] *)
  triIndices : list Z;
  quadIndices : list Z
}.

Inductive FaceWarning : Type :=
  | IgnoringFace (nVertices : Z).

(** [context->face[i]] *)
Definition face_at (context : FaceCallbackContext) (i : nat) : Z :=
  default 0 (face context !! i).

(** [rply_face_callback(argument)].  [length] and [value_index] are what
    [ply_get_argument_property] reports for the argument, [value] is
    [(int) ply_get_argument_value(argument)].  The result is the warning
    logged, if any, and the context, or the failure of the [CHECK_EQ]; the
    function itself always returns 1.  A store to [face[value_index]] with
    [value_index >= 4] is outside the array; here it changes nothing. *)
Definition rply_face_callback (length value_index value : Z) (context : FaceCallbackContext)
  : result (list FaceWarning * FaceCallbackContext) :=
  if negb (length =? 3) && negb (length =? 4)
  then Ok ([IgnoringFace (to_int length)], context)
  else if value_index <? 0 then Ok ([], context)
  else
    let context :=
      if value_index >=? 0
      then mkContext (<[Z.to_nat value_index := value]> (face context))
                     (triIndices context) (quadIndices context)
      else context in
    if value_index =? length - 1 then
      if length =? 3 then
        Ok ([], mkContext (face context)
                          (triIndices context
                             ++ [face_at context 0; face_at context 1; face_at context 2])
                          (quadIndices context))
      else if negb (length =? 4) then CheckFailed
      else
        Ok ([], mkContext (face context) (triIndices context)
                          (quadIndices context
                             ++ [face_at context 0; face_at context 1;
                                 face_at context 3; face_at context 2]))
    else Ok ([], context).

(** The callbacks of one [ply_read], in order; each is given as
    [(length, value_index, value)]. *)
Fixpoint run_callbacks (events : list (Z * Z * Z)) (context : FaceCallbackContext)
  : result (list FaceWarning * FaceCallbackContext) :=
  match events with
  | [] => Ok ([], context)
  | (length, value_index, value) :: events' =>
      match rply_face_callback length value_index value context with
      | Ok (w, context') =>
          match run_callbacks events' context' with
          | Ok (ws, context'') => Ok (w ++ ws, context'')
          | CheckFailed => CheckFailed
          | OutOfFuel => OutOfFuel
          end
      | CheckFailed => CheckFailed
      | OutOfFuel => OutOfFuel
      end
  end.

(** The callbacks rply issues for one face with the vertex list [vs]: the
    length of the list first, under [value_index = -1], then the entries. *)
Definition face_events (vs : list Z) : list (Z * Z * Z) :=
  (Z.of_nat (length vs), -1, Z.of_nat (length vs))
    :: imap (fun i v => (Z.of_nat (length vs), Z.of_nat i, v)) vs.

(** The vertex order of a bilinear patch for the quad [a, b, c, d]. *)
Definition patch_order (vs : list Z) : list Z :=
  match vs with
  | [a; b; c; d] => [a; b; d; c]
  | _ => vs
  end.

(** The warnings one face causes: none for a triangle or a quad, else one
    for each of its callbacks. *)
Definition face_warnings (vs : list Z) : list FaceWarning :=
  if bool_decide (length vs = 3%nat \/ length vs = 4%nat) then []
  else replicate (length vs + 1) (IgnoringFace (to_int (Z.of_nat (length vs)))).

(** *** Reading vertices from a PLY file *)

(** [rply_vertex_callback(argument)].  [buffer] and [flags] are the user
    data of the argument, [index] is the index of the element, [value] is
    [(float) ply_get_argument_value(argument)].  The function always
    returns 1.  A store outside the buffer is undefined in C++; here it
    changes nothing. *)
Definition rply_vertex_callback {Float : Type} (flags index : Z) (value : Float)
    (buffer : list Float) : list Float :=
  let stride := to_int (Z.shiftr (Z.land flags 0x0F0) 4) in
  let offset := to_int (Z.land flags 0x00F) in
  let cell := index * stride + offset in
  if cell <? 0 then buffer else <[Z.to_nat cell := value]> buffer.

(** The vertex callbacks of one [ply_read], in order; each is given as
    [(flags, index, value)]. *)
Definition run_vertex_callbacks {Float : Type} (events : list (Z * Z * Float))
    (buffer : list Float) : list Float :=
  fold_left (fun buffer e => rply_vertex_callback (fst (fst e)) (snd (fst e)) (snd e) buffer)
            events buffer.

(** The callbacks for the components of element [index], registered under
    the flags [stride * 16 + component]: [0x30], [0x31], [0x32] for the
    three coordinates of a point, [0x20], [0x21] for a [uv] pair. *)
Definition element_events {Float : Type} (stride : Z) (index : nat) (components : list Float)
  : list (Z * Z * Float) :=
  imap (fun c v => (stride * 16 + Z.of_nat c, Z.of_nat index, v)) components.

(** The callbacks for a whole vertex list, element after element. *)
Definition vertex_events {Float : Type} (stride : Z) (elements : list (list Float))
  : list (Z * Z * Float) :=
  concat (imap (element_events stride) elements).

(** *** Building a triangle mesh *)

Definition INT_MAX : Z := 2 ^ 31 - 1.

(** Sequencing of steps that can hit a fatal check. *)
#[local] Instance result_bind : MBind result := fun A B k m =>
  match m with
  | Ok a => k a
  | CheckFailed => CheckFailed
  | OutOfFuel => OutOfFuel
  end.

(** [CHECK(b)] and its relatives [CHECK_EQ], [CHECK_LE]. *)
Definition CHECK (b : bool) : result unit := if b then Ok tt else CheckFailed.

(** An element type of a buffer: [sizeof(T)] and the object representation
    of a value (no padding). *)
Class Elem (T : Type) : Type := mkElem { sizeof : nat; raw : T -> list byte }.

(** [int]: four bytes, two's complement, little endian. *)
#[local] Instance Elem_int : Elem Z := mkElem Z 4 (BufferCache.encode 4).

(** A [std::vector<T>]: its elements and its capacity, in elements. *)
Record vec (T : Type) : Type := mkVec { elems : list T; cap : nat }.
Arguments mkVec {T} elems cap.
Arguments elems {T} v.
Arguments cap {T} v.

(** [v.size()] *)
Definition vec_size {T : Type} (v : vec T) : Z := Z.of_nat (length (elems v)).

(** [v.empty()] *)
Definition vec_empty {T : Type} (v : vec T) : bool :=
  match elems v with [] => true | _ => false end.

(** The vector as the cache sees it: raw bytes, capacity in bytes. *)
Definition as_bytes {T : Type} `{Elem T} (v : vec T) : BufferCache.vector :=
  BufferCache.mkVector (concat (raw <$> elems v)) (cap v * sizeof).

(** [for (T &x : v) x = f(x);] *)
Definition vec_map {T : Type} (f : T -> T) (v : vec T) : vec T :=
  mkVec (f <$> elems v) (cap v).

(** The six caches behind the file-scope pointers. *)
Record Caches : Type := mkCaches {
  indexBufferCache : BufferCache.BufferCache;
  pBufferCache : BufferCache.BufferCache;
  nBufferCache : BufferCache.BufferCache;
  uvBufferCache : BufferCache.BufferCache;
  sBufferCache : BufferCache.BufferCache;
  faceIndexBufferCache : BufferCache.BufferCache
}.

(** The statistics counters of the file. *)
Record Stats : Type := mkStats {
  meshIndexBytes : nat;
  meshPositionBytes : nat;
  meshNormalBytes : nat;
  meshUVBytes : nat;
  meshTangentBytes : nat;
  meshFaceIndexBytes : nat;
  nTris : Z;
  nTriMeshes : nat;
  triangleBytes : nat
}.

(** [InitBufferCaches(alloc)], on the file-scope pointers: [None] when
    they are null.  The six pointers are assigned together. *)
Definition InitBufferCaches (g : option Caches) : result (option Caches) :=
  CHECK (match g with None => true | Some _ => false end) ;;
  Ok (Some (mkCaches BufferCache.empty BufferCache.empty BufferCache.empty
                     BufferCache.empty BufferCache.empty BufferCache.empty)).

(** The caches [InitBufferCaches] allocates. *)
Definition fresh_caches : Caches :=
  mkCaches BufferCache.empty BufferCache.empty BufferCache.empty
           BufferCache.empty BufferCache.empty BufferCache.empty.

(** [FreeBufferCaches()], with the caches allocated (with null pointers
    the call is undefined).  The pointers themselves are left as they
    are. *)
Definition FreeBufferCaches (stored_capacity : list byte -> nat) (g : Caches * Stats)
  : Caches * Stats :=
  let '(cs, st) := g in
  let used c := BufferCache.BytesUsed stored_capacity c in
  (mkCaches (BufferCache.Clear (indexBufferCache cs)) (BufferCache.Clear (pBufferCache cs))
            (BufferCache.Clear (nBufferCache cs)) (BufferCache.Clear (uvBufferCache cs))
            (BufferCache.Clear (sBufferCache cs))
            (BufferCache.Clear (faceIndexBufferCache cs)),
   mkStats (meshIndexBytes st + used (indexBufferCache cs))
           (meshPositionBytes st + used (pBufferCache cs))
           (meshNormalBytes st + used (nBufferCache cs))
           (meshUVBytes st + used (uvBufferCache cs))
           (meshTangentBytes st + used (sBufferCache cs))
           (meshFaceIndexBytes st + used (faceIndexBufferCache cs))
           (nTris st) (nTriMeshes st) (triangleBytes st)).

(** A [TriangleMesh].  The four optional attributes are pointers that
    stay null ([None]) unless the constructor assigns them. *)
Record TriangleMesh : Type := mkMesh {
  reverseOrientation : bool;
  transformSwapsHandedness : bool;
  nTriangles : Z;
  nVertices : Z;
  vertexIndices : nat;
  p : nat;
  n : option nat;
  s : option nat;
  uv : option nat;
  faceIndices : option nat
}.

Section Geometry.

(** [HashBuffer] (util/hash.h). *)
Variable HashBuffer : list byte -> Z.

(** The geometric types and [Transform] (their headers are not among the
    sources): for each vector type its layout, and the operations the
    constructor applies. *)
Variables Point3f Vector3f Normal3f Point2f Transform : Type.
Context `{Elem_Point3f : Elem Point3f} `{Elem_Vector3f : Elem Vector3f}
        `{Elem_Normal3f : Elem Normal3f} `{Elem_Point2f : Elem Point2f}.
Variable SwapsHandedness : Transform -> bool.
Variable applyP : Transform -> Point3f -> Point3f.
Variable applyV : Transform -> Vector3f -> Vector3f.
Variable applyN : Transform -> Normal3f -> Normal3f.
Variable negN : Normal3f -> Normal3f.

(** [sizeof(TriangleMesh)] *)
Variable sizeof_TriangleMesh : nat.

(** The arguments of the constructor. *)
Record Args : Type := mkArgs {
  worldFromObject : Transform;
  reverse : bool;
  indices : vec Z;
  P : vec Point3f;
  S : vec Vector3f;
  N : vec Normal3f;
  UV : vec Point2f;
  fIndices : vec Z
}.

(** What the constructor makes of a normal: [n = worldFromObject(n); if
    (reverseOrientation) n = -n;] *)
Definition world_normal (a : Args) (n : Normal3f) : Normal3f :=
  let n := applyN (worldFromObject a) n in
  if reverse a then negN n else n.

(** An optional attribute: skipped when the vector is empty; else its
    size is checked against the expected count, its elements are
    transformed by [f] in place, and it is entered into its cache. *)
Definition optional_attribute {T : Type} `{Elem T} (debug : bool) (expected : Z)
    (f : T -> T) (v : vec T) (c : BufferCache.BufferCache)
  : result (option nat * BufferCache.BufferCache) :=
  if negb (vec_empty v) then
    CHECK (expected =? vec_size v) ;;
    '(q, c') ← BufferCache.LookupOrAdd HashBuffer debug (as_bytes (vec_map f v)) c;
    Ok (Some q, c')
  else Ok (None, c).

(** [TriangleMesh::TriangleMesh(worldFromObject, reverseOrientation,
    indices, P, S, N, UV, fIndices)], with the caches allocated.  The
    comparisons of [nVertices] and [nTriangles] with a [size()] are made
    in [size_t]. *)
Definition TriangleMesh_ctor (debug : bool) (a : Args) (g : Caches * Stats)
  : result (TriangleMesh * (Caches * Stats)) :=
  let '(cs, st) := g in
  let nTriangles := to_int (vec_size (indices a) / 3) in
  let nVertices := to_int (vec_size (P a)) in
  CHECK (vec_size (indices a) mod 3 =? 0) ;;
  let st := mkStats (meshIndexBytes st) (meshPositionBytes st) (meshNormalBytes st)
                    (meshUVBytes st) (meshTangentBytes st) (meshFaceIndexBytes st)
                    (nTris st + nTriangles) (Datatypes.S (nTriMeshes st))
                    (triangleBytes st) in
  CHECK (vec_size (P a) <=? INT_MAX) ;;
  CHECK (vec_size (indices a) <=? INT_MAX) ;;
  '(vertexIndices, ic) ←
    BufferCache.LookupOrAdd HashBuffer debug (as_bytes (indices a)) (indexBufferCache cs);
  let st := mkStats (meshIndexBytes st) (meshPositionBytes st) (meshNormalBytes st)
                    (meshUVBytes st) (meshTangentBytes st) (meshFaceIndexBytes st)
                    (nTris st) (nTriMeshes st)
                    (triangleBytes st + sizeof_TriangleMesh) in
  '(p, pc) ←
    BufferCache.LookupOrAdd HashBuffer debug
      (as_bytes (vec_map (applyP (worldFromObject a)) (P a))) (pBufferCache cs);
  '(uv, uc) ← optional_attribute debug (u64 nVertices) id (UV a) (uvBufferCache cs);
  '(n, nc) ←
    optional_attribute debug (u64 nVertices) (world_normal a) (N a) (nBufferCache cs);
  '(s, sc) ←
    optional_attribute debug (u64 nVertices) (applyV (worldFromObject a)) (S a)
      (sBufferCache cs);
  '(faceIndices, fc) ←
    optional_attribute debug (u64 nTriangles) id (fIndices a) (faceIndexBufferCache cs);
  Ok (mkMesh (reverse a) (SwapsHandedness (worldFromObject a)) nTriangles nVertices
             vertexIndices p n s uv faceIndices,
      (mkCaches ic pc nc uc sc fc, st)).

(** Meshes built one after the other. *)
Fixpoint construct_all (debug : bool) (l : list Args) (g : Caches * Stats)
  : result (list TriangleMesh * (Caches * Stats)) :=
  match l with
  | [] => Ok ([], g)
  | a :: l' =>
      '(m, g1) ← TriangleMesh_ctor debug a g;
      '(ms, g2) ← construct_all debug l' g1;
      Ok (m :: ms, g2)
  end.

(** The conditions the constructor's [CHECK]s impose on its arguments. *)
Definition checks_pass (a : Args) : bool :=
  (vec_size (indices a) mod 3 =? 0)
  && (vec_size (P a) <=? INT_MAX)
  && (vec_size (indices a) <=? INT_MAX)
  && (vec_empty (UV a) || (vec_size (UV a) =? vec_size (P a)))
  && (vec_empty (N a) || (vec_size (N a) =? vec_size (P a)))
  && (vec_empty (S a) || (vec_size (S a) =? vec_size (P a)))
  && (vec_empty (fIndices a) || (vec_size (fIndices a) =? vec_size (indices a) / 3)).

(** All six caches are consistent. *)
Definition caches_ok (cs : Caches) : Prop :=
  BufferCache.cache_ok HashBuffer (indexBufferCache cs)
  /\ BufferCache.cache_ok HashBuffer (pBufferCache cs)
  /\ BufferCache.cache_ok HashBuffer (nBufferCache cs)
  /\ BufferCache.cache_ok HashBuffer (uvBufferCache cs)
  /\ BufferCache.cache_ok HashBuffer (sBufferCache cs)
  /\ BufferCache.cache_ok HashBuffer (faceIndexBufferCache cs).

(** Each cache of [cs'] keeps what the one of [cs] holds. *)
Definition caches_extend (cs cs' : Caches) : Prop :=
  BufferCache.extends (indexBufferCache cs) (indexBufferCache cs')
  /\ BufferCache.extends (pBufferCache cs) (pBufferCache cs')
  /\ BufferCache.extends (nBufferCache cs) (nBufferCache cs')
  /\ BufferCache.extends (uvBufferCache cs) (uvBufferCache cs')
  /\ BufferCache.extends (sBufferCache cs) (sBufferCache cs')
  /\ BufferCache.extends (faceIndexBufferCache cs) (faceIndexBufferCache cs').

(** [BytesUsed()] of a cache is the total capacity of its stored copies. *)
Definition bytes_ok (stored_capacity : list byte -> nat) (c : BufferCache.BufferCache)
  : Prop :=
  BufferCache.cache_ok HashBuffer c
  /\ BufferCache.BytesUsed stored_capacity c
     = sum_list_with stored_capacity (BufferCache.heap c).

(** What holds of the caches and the byte counters between [Init] and
    [Free]. *)
Definition lifecycle_inv (stored_capacity : list byte -> nat) (st0 : Stats)
    (g : Caches * Stats) : Prop :=
  (bytes_ok stored_capacity (indexBufferCache (fst g))
   /\ bytes_ok stored_capacity (pBufferCache (fst g))
   /\ bytes_ok stored_capacity (nBufferCache (fst g))
   /\ bytes_ok stored_capacity (uvBufferCache (fst g))
   /\ bytes_ok stored_capacity (sBufferCache (fst g))
   /\ bytes_ok stored_capacity (faceIndexBufferCache (fst g)))
  /\ (meshIndexBytes (snd g) = meshIndexBytes st0
      /\ meshPositionBytes (snd g) = meshPositionBytes st0
      /\ meshNormalBytes (snd g) = meshNormalBytes st0
      /\ meshUVBytes (snd g) = meshUVBytes st0
      /\ meshTangentBytes (snd g) = meshTangentBytes st0
      /\ meshFaceIndexBytes (snd g) = meshFaceIndexBytes st0).

(** The six caches, in the order of the file-scope pointers. *)
Definition all_caches (cs : Caches) : list BufferCache.BufferCache :=
  [indexBufferCache cs; pBufferCache cs; nBufferCache cs; uvBufferCache cs;
   sBufferCache cs; faceIndexBufferCache cs].

(** *** The constructor's checks *)

Lemma bind_Ok {A B : Type} (m : result A) (k : A -> result B) (y : B) :
  m ≫= k = Ok y -> exists x, m = Ok x /\ k x = Ok y.
Proof. destruct m; cbn; [eauto | discriminate..]. Qed.

Lemma bind_no_fuel {A B : Type} (m : result A) (k : A -> result B) :
  m <> OutOfFuel -> (forall x, k x <> OutOfFuel) -> m ≫= k <> OutOfFuel.
Proof.
  intros Hm Hk. destruct m; cbn; [apply Hk | discriminate | exfalso; apply Hm; reflexivity].
Qed.

Lemma CHECK_Ok b u : CHECK b = Ok u -> b = true.
Proof. destruct b; [reflexivity | discriminate]. Qed.

Lemma CHECK_no_fuel b : CHECK b <> OutOfFuel.
Proof. destruct b; discriminate. Qed.

Lemma to_int_small x : 0 <= x <= INT_MAX -> to_int x = x.
Proof.
  unfold to_int, INT_MAX, RNG.to_int32, u32. intros H. rewrite Z.mod_small by lia.
  destruct (Z.ltb_spec x (2 ^ 31)); lia.
Qed.

Lemma vec_size_nonneg {T} (v : vec T) : 0 <= vec_size v.
Proof. unfold vec_size. lia. Qed.

Lemma vec_empty_true {T} (v : vec T) : vec_empty v = true <-> elems v = [].
Proof. unfold vec_empty. destruct (elems v); split; congruence. Qed.

Lemma LookupOrAdd_release buf c :
  exists q c', BufferCache.LookupOrAdd HashBuffer false buf c = Ok (q, c').
Proof.
  unfold BufferCache.LookupOrAdd. destruct (_ !! _); eexists _, _; reflexivity.
Qed.

Lemma LookupOrAdd_no_fuel debug buf c :
  BufferCache.LookupOrAdd HashBuffer debug buf c <> OutOfFuel.
Proof.
  unfold BufferCache.LookupOrAdd, BufferCache.on_hit.
  destruct (_ !! _); [destruct (debug && negb _)|]; discriminate.
Qed.

Section Optional.

Context {T : Type} `{Elem T}.
Variables (debug : bool) (expected : Z) (f : T -> T) (v : vec T)
          (c : BufferCache.BufferCache).

Lemma optional_attribute_Ok q c' :
  optional_attribute debug expected f v c = Ok (q, c') ->
  (vec_empty v = true /\ q = None /\ c' = c)
  \/ (vec_empty v = false /\ expected = vec_size v
      /\ exists x, q = Some x
                   /\ BufferCache.LookupOrAdd HashBuffer debug (as_bytes (vec_map f v)) c
                      = Ok (x, c')).
Proof.
  unfold optional_attribute. destruct (vec_empty v); cbn [negb].
  - intros [= <- <-]. left. auto.
  - intros Hb. right. apply bind_Ok in Hb as (u & Hc & Hb).
    apply CHECK_Ok, Z.eqb_eq in Hc.
    apply bind_Ok in Hb as ([x c1] & Hl & Hb). cbn in Hb. injection Hb as <- <-. eauto 6.
Qed.

Lemma optional_attribute_no_fuel : optional_attribute debug expected f v c <> OutOfFuel.
Proof.
  unfold optional_attribute. destruct (vec_empty v); cbn [negb]; [discriminate|].
  apply bind_no_fuel; [apply CHECK_no_fuel|]. intros _.
  apply bind_no_fuel; [apply LookupOrAdd_no_fuel|]. intros [? ?]. discriminate.
Qed.

End Optional.

Lemma optional_attribute_release {T : Type} `{Elem T} expected (f : T -> T) v c :
  vec_empty v || (expected =? vec_size v) = true ->
  exists q c', optional_attribute false expected f v c = Ok (q, c').
Proof.
  unfold optional_attribute. destruct (vec_empty v); cbn [negb orb].
  - eauto.
  - intros ->. cbn.
    destruct (LookupOrAdd_release (as_bytes (vec_map f v)) c) as (q & c' & ->).
    cbn. eauto.
Qed.

Lemma TriangleMesh_ctor_no_fuel debug a g : TriangleMesh_ctor debug a g <> OutOfFuel.
Proof.
  unfold TriangleMesh_ctor. destruct g as [cs st].
  repeat (apply bind_no_fuel;
          [first [apply CHECK_no_fuel | apply LookupOrAdd_no_fuel
                 | apply optional_attribute_no_fuel]
          | first [intros [? ?] | intros ?]]).
  discriminate.
Qed.

(** What a successful construction has done, step by step. *)
Lemma TriangleMesh_ctor_Ok debug a cs st m cs' st' :
  TriangleMesh_ctor debug a (cs, st) = Ok (m, (cs', st')) ->
  vec_size (indices a) mod 3 = 0
  /\ vec_size (P a) <= INT_MAX /\ vec_size (indices a) <= INT_MAX
  /\ nTriangles m = vec_size (indices a) / 3 /\ nVertices m = vec_size (P a)
  /\ BufferCache.LookupOrAdd HashBuffer debug (as_bytes (indices a)) (indexBufferCache cs)
     = Ok (vertexIndices m, indexBufferCache cs')
  /\ BufferCache.LookupOrAdd HashBuffer debug
       (as_bytes (vec_map (applyP (worldFromObject a)) (P a))) (pBufferCache cs)
     = Ok (p m, pBufferCache cs')
  /\ optional_attribute debug (vec_size (P a)) id (UV a) (uvBufferCache cs)
     = Ok (uv m, uvBufferCache cs')
  /\ optional_attribute debug (vec_size (P a)) (world_normal a) (N a) (nBufferCache cs)
     = Ok (n m, nBufferCache cs')
  /\ optional_attribute debug (vec_size (P a)) (applyV (worldFromObject a)) (S a)
       (sBufferCache cs)
     = Ok (s m, sBufferCache cs')
  /\ optional_attribute debug (vec_size (indices a) / 3) id (fIndices a)
       (faceIndexBufferCache cs)
     = Ok (faceIndices m, faceIndexBufferCache cs')
  /\ nTriMeshes st' = (nTriMeshes st + 1)%nat
  /\ nTris st' = nTris st + nTriangles m
  /\ triangleBytes st' = (triangleBytes st + sizeof_TriangleMesh)%nat
  /\ meshIndexBytes st' = meshIndexBytes st
  /\ meshPositionBytes st' = meshPositionBytes st
  /\ meshNormalBytes st' = meshNormalBytes st
  /\ meshUVBytes st' = meshUVBytes st
  /\ meshTangentBytes st' = meshTangentBytes st
  /\ meshFaceIndexBytes st' = meshFaceIndexBytes st.
Proof.
  unfold TriangleMesh_ctor. intros H.
  apply bind_Ok in H as (u1 & H1 & H). apply CHECK_Ok, Z.eqb_eq in H1.
  apply bind_Ok in H as (u2 & H2 & H). apply CHECK_Ok, Z.leb_le in H2.
  apply bind_Ok in H as (u3 & H3 & H). apply CHECK_Ok, Z.leb_le in H3.
  pose proof (vec_size_nonneg (P a)) as HP. pose proof (vec_size_nonneg (indices a)) as HI.
  assert (HT : 0 <= vec_size (indices a) / 3 <= INT_MAX).
  { split; [apply Z.div_pos; lia|]. apply Z.div_le_upper_bound; lia. }
  assert (E1 : u64 (to_int (vec_size (P a))) = vec_size (P a)).
  { rewrite to_int_small by lia. apply RNG.u64_small. unfold INT_MAX in H2. lia. }
  assert (E2 : u64 (to_int (vec_size (indices a) / 3)) = vec_size (indices a) / 3).
  { rewrite to_int_small by lia. apply RNG.u64_small. unfold INT_MAX in HT. lia. }
  rewrite E1, E2 in H. rewrite (to_int_small _ HT), (to_int_small (vec_size (P a))) in H by lia.
  apply bind_Ok in H as ([vi ic] & Hvi & H).
  apply bind_Ok in H as ([pp pc] & Hp & H).
  apply bind_Ok in H as ([quv uc] & Huv & H).
  apply bind_Ok in H as ([qn nc] & Hn & H).
  apply bind_Ok in H as ([qs sc] & Hs & H).
  apply bind_Ok in H as ([qf fc] & Hf & H).
  injection H as <- <- <-. cbn.
  repeat split; try assumption; try lia.
Qed.

Lemma optional_attribute_facts {T : Type} `{Elem T} debug expected (f : T -> T) v c q c' :
  optional_attribute debug expected f v c = Ok (q, c') ->
  vec_empty v || (vec_size v =? expected) = true /\ (q = None <-> elems v = []).
Proof.
  intros Ho. rewrite <- vec_empty_true.
  destruct (optional_attribute_Ok _ _ _ _ _ _ _ Ho) as [(-> & -> & _)|(-> & -> & x & -> & _)].
  - split; [reflexivity | tauto].
  - rewrite Z.eqb_refl. split; [reflexivity | split; discriminate].
Qed.

(** X20.  The constructor's checks.  A [TriangleMesh] is built only from
    arguments that pass every [CHECK]: a whole number of index triples, at
    most [INT_MAX] vertices and indices, and each optional attribute
    either empty or of matching size.  Then [3 * nTriangles] is the number
    of indices, [nVertices] the number of positions, and an optional
    pointer is null exactly when its vector was empty.  In a release build
    such arguments always succeed; arguments that fail a check abort in
    every build. *)
Theorem TriangleMesh_ctor_checks :
  (forall debug a g m g',
      TriangleMesh_ctor debug a g = Ok (m, g') ->
      checks_pass a = true
      /\ 3 * nTriangles m = vec_size (indices a)
      /\ nVertices m = vec_size (P a)
      /\ (uv m = None <-> elems (UV a) = [])
      /\ (n m = None <-> elems (N a) = [])
      /\ (s m = None <-> elems (S a) = [])
      /\ (faceIndices m = None <-> elems (fIndices a) = [])
      /\ nTriMeshes (snd g') = (nTriMeshes (snd g) + 1)%nat
      /\ nTris (snd g') = nTris (snd g) + nTriangles m)
  /\ (forall a g, checks_pass a = true ->
        exists m g', TriangleMesh_ctor false a g = Ok (m, g'))
  /\ (forall debug a g, checks_pass a = false ->
        TriangleMesh_ctor debug a g = CheckFailed).
Proof.
  assert (Hinv : forall debug a g m g',
      TriangleMesh_ctor debug a g = Ok (m, g') ->
      checks_pass a = true
      /\ 3 * nTriangles m = vec_size (indices a)
      /\ nVertices m = vec_size (P a)
      /\ (uv m = None <-> elems (UV a) = [])
      /\ (n m = None <-> elems (N a) = [])
      /\ (s m = None <-> elems (S a) = [])
      /\ (faceIndices m = None <-> elems (fIndices a) = [])
      /\ nTriMeshes (snd g') = (nTriMeshes (snd g) + 1)%nat
      /\ nTris (snd g') = nTris (snd g) + nTriangles m).
  { intros debug a [cs st] m [cs' st'] Hrun.
    destruct (TriangleMesh_ctor_Ok _ _ _ _ _ _ _ Hrun)
      as (H1 & H2 & H3 & HnT & HnV & _ & _ & Huv & Hn & Hs & Hf & Hst1 & Hst2 & _).
    destruct (optional_attribute_facts _ _ _ _ _ _ _ Huv) as [Cuv Nuv].
    destruct (optional_attribute_facts _ _ _ _ _ _ _ Hn) as [Cn Nn].
    destruct (optional_attribute_facts _ _ _ _ _ _ _ Hs) as [Cs Ns].
    destruct (optional_attribute_facts _ _ _ _ _ _ _ Hf) as [Cf Nf].
    split.
    - unfold checks_pass. rewrite Cuv, Cn, Cs, Cf.
      apply Z.eqb_eq in H1. apply Z.leb_le in H2, H3. rewrite H1, H2, H3. reflexivity.
    - cbn [snd]. rewrite Hst2, HnT, HnV.
      split; [symmetry; apply Z.div_exact; [lia | exact H1]|].
      repeat split; try tauto; try assumption; reflexivity. }
  split; [exact Hinv|]. split.
  - intros a [cs st]. unfold checks_pass. rewrite !andb_true_iff.
    intros ((((((H1 & H2) & H3) & Huv) & Hn) & Hs) & Hf).
    pose proof H2 as H2'. pose proof H3 as H3'. apply Z.leb_le in H2', H3'.
    pose proof (vec_size_nonneg (P a)) as HP.
    pose proof (vec_size_nonneg (indices a)) as HI.
    assert (HT : 0 <= vec_size (indices a) / 3 <= INT_MAX).
    { split; [apply Z.div_pos; lia|]. apply Z.div_le_upper_bound; lia. }
    assert (E1 : u64 (to_int (vec_size (P a))) = vec_size (P a)).
    { rewrite to_int_small by lia. apply RNG.u64_small. unfold INT_MAX in H2'. lia. }
    assert (E2 : u64 (to_int (vec_size (indices a) / 3)) = vec_size (indices a) / 3).
    { rewrite to_int_small by lia. apply RNG.u64_small. unfold INT_MAX in HT. lia. }
    unfold TriangleMesh_ctor. rewrite H1, H2, H3, E1, E2. cbn [CHECK mbind result_bind].
    destruct (LookupOrAdd_release (as_bytes (indices a)) (indexBufferCache cs))
      as (vi & ic & ->).
    destruct (LookupOrAdd_release (as_bytes (vec_map (applyP (worldFromObject a)) (P a)))
                (pBufferCache cs)) as (pp & pc & ->).
    rewrite (Z.eqb_sym (vec_size (UV a))) in Huv. rewrite (Z.eqb_sym (vec_size (N a))) in Hn.
    rewrite (Z.eqb_sym (vec_size (S a))) in Hs.
    rewrite (Z.eqb_sym (vec_size (fIndices a))) in Hf.
    destruct (optional_attribute_release _ id _ (uvBufferCache cs) Huv) as (quv & uc & ->).
    destruct (optional_attribute_release _ (world_normal a) _ (nBufferCache cs) Hn)
      as (qn & nc & ->).
    destruct (optional_attribute_release _ (applyV (worldFromObject a)) _ (sBufferCache cs) Hs)
      as (qs & sc & ->).
    destruct (optional_attribute_release _ id _ (faceIndexBufferCache cs) Hf)
      as (qf & fc & ->).
    cbn. eauto.
  - intros debug a g Hfail.
    destruct (TriangleMesh_ctor debug a g) as [[m g']| |] eqn:E; [|reflexivity|].
    + destruct (Hinv _ _ _ _ _ E) as [Hpass _]. congruence.
    + exfalso. exact (TriangleMesh_ctor_no_fuel _ _ _ E).
Qed.

(** *** Sharing buffers between meshes *)

Lemma LookupOrAdd_hit_again debug buf c x q c' :
  BufferCache.cache c !! BufferCache.BufferId_of HashBuffer (BufferCache.data buf) = Some x ->
  BufferCache.LookupOrAdd HashBuffer debug buf c = Ok (q, c') -> q = x.
Proof.
  intros Hx Hc.
  destruct (BufferCache.LookupOrAdd_cases _ _ _ _ _ _ Hc) as [[Hq _]|(Hq & _)]; congruence.
Qed.

(** Two vectors with the same elements look the same to a cache. *)
Lemma LookupOrAdd_shared {T : Type} `{Elem T} debug (v1 v2 : vec T) c1 q1 c1' c2 q2 c2' :
  BufferCache.cache_ok HashBuffer c1 ->
  BufferCache.LookupOrAdd HashBuffer debug (as_bytes v1) c1 = Ok (q1, c1') ->
  BufferCache.extends c1' c2 ->
  BufferCache.LookupOrAdd HashBuffer debug (as_bytes v2) c2 = Ok (q2, c2') ->
  elems v2 = elems v1 -> q2 = q1.
Proof.
  intros Hok H1 Hext H2 Heq.
  destruct (BufferCache.LookupOrAdd_ok _ _ _ _ _ _ Hok H1) as (_ & _ & Hin & _).
  apply (LookupOrAdd_hit_again debug (as_bytes v2) c2 q1 q2 c2'); [|exact H2].
  apply Hext. unfold as_bytes in *. cbn [BufferCache.data] in *. rewrite Heq. exact Hin.
Qed.

Lemma optional_attribute_ok {T : Type} `{Elem T} debug expected (f : T -> T) v c q c' :
  BufferCache.cache_ok HashBuffer c ->
  optional_attribute debug expected f v c = Ok (q, c') ->
  BufferCache.cache_ok HashBuffer c' /\ BufferCache.extends c c'.
Proof.
  intros Hok Ho.
  destruct (optional_attribute_Ok _ _ _ _ _ _ _ Ho) as [(_ & _ & ->)|(_ & _ & x & _ & Hl)].
  - split; [exact Hok | apply BufferCache.extends_refl].
  - destruct (BufferCache.LookupOrAdd_ok _ _ _ _ _ _ Hok Hl) as (Hok' & Hext & _). auto.
Qed.

Lemma optional_attribute_shared {T : Type} `{Elem T} debug e1 e2 (f1 f2 : T -> T)
    v1 v2 c1 q1 c1' c2 q2 c2' :
  BufferCache.cache_ok HashBuffer c1 ->
  optional_attribute debug e1 f1 v1 c1 = Ok (q1, c1') ->
  BufferCache.extends c1' c2 ->
  optional_attribute debug e2 f2 v2 c2 = Ok (q2, c2') ->
  f2 <$> elems v2 = f1 <$> elems v1 -> q2 = q1.
Proof.
  intros Hok H1 Hext H2 Heq.
  destruct (optional_attribute_Ok _ _ _ _ _ _ _ H1)
    as [(E1 & -> & _)|(E1 & _ & x1 & -> & L1)];
    destruct (optional_attribute_Ok _ _ _ _ _ _ _ H2)
      as [(E2 & -> & _)|(E2 & _ & x2 & -> & L2)].
  - reflexivity.
  - exfalso. apply vec_empty_true in E1. rewrite E1 in Heq. apply fmap_nil_inv in Heq.
    apply vec_empty_true in Heq. congruence.
  - exfalso. apply vec_empty_true in E2. rewrite E2 in Heq. symmetry in Heq.
    apply fmap_nil_inv in Heq. apply vec_empty_true in Heq. congruence.
  - f_equal. apply (LookupOrAdd_shared debug (vec_map f1 v1) (vec_map f2 v2) c1 x1 c1' c2 x2 c2');
      assumption.
Qed.

Lemma TriangleMesh_ctor_caches debug a cs st m cs' st' :
  caches_ok cs ->
  TriangleMesh_ctor debug a (cs, st) = Ok (m, (cs', st')) ->
  caches_ok cs' /\ caches_extend cs cs'.
Proof.
  intros (Ki & Kp & Kn & Ku & Ks & Kf) Hrun.
  destruct (TriangleMesh_ctor_Ok _ _ _ _ _ _ _ Hrun)
    as (_ & _ & _ & _ & _ & Hi & Hp & Hu & Hn & Hs & Hf & _).
  destruct (BufferCache.LookupOrAdd_ok _ _ _ _ _ _ Ki Hi) as (Ki' & Xi & _).
  destruct (BufferCache.LookupOrAdd_ok _ _ _ _ _ _ Kp Hp) as (Kp' & Xp & _).
  destruct (optional_attribute_ok _ _ _ _ _ _ _ Ku Hu) as (Ku' & Xu).
  destruct (optional_attribute_ok _ _ _ _ _ _ _ Kn Hn) as (Kn' & Xn).
  destruct (optional_attribute_ok _ _ _ _ _ _ _ Ks Hs) as (Ks' & Xs).
  destruct (optional_attribute_ok _ _ _ _ _ _ _ Kf Hf) as (Kf' & Xf).
  split.
  - exact (conj Ki' (conj Kp' (conj Kn' (conj Ku' (conj Ks' Kf'))))).
  - exact (conj Xi (conj Xp (conj Xn (conj Xu (conj Xs Xf))))).
Qed.

Lemma caches_extend_refl cs : caches_extend cs cs.
Proof. unfold caches_extend. auto 10 using BufferCache.extends_refl. Qed.

Lemma caches_extend_trans cs1 cs2 cs3 :
  caches_extend cs1 cs2 -> caches_extend cs2 cs3 -> caches_extend cs1 cs3.
Proof.
  intros (A1 & A2 & A3 & A4 & A5 & A6) (B1 & B2 & B3 & B4 & B5 & B6).
  unfold caches_extend.
  repeat (split; [eapply BufferCache.extends_trans; eassumption|]).
  eapply BufferCache.extends_trans; eassumption.
Qed.

Lemma construct_all_caches debug l : forall g ms g',
  caches_ok (fst g) ->
  construct_all debug l g = Ok (ms, g') ->
  caches_ok (fst g') /\ caches_extend (fst g) (fst g').
Proof.
  induction l as [|a l IH]; intros g ms g' Hok; cbn [construct_all].
  - intros [= <- <-]. split; [exact Hok | apply caches_extend_refl].
  - intros Hb. apply bind_Ok in Hb as ([m g1] & H1 & Hb).
    apply bind_Ok in Hb as ([ms' g2] & H2 & Hb). cbn in Hb. injection Hb as <- <-.
    destruct g as [cs st], g1 as [cs1 st1]. cbn [fst] in *.
    destruct (TriangleMesh_ctor_caches _ _ _ _ _ _ _ Hok H1) as (Hok1 & Hext1).
    destruct (IH (cs1, st1) _ _ Hok1 H2) as (Hok2 & Hext2).
    split; [exact Hok2 | exact (caches_extend_trans _ _ _ Hext1 Hext2)].
Qed.

(** X21.  Meshes share their buffers.  Of two meshes built with the caches
    in a consistent state, with any successful constructions in between,
    the later one gets the earlier one's pointer for every attribute whose
    data is the same: equal index lists, equal transformed positions,
    equal transformed normals and tangents, equal [uv] and face index
    lists.  Attributes absent in both are null in both. *)
Theorem TriangleMesh_shares_buffers (debug : bool) (a b : Args) (g0 g1 g2 g3 : Caches * Stats)
    (mA mB : TriangleMesh) (between : list Args) (ms : list TriangleMesh) :
  caches_ok (fst g0) ->
  TriangleMesh_ctor debug a g0 = Ok (mA, g1) ->
  construct_all debug between g1 = Ok (ms, g2) ->
  TriangleMesh_ctor debug b g2 = Ok (mB, g3) ->
  (elems (indices b) = elems (indices a) -> vertexIndices mB = vertexIndices mA)
  /\ (applyP (worldFromObject b) <$> elems (P b)
      = applyP (worldFromObject a) <$> elems (P a) -> p mB = p mA)
  /\ (elems (UV b) = elems (UV a) -> uv mB = uv mA)
  /\ (world_normal b <$> elems (N b) = world_normal a <$> elems (N a) -> n mB = n mA)
  /\ (applyV (worldFromObject b) <$> elems (S b)
      = applyV (worldFromObject a) <$> elems (S a) -> s mB = s mA)
  /\ (elems (fIndices b) = elems (fIndices a) -> faceIndices mB = faceIndices mA).
Proof.
  destruct g0 as [cs0 st0], g1 as [cs1 st1], g2 as [cs2 st2], g3 as [cs3 st3].
  cbn [fst]. intros Hok HA Hbetween HB.
  pose proof Hok as (Ki & Kp & Kn & Ku & Ks & Kf).
  destruct (TriangleMesh_ctor_caches _ _ _ _ _ _ _ Hok HA) as (Hok1 & _).
  destruct (construct_all_caches _ _ (cs1, st1) _ _ Hok1 Hbetween)
    as (_ & Xi & Xp & Xn & Xu & Xs & Xf).
  cbn [fst] in *.
  destruct (TriangleMesh_ctor_Ok _ _ _ _ _ _ _ HA)
    as (_ & _ & _ & _ & _ & Ai & Ap & Au & An & As & Af & _).
  destruct (TriangleMesh_ctor_Ok _ _ _ _ _ _ _ HB)
    as (_ & _ & _ & _ & _ & Bi & Bp & Bu & Bn & Bs & Bf & _).
  repeat split; intros Heq.
  - exact (LookupOrAdd_shared _ _ _ _ _ _ _ _ _ Ki Ai Xi Bi Heq).
  - exact (LookupOrAdd_shared _ _ _ _ _ _ _ _ _ Kp Ap Xp Bp Heq).
  - apply (optional_attribute_shared _ _ _ _ _ _ _ _ _ _ _ _ _ Ku Au Xu Bu).
    rewrite !list_fmap_id. exact Heq.
  - exact (optional_attribute_shared _ _ _ _ _ _ _ _ _ _ _ _ _ Kn An Xn Bn Heq).
  - exact (optional_attribute_shared _ _ _ _ _ _ _ _ _ _ _ _ _ Ks As Xs Bs Heq).
  - apply (optional_attribute_shared _ _ _ _ _ _ _ _ _ _ _ _ _ Kf Af Xf Bf).
    rewrite !list_fmap_id. exact Heq.
Qed.

(** *** From [InitBufferCaches] to [FreeBufferCaches] *)

Section Lifecycle.

Variable stored_capacity : list byte -> nat.

Lemma bytes_ok_empty : bytes_ok stored_capacity BufferCache.empty.
Proof. split; [apply BufferCache.cache_ok_empty | reflexivity]. Qed.

Lemma LookupOrAdd_bytes_ok debug buf c q c' :
  bytes_ok stored_capacity c ->
  BufferCache.LookupOrAdd HashBuffer debug buf c = Ok (q, c') ->
  bytes_ok stored_capacity c'.
Proof.
  intros [Hok Hsum] Hcall. split.
  - destruct (BufferCache.LookupOrAdd_ok _ _ _ _ _ _ Hok Hcall) as (Hok' & _). exact Hok'.
  - apply (BufferCache.LookupOrAdd_all_BytesUsed HashBuffer stored_capacity debug [buf] c [q]);
      [exact Hok | exact Hsum |].
    cbn [BufferCache.LookupOrAdd_all]. rewrite Hcall. reflexivity.
Qed.

Lemma optional_attribute_bytes_ok {T : Type} `{Elem T} debug expected (f : T -> T) v c q c' :
  bytes_ok stored_capacity c ->
  optional_attribute debug expected f v c = Ok (q, c') ->
  bytes_ok stored_capacity c'.
Proof.
  intros Hok Ho.
  destruct (optional_attribute_Ok _ _ _ _ _ _ _ Ho) as [(_ & _ & ->)|(_ & _ & x & _ & Hl)].
  - exact Hok.
  - exact (LookupOrAdd_bytes_ok _ _ _ _ _ Hok Hl).
Qed.

Lemma TriangleMesh_ctor_lifecycle debug a st0 g m g' :
  lifecycle_inv stored_capacity st0 g ->
  TriangleMesh_ctor debug a g = Ok (m, g') ->
  lifecycle_inv stored_capacity st0 g'.
Proof.
  destruct g as [cs st], g' as [cs' st'].
  intros [(Ki & Kp & Kn & Ku & Ks & Kf) (S1 & S2 & S3 & S4 & S5 & S6)] Hrun.
  cbn [fst snd] in *.
  destruct (TriangleMesh_ctor_Ok _ _ _ _ _ _ _ Hrun)
    as (_ & _ & _ & _ & _ & Hi & Hp & Hu & Hn & Hs & Hf & _ & _ & _
        & T1 & T2 & T3 & T4 & T5 & T6).
  split; cbn [fst snd].
  - split; [exact (LookupOrAdd_bytes_ok _ _ _ _ _ Ki Hi)|].
    split; [exact (LookupOrAdd_bytes_ok _ _ _ _ _ Kp Hp)|].
    split; [exact (optional_attribute_bytes_ok _ _ _ _ _ _ _ Kn Hn)|].
    split; [exact (optional_attribute_bytes_ok _ _ _ _ _ _ _ Ku Hu)|].
    split; [exact (optional_attribute_bytes_ok _ _ _ _ _ _ _ Ks Hs)|].
    exact (optional_attribute_bytes_ok _ _ _ _ _ _ _ Kf Hf).
  - repeat split; congruence.
Qed.

Lemma construct_all_lifecycle debug st0 l : forall g ms g',
  lifecycle_inv stored_capacity st0 g ->
  construct_all debug l g = Ok (ms, g') ->
  lifecycle_inv stored_capacity st0 g'.
Proof.
  induction l as [|a l IH]; intros g ms g' Hinv; cbn [construct_all].
  - intros [= <- <-]. exact Hinv.
  - intros Hb. apply bind_Ok in Hb as ([m g1] & H1 & Hb).
    apply bind_Ok in Hb as ([ms' g2] & H2 & Hb). cbn in Hb. injection Hb as <- <-.
    exact (IH _ _ _ (TriangleMesh_ctor_lifecycle _ _ _ _ _ _ Hinv H1) H2).
Qed.

(** X22.  From [InitBufferCaches] to [FreeBufferCaches].  [Init] succeeds
    on null pointers and allocates six empty caches.  After any number of
    successful mesh constructions, [Free] adds to each memory counter the
    total capacity of the buffers its cache stores, each distinct buffer
    once however many meshes share it, and empties the caches.  It leaves
    the pointers set: calling [InitBufferCaches] again fails its [CHECK]. *)
Theorem FreeBufferCaches_accounts (debug : bool) (l : list Args) (st0 : Stats)
    (ms : list TriangleMesh) (cs : Caches) (st : Stats) :
  construct_all debug l (fresh_caches, st0) = Ok (ms, (cs, st)) ->
  InitBufferCaches None = Ok (Some fresh_caches)
  /\ (meshIndexBytes (snd (FreeBufferCaches stored_capacity (cs, st)))
      = meshIndexBytes st0
        + sum_list_with stored_capacity (BufferCache.heap (indexBufferCache cs)))%nat
  /\ (meshPositionBytes (snd (FreeBufferCaches stored_capacity (cs, st)))
      = meshPositionBytes st0
        + sum_list_with stored_capacity (BufferCache.heap (pBufferCache cs)))%nat
  /\ (meshNormalBytes (snd (FreeBufferCaches stored_capacity (cs, st)))
      = meshNormalBytes st0
        + sum_list_with stored_capacity (BufferCache.heap (nBufferCache cs)))%nat
  /\ (meshUVBytes (snd (FreeBufferCaches stored_capacity (cs, st)))
      = meshUVBytes st0
        + sum_list_with stored_capacity (BufferCache.heap (uvBufferCache cs)))%nat
  /\ (meshTangentBytes (snd (FreeBufferCaches stored_capacity (cs, st)))
      = meshTangentBytes st0
        + sum_list_with stored_capacity (BufferCache.heap (sBufferCache cs)))%nat
  /\ (meshFaceIndexBytes (snd (FreeBufferCaches stored_capacity (cs, st)))
      = meshFaceIndexBytes st0
        + sum_list_with stored_capacity (BufferCache.heap (faceIndexBufferCache cs)))%nat
  /\ Forall (fun c => BufferCache.same_store c BufferCache.empty)
            (all_caches (fst (FreeBufferCaches stored_capacity (cs, st))))
  /\ InitBufferCaches (Some (fst (FreeBufferCaches stored_capacity (cs, st)))) = CheckFailed.
Proof.
  intros Hrun.
  assert (Hinv : lifecycle_inv stored_capacity st0 (fresh_caches, st0)).
  { split; cbn [fst snd fresh_caches indexBufferCache pBufferCache nBufferCache
                 uvBufferCache sBufferCache faceIndexBufferCache];
      auto 10 using bytes_ok_empty. }
  destruct (construct_all_lifecycle _ _ _ _ _ _ Hinv Hrun)
    as [((_ & B1) & (_ & B2) & (_ & B3) & (_ & B4) & (_ & B5) & (_ & B6))
        (S1 & S2 & S3 & S4 & S5 & S6)].
  cbn [fst snd] in *.
  split; [reflexivity|].
  cbn [FreeBufferCaches snd fst meshIndexBytes meshPositionBytes meshNormalBytes meshUVBytes
       meshTangentBytes meshFaceIndexBytes].
  rewrite B1, B2, B3, B4, B5, B6, S1, S2, S3, S4, S5, S6.
  repeat (split; [reflexivity|]).
  split; [|reflexivity].
  repeat constructor.
Qed.

End Lifecycle.

End Geometry.

(** *** A small instance *)

(** Integers for positions, normals, tangents and texture coordinates; a
    transform is a translation, which swaps handedness when negative. *)
Definition line_ctor (debug : bool) (a : Args Z Z Z Z Z) (g : Caches * Stats)
  : result (TriangleMesh * (Caches * Stats)) :=
  TriangleMesh_ctor BufferCache.checksum Z Z Z Z Z (fun t => t <? 0) Z.add Z.add Z.add Z.opp
                    64 debug a g.

Definition line_all (debug : bool) (l : list (Args Z Z Z Z Z)) (g : Caches * Stats)
  : result (list TriangleMesh * (Caches * Stats)) :=
  construct_all BufferCache.checksum Z Z Z Z Z (fun t => t <? 0) Z.add Z.add Z.add Z.opp
                64 debug l g.

Definition no_stats : Stats := mkStats 0 0 0 0 0 0 0 0 0.

(** One triangle, and the same triangle given in other coordinates. *)
Definition tri_a : Args Z Z Z Z Z :=
  mkArgs Z Z Z Z Z 10 false (mkVec [0; 1; 2] 3) (mkVec [1; 2; 3] 3)
         (mkVec [] 0) (mkVec [] 0) (mkVec [] 0) (mkVec [] 0).
Definition tri_b : Args Z Z Z Z Z :=
  mkArgs Z Z Z Z Z 5 false (mkVec [0; 1; 2] 8) (mkVec [6; 7; 8] 4)
         (mkVec [] 0) (mkVec [] 0) (mkVec [] 0) (mkVec [0] 1).

Example line_ctor_example :
  option_map fst
    (match line_all true [tri_a; tri_b] (fresh_caches, no_stats) with
     | Ok r => Some r
     | _ => None
     end)
  = Some [mkMesh false false 1 3 0 0 None None None None;
          mkMesh false false 1 3 0 0 None None None (Some 0%nat)].
Proof. vm_compute. reflexivity. Qed.

Lemma caches_ok_fresh HashBuffer : caches_ok HashBuffer fresh_caches.
Proof. repeat split; intros ? ? H; cbn in H; try rewrite lookup_empty in H; discriminate. Qed.

Lemma TriangleMesh_shares_buffers_witness :
  exists mA mB g1 g3,
    line_ctor true tri_a (fresh_caches, no_stats) = Ok (mA, g1)
    /\ line_ctor true tri_b g1 = Ok (mB, g3)
    /\ vertexIndices mB = vertexIndices mA
    /\ p mB = p mA.
Proof.
  destruct (line_ctor true tri_a (fresh_caches, no_stats)) as [[mA g1]| |] eqn:EA;
    [|vm_compute in EA; discriminate..].
  destruct (line_ctor true tri_b g1) as [[mB g3]| |] eqn:EB.
  2,3: apply (f_equal (fun r => match r with Ok (_, g) => Some g | _ => None end)) in EA;
       vm_compute in EA; injection EA as <-; vm_compute in EB; discriminate.
  exists mA, mB, g1, g3. split; [reflexivity|]. split; [exact EB|].
  destruct (TriangleMesh_shares_buffers BufferCache.checksum Z Z Z Z Z (fun t => t <? 0)
              Z.add Z.add Z.add Z.opp 64 true tri_a tri_b (fresh_caches, no_stats) g1 g1 g3
              mA mB [] [] (caches_ok_fresh _) EA eq_refl EB) as (Hi & Hp & _).
  split; [apply Hi | apply Hp]; reflexivity.
Defined.

Lemma FreeBufferCaches_accounts_witness :
  exists ms cs st,
    line_all true [tri_a; tri_b] (fresh_caches, no_stats) = Ok (ms, (cs, st))
    /\ (meshIndexBytes (snd (FreeBufferCaches length (cs, st)))
        = meshIndexBytes no_stats
          + sum_list_with length (BufferCache.heap (indexBufferCache cs)))%nat
    /\ InitBufferCaches (Some (fst (FreeBufferCaches length (cs, st)))) = CheckFailed.
Proof.
  destruct (line_all true [tri_a; tri_b] (fresh_caches, no_stats)) as [[ms [cs st]]| |] eqn:E;
    [|vm_compute in E; discriminate..].
  exists ms, cs, st. split; [reflexivity|].
  destruct (FreeBufferCaches_accounts BufferCache.checksum Z Z Z Z Z (fun t => t <? 0)
              Z.add Z.add Z.add Z.opp 64 length true [tri_a; tri_b] no_stats ms cs st E)
    as (_ & H1 & _ & _ & _ & _ & _ & _ & H2).
  split; assumption.
Defined.

(** *** The face callback *)

Example run_callbacks_example :
  run_callbacks (face_events [7; 8; 9] ++ face_events [1; 2]
                   ++ face_events [10; 11; 12; 13])
                (mkContext [0; 0; 0; 0] [] [])
  = Ok ([IgnoringFace 2; IgnoringFace 2; IgnoringFace 2],
        mkContext [10; 11; 12; 13] [7; 8; 9] [10; 11; 13; 12]).
Proof. vm_compute. reflexivity. Qed.

(** X19.  Callbacks in any order, each for a position of its list
    ([value_index < length], or [-1] for the length), on a context whose
    [face] has its four entries, so that every store lands inside the
    array.  [rply_face_callback] never trips its [CHECK_EQ], and it appends
    vertex indices three at a time to [triIndices] and four at a time to
    [quadIndices]: also when faces arrive incomplete, the vectors [ReadPLY]
    collects hold whole triangles and whole quads. *)
Theorem rply_face_callback_whole_faces (events : list (Z * Z * Z))
    (context : FaceCallbackContext) :
  length (face context) = 4%nat ->
  Forall (fun e => snd (fst e) < fst (fst e)) events ->
  exists ws context',
    run_callbacks events context = Ok (ws, context')
    /\ (exists k, length (triIndices context') = length (triIndices context) + 3 * k)%nat
    /\ (exists k, length (quadIndices context') = length (quadIndices context) + 4 * k)%nat
    /\ length (face context') = 4%nat.
Proof.
  intros Hface Hin. revert context Hface.
  induction Hin as [|[[len vi] v] events Hvi Hin IH]; intros context Hface.
  - exists [], context. split; [reflexivity|].
    split; [exists 0%nat; lia|]. split; [exists 0%nat; lia | exact Hface].
  - cbn [fst snd] in Hvi.
    assert (Hone : exists w c1,
      rply_face_callback len vi v context = Ok (w, c1)
      /\ (exists k, length (triIndices c1) = length (triIndices context) + 3 * k)%nat
      /\ (exists k, length (quadIndices c1) = length (quadIndices context) + 4 * k)%nat
      /\ length (face c1) = 4%nat).
    { unfold rply_face_callback.
      destruct (len =? 3), (len =? 4), (vi <? 0), (vi >=? 0), (vi =? len - 1);
        cbn [negb andb];
        eexists _, _; (split; [reflexivity|]); cbn [face triIndices quadIndices];
        rewrite ?length_app, ?length_insert; cbn [length];
        (split; [first [exists 0%nat; lia | exists 1%nat; lia]|]);
        (split; [first [exists 0%nat; lia | exists 1%nat; lia] | exact Hface]). }
    destruct Hone as (w & c1 & E1 & [k1 T1] & [k2 Q1] & F1).
    destruct (IH c1 F1) as (ws & c2 & E2 & [k3 T2] & [k4 Q2] & F2).
    exists (w ++ ws), c2. cbn [run_callbacks]. rewrite E1, E2.
    split; [reflexivity|].
    split; [exists (k1 + k3)%nat; lia|]. split; [exists (k2 + k4)%nat; lia | exact F2].
Qed.

(** A triangle, then a quad of which only two entries arrive. *)
Lemma rply_face_callback_whole_faces_witness :
  exists ws context',
    run_callbacks [(3, -1, 3); (3, 0, 7); (3, 1, 8); (3, 2, 9); (4, 0, 5); (4, 3, 6)]
                  (mkContext [0; 0; 0; 0] [] [])
    = Ok (ws, context')
    /\ (exists k, length (triIndices context') = 0 + 3 * k)%nat
    /\ (exists k, length (quadIndices context') = 0 + 4 * k)%nat
    /\ length (face context') = 4%nat.
Proof.
  apply (rply_face_callback_whole_faces
           [(3, -1, 3); (3, 0, 7); (3, 1, 8); (3, 2, 9); (4, 0, 5); (4, 3, 6)]
           (mkContext [0; 0; 0; 0] [] [])).
  - reflexivity.
  - repeat (constructor; [cbn; lia|]). constructor.
Defined.

Lemma run_callbacks_app e1 e2 context :
  run_callbacks (e1 ++ e2) context
  = '(w1, c1) ← run_callbacks e1 context;
    '(w2, c2) ← run_callbacks e2 c1;
    Ok (w1 ++ w2, c2).
Proof.
  revert context. induction e1 as [|[[len vi] v] e1 IH]; intros context.
  - cbn. destruct (run_callbacks e2 context) as [[w2 c2]| |]; reflexivity.
  - cbn [app run_callbacks].
    destruct (rply_face_callback len vi v context) as [[w c1]| |]; [|reflexivity..].
    rewrite IH. cbn.
    destruct (run_callbacks e1 c1) as [[w1 c2]| |]; [|reflexivity..]. cbn.
    destruct (run_callbacks e2 c2) as [[w2 c3]| |]; [|reflexivity..]. cbn.
    rewrite app_assoc. reflexivity.
Qed.

(** Callbacks for a face that is neither a triangle nor a quad only warn. *)
Lemma run_callbacks_ignored n events context :
  n <> 3 -> n <> 4 -> Forall (fun e => fst (fst e) = n) events ->
  run_callbacks events context
  = Ok (replicate (length events) (IgnoringFace (to_int n)), context).
Proof.
  intros H3 H4 Hall. induction Hall as [|[[len vi] v] events Hlen Hall IH]; [reflexivity|].
  cbn [fst] in Hlen. subst len. cbn [run_callbacks]. unfold rply_face_callback.
  destruct (Z.eqb_spec n 3); [contradiction|]. destruct (Z.eqb_spec n 4); [contradiction|].
  cbn [negb andb]. rewrite IH. reflexivity.
Qed.

Lemma face_events_length vs :
  length (face_events vs) = (length vs + 1)%nat
  /\ Forall (fun e => fst (fst e) = Z.of_nat (length vs)) (face_events vs).
Proof.
  unfold face_events. cbn [length]. rewrite length_imap. split; [lia|].
  constructor; [reflexivity|]. generalize (Z.of_nat (length vs)). intros n.
  assert (Hgen : forall f : nat -> Z -> Z * Z * Z,
            (forall i v, fst (fst (f i v)) = n) ->
            Forall (fun e => fst (fst e) = n) (imap f vs)).
  { induction vs as [|v vs IH]; intros f Hf; cbn [imap]; constructor; [apply Hf|].
    apply IH. intros i w. apply Hf. }
  apply Hgen. reflexivity.
Qed.

(** One face, delivered by its callbacks. *)
Lemma run_callbacks_face vs context :
  length (face context) = 4%nat ->
  exists context',
    run_callbacks (face_events vs) context = Ok (face_warnings vs, context')
    /\ length (face context') = 4%nat
    /\ triIndices context'
       = triIndices context ++ (if (length vs =? 3)%nat then vs else [])
    /\ quadIndices context'
       = quadIndices context ++ (if (length vs =? 4)%nat then patch_order vs else []).
Proof.
  intros Hlen.
  destruct (decide (length vs = 3%nat \/ length vs = 4%nat)) as [[H3|H4]|Hother].
  - destruct vs as [|a [|b [|c [|d vs]]]]; try discriminate H3.
    destruct context as [[|f0 [|f1 [|f2 [|f3 [|f4 fs]]]]] t q]; try discriminate Hlen.
    eexists. split; [vm_compute; reflexivity|]. cbn. rewrite app_nil_r. auto.
  - destruct vs as [|a [|b [|c [|d [|e vs]]]]]; try discriminate H4.
    destruct context as [[|f0 [|f1 [|f2 [|f3 [|f4 fs]]]]] t q]; try discriminate Hlen.
    eexists. split; [vm_compute; reflexivity|]. cbn. rewrite app_nil_r. auto.
  - exists context. destruct (face_events_length vs) as [El Eall].
    rewrite (run_callbacks_ignored (Z.of_nat (length vs))); [|lia|lia|exact Eall].
    unfold face_warnings. rewrite bool_decide_eq_false_2 by exact Hother. rewrite El.
    destruct (Nat.eqb_spec (length vs) 3); [tauto|].
    destruct (Nat.eqb_spec (length vs) 4); [tauto|].
    rewrite !app_nil_r. auto.
Qed.

(** X23.  What [ReadPLY] collects from well-formed faces.  When rply
    delivers each face as its length followed by its entries, a triangle
    is appended to [triIndices] as it is, a quad [a b c d] is appended to
    [quadIndices] as [a b d c], and a face of any other size adds nothing
    and is warned about once per callback; faces of different kinds do
    not disturb each other. *)
Theorem rply_face_callback_faces (faces : list (list Z)) (context : FaceCallbackContext) :
  length (face context) = 4%nat ->
  exists context',
    run_callbacks (concat (face_events <$> faces)) context
    = Ok (concat (face_warnings <$> faces), context')
    /\ triIndices context'
       = triIndices context ++ concat (List.filter (fun vs => (length vs =? 3)%nat) faces)
    /\ quadIndices context'
       = quadIndices context
         ++ concat (patch_order <$> List.filter (fun vs => (length vs =? 4)%nat) faces).
Proof.
  revert context. induction faces as [|vs faces IH]; intros context Hlen.
  - exists context. cbn. rewrite !app_nil_r. auto.
  - destruct (run_callbacks_face vs context Hlen) as (c1 & E1 & Hlen1 & T1 & Q1).
    destruct (IH c1 Hlen1) as (c2 & E2 & T2 & Q2).
    exists c2. cbn [fmap list_fmap concat]. rewrite run_callbacks_app, E1. cbn.
    rewrite E2. cbn. split; [reflexivity|].
    rewrite T2, T1, Q2, Q1.
    destruct (length vs =? 3)%nat; destruct (length vs =? 4)%nat;
      cbn [fmap list_fmap concat]; rewrite ?app_nil_r, <- ?app_assoc; auto.
Qed.

Lemma rply_face_callback_faces_witness :
  exists context',
    run_callbacks (concat (face_events <$> [[7; 8; 9]; [1; 2]; [10; 11; 12; 13]]))
                  (mkContext [0; 0; 0; 0] [] [])
    = Ok (concat (face_warnings <$> [[7; 8; 9]; [1; 2]; [10; 11; 12; 13]]), context')
    /\ triIndices context'
       = [] ++ concat (List.filter (fun vs => (length vs =? 3)%nat)
                                  [[7; 8; 9]; [1; 2]; [10; 11; 12; 13]])
    /\ quadIndices context'
       = [] ++ concat (patch_order <$> List.filter (fun vs => (length vs =? 4)%nat)
                                                  [[7; 8; 9]; [1; 2]; [10; 11; 12; 13]]).
Proof.
  apply (rply_face_callback_faces [[7; 8; 9]; [1; 2]; [10; 11; 12; 13]]
           (mkContext [0; 0; 0; 0] [] [])).
  reflexivity.
Defined.

(** *** The vertex callback *)

(** The flags pack the stride in bits 4..7 and the component in bits 0..3. *)
Lemma flags_decode stride c :
  0 <= stride <= 15 -> 0 <= c <= 15 ->
  to_int (Z.shiftr (Z.land (stride * 16 + c) 0x0F0) 4) = stride
  /\ to_int (Z.land (stride * 16 + c) 0x00F) = c.
Proof.
  intros Hs Hc. split.
  - rewrite Z.shiftr_land. change (Z.shiftr 240 4) with (Z.ones 4).
    rewrite Z.land_ones, Z.shiftr_div_pow2 by lia. change (2 ^ 4) with 16.
    replace ((stride * 16 + c) / 16) with stride by (apply (Z.div_unique _ 16 stride c); lia).
    rewrite Z.mod_small by lia. apply to_int_small. unfold INT_MAX. lia.
  - change 15 with (Z.ones 4) at 1. rewrite Z.land_ones by lia. change (2 ^ 4) with 16.
    replace ((stride * 16 + c) mod 16) with c by (apply (Z.mod_unique _ 16 stride c); lia).
    apply to_int_small. unfold INT_MAX. lia.
Qed.

Section VertexBuffer.

Context {Float : Type}.
Variable stride : nat.
Hypothesis stride_small : (stride <= 15)%nat.

(** The callbacks for the components from [c0] on of element [i] write
    them next to each other. *)
Lemma run_components (i : nat) (comps : list Float) : forall (c0 : nat) (pre old post : list Float),
  (c0 + length comps <= 16)%nat ->
  length pre = (i * stride + c0)%nat ->
  length old = length comps ->
  run_vertex_callbacks
    (imap (fun c v => (Z.of_nat stride * 16 + Z.of_nat (c0 + c), Z.of_nat i, v)) comps)
    (pre ++ old ++ post)
  = pre ++ comps ++ post.
Proof.
  induction comps as [|v comps IH]; intros c0 pre old post Hc Hpre Hold.
  - destruct old; [reflexivity | discriminate].
  - destruct old as [|o old]; [discriminate|]. cbn [length] in *.
    cbn [imap run_vertex_callbacks fold_left fst snd].
    unfold rply_vertex_callback at 2.
    destruct (flags_decode (Z.of_nat stride) (Z.of_nat (c0 + 0))) as [-> ->]; [lia | lia |].
    replace (Z.of_nat i * Z.of_nat stride + Z.of_nat (c0 + 0)) with (Z.of_nat (length pre))
      by lia.
    destruct (Z.ltb_spec (Z.of_nat (length pre)) 0); [lia|].
    rewrite Nat2Z.id. cbn [app].
    rewrite insert_app_r_alt by lia. rewrite Nat.sub_diag. cbn [insert list_insert].
    rewrite (imap_ext _ (fun c v => (Z.of_nat stride * 16 + Z.of_nat (Datatypes.S c0 + c),
                                     Z.of_nat i, v))).
    2:{ intros c w _. cbn. do 3 f_equal. lia. }
    replace (pre ++ v :: old ++ post) with ((pre ++ [v]) ++ old ++ post)
      by (rewrite <- app_assoc; reflexivity).
    fold (run_vertex_callbacks
            (imap (fun c w => (Z.of_nat stride * 16 + Z.of_nat (Datatypes.S c0 + c),
                               Z.of_nat i, w)) comps)
            ((pre ++ [v]) ++ old ++ post)).
    rewrite IH; [rewrite <- app_assoc; reflexivity | lia | | lia].
    rewrite length_app. cbn [length]. lia.
Qed.

Lemma run_element (i : nat) (comps pre old post : list Float) :
  length comps = stride -> length pre = (i * stride)%nat -> length old = stride ->
  run_vertex_callbacks (element_events (Z.of_nat stride) i comps) (pre ++ old ++ post)
  = pre ++ comps ++ post.
Proof.
  intros Hc Hpre Hold. unfold element_events.
  rewrite (imap_ext _ (fun c v => (Z.of_nat stride * 16 + Z.of_nat (0 + c), Z.of_nat i, v)))
    by reflexivity.
  apply run_components; lia.
Qed.

Lemma run_elements (elements : list (list Float)) : forall (k : nat) (pre mid : list Float),
  Forall (fun e => length e = stride) elements ->
  length pre = (k * stride)%nat ->
  length mid = (length elements * stride)%nat ->
  run_vertex_callbacks
    (concat (imap (fun i e => element_events (Z.of_nat stride) (k + i) e) elements))
    (pre ++ mid)
  = pre ++ concat elements.
Proof.
  induction elements as [|e elements IH]; intros k pre mid Hall Hpre Hmid.
  - destruct mid; [reflexivity | discriminate].
  - inversion Hall as [|e' l' He Hall']; subst e' l'. cbn [length] in Hmid.
    cbn [imap concat]. unfold run_vertex_callbacks. rewrite fold_left_app.
    fold (run_vertex_callbacks (element_events (Z.of_nat stride) (k + 0) e) (pre ++ mid)).
    rewrite <- (take_drop stride mid).
    rewrite (run_element (k + 0) e pre (take stride mid) (drop stride mid));
      [| exact He | lia | rewrite length_take; lia].
    rewrite (imap_ext _ (fun i e => element_events (Z.of_nat stride) (Datatypes.S k + i) e)).
    2:{ intros i x _. cbn. f_equal. lia. }
    rewrite app_assoc.
    fold (run_vertex_callbacks
            (concat (imap (fun i e => element_events (Z.of_nat stride) (Datatypes.S k + i) e)
                          elements))
            ((pre ++ e) ++ drop stride mid)).
    rewrite IH; [rewrite <- app_assoc; reflexivity | exact Hall' | |].
    + rewrite length_app. lia.
    + rewrite length_drop. lia.
Qed.

End VertexBuffer.

(** X25.  The vertex callbacks fill a buffer element by element.  With the
    flags [stride * 16 + component] that [ReadPLY] registers ([0x30],
    [0x31], [0x32] for points and normals, [0x20], [0x21] for [uv]), the
    callbacks for a list of elements of [stride] components each leave a
    buffer of matching length holding exactly those components, element
    after element; no component overwrites another and none is lost. *)
Theorem rply_vertex_callback_layout {Float : Type} (stride : nat)
    (elements : list (list Float)) (buffer : list Float) :
  (stride <= 15)%nat ->
  Forall (fun e => length e = stride) elements ->
  length buffer = (length elements * stride)%nat ->
  run_vertex_callbacks (vertex_events (Z.of_nat stride) elements) buffer = concat elements.
Proof.
  intros Hs Hall Hlen. unfold vertex_events.
  rewrite (imap_ext _ (fun i e => element_events (Z.of_nat stride) (0 + i) e)) by reflexivity.
  apply (run_elements stride Hs elements 0 [] buffer Hall); [reflexivity | exact Hlen].
Qed.

Lemma rply_vertex_callback_layout_witness :
  run_vertex_callbacks (vertex_events (Z.of_nat 3) [[1; 2; 3]; [4; 5; 6]]) [0; 0; 0; 0; 0; 0]
  = concat [[1; 2; 3]; [4; 5; 6]].
Proof.
  apply (rply_vertex_callback_layout 3 [[1; 2; 3]; [4; 5; 6]] [0; 0; 0; 0; 0; 0]).
  - lia.
  - repeat constructor.
  - reflexivity.
Defined.

End Mesh.
